(** * OSMRouteRelation: the route-topology engine

    A shallow embedding of [src/OSMRouteRelation.ts]: the route graph built
    from the members of a route relation, the node-degree bins, the
    routability verdict, the ordering walk, the assembled line string and
    the statistics record, followed by the properties proved about them.

    JavaScript [Map]s iterate in insertion order and the code depends on that
    order (first entry, first neighbour, order inside the degree bins), so a
    [Map] is an association list whose keys are pairwise distinct and whose
    [set] keeps the position of a key that is already present. *)

From Stdlib Require Import String Ascii List Bool Arith Lia Permutation.
From Stdlib Require Import ZArith QArith Qround.
Import ListNotations.

Local Open Scope string_scope.
Local Open Scope list_scope.
Local Open Scope nat_scope.

(** ** Insertion-ordered maps with string keys *)

Module JsMap.

Section WithValue.
Context {V : Type}.

Definition t := list (string * V).

Fixpoint get (m : list (string * V)) (k : string) : option V :=
  match m with
  | [] => None
  | (k', v) :: m' => if String.eqb k' k then Some v else get m' k
  end.

Definition has (m : list (string * V)) (k : string) : bool :=
  match get m k with Some _ => true | None => false end.

(** [Map.prototype.set]: an existing key keeps its place, a new key goes
    to the end. *)
Fixpoint set (m : list (string * V)) (k : string) (v : V) : list (string * V) :=
  match m with
  | [] => [(k, v)]
  | (k', v') :: m' =>
      if String.eqb k' k then (k', v) :: m' else (k', v') :: set m' k v
  end.

Definition keys (m : list (string * V)) : list string := map fst m.

Definition size (m : list (string * V)) : nat := length m.

(** [m.entries().next().value]: the first entry, [undefined] when empty. *)
Definition first (m : list (string * V)) : option (string * V) := hd_error m.

End WithValue.

End JsMap.

(** ** Errors and outcomes *)

(** The exceptions the module can raise.  [RouteTopologyError] keeps the
    route id, the offending nodes and the parts of the message (count and
    rule); [SuperRouteTopologyError] wraps the failures collected while the
    graph was built; [TypeError] is the runtime's own error for a property
    read on [undefined]. *)
#[warnings="-register-all"]
Inductive error : Type :=
| TypeError : error
| RouteTopologyError : string -> list string -> list (nat * string) -> error
| SuperRouteTopologyError : string -> list error -> error.

(** The outcome of a computation: a value, a raised exception, or a loop
    that has not finished within the fuel it was given. *)
Inductive outcome (A : Type) : Type :=
| Ok (a : A)
| Throw (e : error)
| OutOfFuel.

Arguments Ok {A} a.
Arguments Throw {A} e.
Arguments OutOfFuel {A}.

Definition bind {A B : Type} (c : outcome A) (k : A -> outcome B) : outcome B :=
  match c with
  | Ok a => k a
  | Throw e => Throw e
  | OutOfFuel => OutOfFuel
  end.

(** [try { c } catch (e) { h e }] *)
Definition try_catch {A : Type} (c : outcome A) (h : error -> outcome A) : outcome A :=
  match c with
  | Throw e => h e
  | other => other
  end.

Notation "x <- c ;; k" := (bind c (fun x => k))
  (at level 61, c at next level, right associativity).

(** ** Data model *)

(** A GeoJSON LineString feature: a property bag and a coordinate list,
    each coordinate holding 2 or 3 numbers. *)
Record feature : Type := mkFeature {
  properties : list (string * string);
  coordinates : list (list Q)
}.

(** The element behind a member (an [OSMWay] or a way-like relation).  Its
    [endNodes] and [lineStringFeature] getters live outside this file; the
    record carries what each of them does when it is read: raise an error
    or return a value. *)
Record element : Type := mkElement {
  el_id : string;
  el_endNodes : error + (string * string);
  el_lineStringFeature : error + feature
}.

Inductive memberType : Type := MNode | MWay | MRelation.

Record member : Type := mkMember {
  m_type : memberType;
  m_role : string;
  m_element : option element
}.

(** The route relation: its id, its property bag (copied onto the features
    it produces) and its members. *)
Record route : Type := mkRoute {
  r_id : string;
  r_properties : list (string * string);
  r_members : list member
}.

Definition RouteGraph := list (string * list (string * string)).

Definition is_way (t : memberType) : bool :=
  match t with MWay => true | _ => false end.

Definition is_node (t : memberType) : bool :=
  match t with MNode => true | _ => false end.

Definition is_some {A : Type} (o : option A) : bool :=
  match o with Some _ => true | None => false end.

(** ** _buildRouteGraph *)

(** One turn of the inner loop over [endPairs]: create the neighbour map of
    [a] or merge into it. *)
Definition addEndPair (g : RouteGraph) (a b ref : string) : RouteGraph :=
  match JsMap.get g a with
  | None => JsMap.set g a [(b, ref)]
  | Some adj => JsMap.set g a (JsMap.set adj b ref)
  end.

(** The body of the loop over members, on the pair (graph, errors). *)
Definition buildStep (st : RouteGraph * list error) (m : member)
  : RouteGraph * list error :=
  let (g, errors) := st in
  if is_node (m_type m) then st
  else
    match m_element m with
    | None => (g, errors ++ [TypeError])
    | Some el =>
        match el_endNodes el with
        | inl e => (g, errors ++ [e])
        | inr (e0, e1) =>
            (addEndPair (addEndPair g e0 e1 (el_id el)) e1 e0 ("-" ++ el_id el),
             errors)
        end
    end.

Definition _buildRouteGraph (this : route) (members : list member)
  : outcome RouteGraph :=
  let (g, errors) := fold_left buildStep members ([], []) in
  if 0 <? length errors then Throw (SuperRouteTopologyError (r_id this) errors)
  else Ok g.

(** ** children, routeGraph *)

Definition children (this : route) : list member :=
  filter (fun m => is_way (m_type m) && is_some (m_element m)) (r_members this).

Definition not_alternative (m : member) : bool :=
  negb (String.eqb (m_role m) "alternative").

Definition routeGraph (this : route) : outcome RouteGraph :=
  _buildRouteGraph this (filter not_alternative (children this)).

(** ** nodeDegrees *)

(** [nodeDegrees[i].push(x)] *)
Fixpoint pushBin (i : nat) (x : string) (bins : list (list string))
  : list (list string) :=
  match bins, i with
  | [], _ => []
  | b :: bs, 0 => (b ++ [x]) :: bs
  | b :: bs, S j => b :: pushBin j x bs
  end.

Definition nodeDegreesOf (g : RouteGraph) : list (list string) :=
  fold_left
    (fun bins entry => pushBin (Nat.min (JsMap.size (snd entry)) 3) (fst entry) bins)
    g [[]; []; []; []].

Definition bin (i : nat) (bins : list (list string)) : list string :=
  nth i bins [].

Definition nodeDegrees (this : route) : outcome (list (list string)) :=
  g <- routeGraph this ;; Ok (nodeDegreesOf g).

(** ** isRoutable *)

Definition routableBins (nd : list (list string)) : bool :=
  let hasNo3PlusDegreeNodes := length (bin 3 nd) =? 0 in
  let isRoundTrip := length (bin 1 nd) <? 2 in
  let isOneWay := length (bin 1 nd) =? 2 in
  hasNo3PlusDegreeNodes && (isRoundTrip || isOneWay).

Definition isRoutable (this : route) : outcome bool :=
  try_catch
    (nd <- nodeDegrees this ;; Ok (routableBins nd))
    (fun _ => Ok false).

(** ** RouteTopologyError *)

(** The constructor of [RouteTopologyError]: it reads [route.nodeDegrees]
    (which may itself raise) and collects the offending nodes. *)
Definition newRouteTopologyError (this : route) : outcome error :=
  nd <- nodeDegrees this ;;
  let errNodes3 := if 0 <? length (bin 3 nd) then bin 3 nd else [] in
  let err3 := if 0 <? length (bin 3 nd)
              then [(length (bin 3 nd), "node > 2deg")] else [] in
  let errNodes1 := if 2 <? length (bin 1 nd) then bin 1 nd else [] in
  let err1 := if 2 <? length (bin 1 nd)
              then [(length (bin 1 nd), "dead end")] else [] in
  Ok (RouteTopologyError (r_id this) (errNodes3 ++ errNodes1) (err3 ++ err1)).

(** [throw new RouteTopologyError(this)] *)
Definition throwRouteTopologyError {A : Type} (this : route) : outcome A :=
  e <- newRouteTopologyError this ;; Throw e.

(** ** endNodes *)

(** An array read [a[i]] gives [undefined] past the end: [nth_error]. *)
Definition endNodes (this : route) : outcome (option string * option string) :=
  routable <- isRoutable this ;;
  if routable then
    nd <- nodeDegrees this ;;
    Ok (if length (bin 1 nd) =? 0
        then (nth_error (bin 2 nd) 0, nth_error (bin 2 nd) 0)
        else (nth_error (bin 1 nd) 0, nth_error (bin 1 nd) 1))
  else throwRouteTopologyError this.

(** ** orderedChildIds *)

Definition _getNextNode (g : RouteGraph) (currId lastId : string)
  : outcome (option string) :=
  match JsMap.get g currId with
  | None => Throw TypeError
  | Some adj =>
      Ok (hd_error (filter (fun k => negb (String.eqb k lastId)) (JsMap.keys adj)))
  end.

(** The [while (typeof nextId !== "undefined")] loop.  A reference read
    [routeGraph.get(currId).get(nextId)] may be [undefined], hence the
    [option] in the list that is built. *)
Fixpoint walk (fuel : nat) (g : RouteGraph) (lastId currId : string)
    (nextId : option string) (endId : string)
    (orderedChildren : list (option string)) : outcome (list (option string)) :=
  match nextId with
  | None => Ok orderedChildren
  | Some nx =>
      match fuel with
      | 0 => OutOfFuel
      | S fuel' =>
          match JsMap.get g currId with
          | None => Throw TypeError
          | Some adj =>
              let orderedChildren' := orderedChildren ++ [JsMap.get adj nx] in
              let lastId' := currId in
              let currId' := nx in
              nextId' <- _getNextNode g currId' lastId' ;;
              if String.eqb currId' endId && negb (String.eqb lastId' "-1")
              then Ok orderedChildren'
              else walk fuel' g lastId' currId' nextId' endId orderedChildren'
          end
      end
  end.

(** The part of [orderedChildIds] that works on the graph. *)
Definition orderGraph (fuel : nat) (g : RouteGraph) : outcome (list (option string)) :=
  if JsMap.size g =? 1 then
    match JsMap.first g with
    | None => Throw TypeError
    | Some (_, adj) =>
        match JsMap.first adj with
        | None => Throw TypeError
        | Some (_, ref) => Ok [Some ref]
        end
    end
  else
    let lastId := "-1" in
    (* one-way: the first node of degree 1 *)
    st <- match find (fun e => JsMap.size (snd e) =? 1) g with
          | Some (nodeId, _) =>
              nextId <- _getNextNode g nodeId lastId ;; Ok (nodeId, nextId)
          | None => Ok ("-1", Some "-1")
          end ;;
    (* round trip *)
    st' <- (if String.eqb (fst st) "-1" then
              match JsMap.first g with
              | None => Throw TypeError
              | Some firstNodeMap =>
                  match JsMap.first (snd firstNodeMap) with
                  | None => Throw TypeError
                  | Some adjacentMap =>
                      Ok (fst firstNodeMap, Some (fst adjacentMap), fst firstNodeMap)
                  end
              end
            else Ok (fst st, snd st, "-1")) ;;
    let '(currId, nextId, endId) := st' in
    walk fuel g lastId currId nextId endId [].

Definition orderedChildIds (fuel : nat) (this : route)
  : outcome (list (option string)) :=
  routable <- isRoutable this ;;
  if negb routable then throwRouteTopologyError this
  else g <- routeGraph this ;; orderGraph fuel g.

(** ** Helpers of [./utils] *)

(** Modelled from the spec: [_isReversed] of [./utils], which is not part of
    the sources at hand.  A segment reference is the segment's identifier,
    "optionally prefixed to mark traverse in reverse direction"; the prefix
    the graph builder writes is ["-"]. *)
Definition _isReversed (childId : string) : bool :=
  match childId with
  | String "-"%char _ => true
  | _ => false
  end.

(** Modelled from the spec: [_absoluteId] of [./utils], the reference
    without its direction prefix. *)
Definition _absoluteId (childId : string) : string :=
  match childId with
  | String "-"%char rest => rest
  | _ => childId
  end.

(** Modelled from the spec: [reverseLineFeature] of [./utils], the feature
    with "endpoint order swapped relative to the segment's native
    orientation", that is with its coordinates in reverse order. *)
Definition reverseLineFeature (f : feature) : feature :=
  {| properties := properties f; coordinates := rev (coordinates f) |}.

(** ** Feature collections *)

Fixpoint mapM {A B : Type} (f : A -> outcome B) (l : list A) : outcome (list B) :=
  match l with
  | [] => Ok []
  | a :: l' => b <- f a ;; bs <- mapM f l' ;; Ok (b :: bs)
  end.

(** [(child.element as WayLikeMember)]: reading a property of a missing
    element is a [TypeError]. *)
Definition elementOf (child : member) : outcome element :=
  match m_element child with
  | Some el => Ok el
  | None => Throw TypeError
  end.

(** [el.lineStringFeature]: a read of the getter of the element. *)
Definition lineStringFeatureOf (el : element) : outcome feature :=
  match el_lineStringFeature el with
  | inl e => Throw e
  | inr f => Ok f
  end.

(** [new Map(this.children.map((child) => [child.element.id, child]))] *)
Definition childrenMap (this : route) : outcome (list (string * member)) :=
  pairs <- mapM (fun child => el <- elementOf child ;; Ok (el_id el, child))
                (children this) ;;
  Ok (fold_left (fun m kv => JsMap.set m (fst kv) (snd kv)) pairs []).

Definition lookupFeature (cm : list (string * member)) (childId : string)
  : outcome feature :=
  match JsMap.get cm childId with
  | None => Throw TypeError
  | Some child => el <- elementOf child ;; lineStringFeatureOf el
  end.

Definition orderedFeatureCollection (fuel : nat) (this : route)
  : outcome (list feature) :=
  routable <- isRoutable this ;;
  if negb routable then throwRouteTopologyError this
  else
    cm <- childrenMap this ;;
    ids <- orderedChildIds fuel this ;;
    mapM (fun childId =>
            match childId with
            | None => Throw TypeError
            | Some cid =>
                if _isReversed cid
                then f <- lookupFeature cm (_absoluteId cid) ;;
                     Ok (reverseLineFeature f)
                else lookupFeature cm cid
            end) ids.

Definition featureCollection (this : route) : outcome (list feature) :=
  mapM (fun child => el <- elementOf child ;; lineStringFeatureOf el)
       (filter not_alternative (children this)).

Definition deepFeatureCollection := featureCollection.

(** [lineStringFeature]: [shift()] takes the first feature off, every other
    feature loses its first coordinate ([slice(1)]). *)
Definition lineStringFeature (fuel : nat) (this : route) : outcome feature :=
  ordered <- orderedFeatureCollection fuel this ;;
  match ordered with
  | [] => Throw TypeError
  | firstFeature :: others =>
      let firstCoordinates := coordinates firstFeature in
      let otherCoordinates := map (fun feat => skipn 1 (coordinates feat)) others in
      Ok {| properties := r_properties this;
            coordinates := firstCoordinates ++ concat otherCoordinates |}
  end.

(** ** Numbers

    A JavaScript number is a rational (kept as a reduced fraction, so that
    equal numbers are equal terms), an infinity or [NaN].  The rounding of
    binary floating point is not modelled: sums, products and quotients
    are exact here, while the program rounds each of them to the nearest
    double.  The two agree where every step is exact in binary, as on the
    values the statements below are about (counts, small integers, 1/2, 50,
    100 and [NaN]), and can differ in the last digit elsewhere: nothing is
    stated about [length], nor about elevation sums in general. *)
Inductive num : Type :=
| Fin (q : Q)
| PInf
| NInf
| NaN.

Definition num_neg (x : num) : num :=
  match x with
  | Fin q => Fin (Qred (- q))
  | PInf => NInf
  | NInf => PInf
  | NaN => NaN
  end.

Definition num_add (x y : num) : num :=
  match x, y with
  | NaN, _ | _, NaN => NaN
  | PInf, NInf | NInf, PInf => NaN
  | PInf, _ | _, PInf => PInf
  | NInf, _ | _, NInf => NInf
  | Fin a, Fin b => Fin (Qred (a + b))
  end.

(** The infinity with the sign of [q], [NaN] for zero. *)
Definition inf_of_sign (q : Q) : num :=
  match Qcompare q 0 with
  | Gt => PInf
  | Lt => NInf
  | Eq => NaN
  end.

Definition num_mul (x y : num) : num :=
  match x, y with
  | NaN, _ | _, NaN => NaN
  | Fin a, Fin b => Fin (Qred (a * b))
  | PInf, Fin q | Fin q, PInf => inf_of_sign q
  | NInf, Fin q | Fin q, NInf => num_neg (inf_of_sign q)
  | PInf, PInf | NInf, NInf => PInf
  | PInf, NInf | NInf, PInf => NInf
  end.

Definition num_div (x y : num) : num :=
  match x, y with
  | NaN, _ | _, NaN => NaN
  | Fin a, Fin b =>
      if Qeq_bool b 0 then inf_of_sign a else Fin (Qred (a / b))
  | Fin _, PInf | Fin _, NInf => Fin 0
  | PInf, Fin q => if Qeq_bool q 0 then PInf else inf_of_sign q
  | NInf, Fin q => if Qeq_bool q 0 then NInf else num_neg (inf_of_sign q)
  | _, _ => NaN
  end.

Definition of_nat (n : nat) : num := Fin (inject_Z (Z.of_nat n)).

(** [Math.round]: the nearest integer, halves going up. *)
Definition Math_round (x : num) : num :=
  match x with
  | Fin q => Fin (inject_Z (Qfloor (q + (1 # 2))))
  | other => other
  end.

(** [const round = (number) => Math.round(number * 100) / 100] *)
Definition round (number : num) : num :=
  num_div (Math_round (num_mul number (Fin 100))) (Fin 100).

(** A number read from a property that was never set is [undefined], and
    arithmetic on [undefined] gives [NaN]. *)
Definition to_number (x : option num) : num :=
  match x with
  | Some n => n
  | None => NaN
  end.

(** ** statistics *)

Module RouteStatistics.

(** [ascent] and [descent] are optional properties of the record: [None]
    is a property that is absent, [Some NaN] one that is present and
    holds [NaN]. *)
Record t : Type := mk {
  numSegments : nat;
  numNodes : nat;
  length : num;
  surfacePct : num;
  surfaceWays : list (option string);
  sacScalePct : num;
  sacScaleWays : list (option string);
  ascent : option num;
  descent : option num
}.

End RouteStatistics.

Definition Qlt_bool (a b : Q) : bool :=
  match Qcompare a b with
  | Lt => true
  | _ => false
  end.

(** ["path", "track", "footway"].includes(segment.properties.highway) *)
Definition sacScaleRelevant (props : list (string * string)) : bool :=
  JsMap.has props "highway" &&
  match JsMap.get props "highway" with
  | Some h => existsb (String.eqb h) ["path"; "track"; "footway"]
  | None => false
  end.

(** The state of the loop over the segments: the record being filled and
    the two counters [numSacScaleRelevant] and [numSacScale]. *)
Definition statsStep (turfLength : feature -> Q)
    (st : RouteStatistics.t * nat * nat) (segment : feature)
  : RouteStatistics.t * nat * nat :=
  let '(s, numSacScaleRelevant, numSacScale) := st in
  let props := properties segment in
  let numSegments := RouteStatistics.numSegments s + 1 in
  let numNodes := RouteStatistics.numNodes s + List.length (coordinates segment) in
  let hasSurface := JsMap.has props "surface" in
  let surfacePct :=
    if hasSurface
    then num_add (RouteStatistics.surfacePct s) (num_div (Fin 1) (of_nat numSegments))
    else RouteStatistics.surfacePct s in
  let surfaceWays :=
    if hasSurface then RouteStatistics.surfaceWays s
    else RouteStatistics.surfaceWays s ++ [JsMap.get props "@id"] in
  let relevant := sacScaleRelevant props in
  let hasSacScale := JsMap.has props "sac_scale" in
  let sacScaleWays :=
    if relevant && negb hasSacScale
    then RouteStatistics.sacScaleWays s ++ [JsMap.get props "@id"]
    else RouteStatistics.sacScaleWays s in
  let length :=
    num_add (RouteStatistics.length s)
            (num_mul (Fin (Qred (turfLength segment))) (Fin 1000)) in
  (RouteStatistics.mk numSegments numNodes length surfacePct surfaceWays
     (RouteStatistics.sacScalePct s) sacScaleWays
     (RouteStatistics.ascent s) (RouteStatistics.descent s),
   if relevant then numSacScaleRelevant + 1 else numSacScaleRelevant,
   if relevant && hasSacScale then numSacScale + 1 else numSacScale).

(** One turn of the elevation loop for [coordIdx <> 0]: [coord[2]] is
    [undefined] on a two-component coordinate and then both comparisons
    are false. *)
Definition elevationStep (lastCoord coord : list Q) (acc : num * num) : num * num :=
  match nth_error coord 2, nth_error lastCoord 2 with
  | Some c, Some l =>
      if Qlt_bool l c then (num_add (fst acc) (Fin (Qred (c - l))), snd acc)
      else if Qlt_bool c l then (fst acc, num_add (snd acc) (Fin (Qred (l - c))))
      else acc
  | _, _ => acc
  end.

Fixpoint elevationLoop (lastCoord : list Q) (rest : list (list Q))
    (acc : num * num) : num * num :=
  match rest with
  | [] => acc
  | coord :: rest' => elevationLoop coord rest' (elevationStep lastCoord coord acc)
  end.

Definition initialStatistics : RouteStatistics.t :=
  RouteStatistics.mk 0 0 (Fin 0) (Fin 0) [] (Fin 0) [] None None.

Definition statistics (turfLength : feature -> Q) (fuel : nat) (this : route)
  : outcome RouteStatistics.t :=
  features <- deepFeatureCollection this ;;
  let '(s, numSacScaleRelevant, numSacScale) :=
    fold_left (statsStep turfLength) features (initialStatistics, 0, 0) in
  let sacScalePct := num_div (of_nat numSacScale) (of_nat numSacScaleRelevant) in
  routable <- isRoutable this ;;
  elevation <- (if routable then
                  line <- lineStringFeature fuel this ;;
                  match coordinates line with
                  | [] => Throw TypeError
                  | coord0 :: rest =>
                      if List.length coord0 =? 3
                      then let acc := elevationLoop coord0 rest (Fin 0, Fin 0) in
                           Ok (Some (fst acc), Some (snd acc))
                      else Ok (None, None)
                  end
                else Ok (None, None)) ;;
  Ok (RouteStatistics.mk
        (RouteStatistics.numSegments s)
        (RouteStatistics.numNodes s)
        (round (RouteStatistics.length s))
        (num_mul (round (RouteStatistics.surfacePct s)) (Fin 100))
        (RouteStatistics.surfaceWays s)
        (num_mul (round sacScalePct) (Fin 100))
        (RouteStatistics.sacScaleWays s)
        (Some (round (to_number (fst elevation))))
        (Some (round (to_number (snd elevation))))).

(** ** Vocabulary of the statements *)

(** The reference stored for the entry [a -> b] of the graph, if any. *)
Definition edgeRef (g : RouteGraph) (a b : string) : option string :=
  match JsMap.get g a with
  | Some adj => JsMap.get adj b
  | None => None
  end.

(** The neighbours of a node, in the order of its adjacency map. *)
Definition neighbours (g : RouteGraph) (a : string) : list string :=
  match JsMap.get g a with
  | Some adj => JsMap.keys adj
  | None => []
  end.

(** The nodes of degree exactly [d], and those of degree 3 or more, in the
    iteration order of the graph. *)
Definition nodesWithDegree (d : nat) (g : RouteGraph) : list string :=
  JsMap.keys (filter (fun e => JsMap.size (snd e) =? d) g).

Definition nodesWithDegree3Plus (g : RouteGraph) : list string :=
  JsMap.keys (filter (fun e => 3 <=? JsMap.size (snd e)) g).

(** The routability predicate in the words of the specification: no node
    of degree 3 or more, and exactly 0 or exactly 2 nodes of degree 1. *)
Definition spec_isRoutable (g : RouteGraph) : bool :=
  (length (nodesWithDegree3Plus g) =? 0) &&
  ((length (nodesWithDegree 1 g) =? 0) || (length (nodesWithDegree 1 g) =? 2)).

(** A member that is a segment with identifier [id] and end nodes [(a, b)]:
    what the graph builder reads from it. *)
Definition isSegment (m : member) (id a b : string) : Prop :=
  is_node (m_type m) = false /\
  exists el, m_element m = Some el /\ el_id el = id /\ el_endNodes el = inr (a, b).

(** The member joins the unordered pair of nodes [{a, b}]. *)
Definition joins (m : member) (a b : string) : Prop :=
  exists id, isSegment m id a b \/ isSegment m id b a.

(** A way member as the route relation holds it. *)
Definition wayMember (role id a b : string) (f : feature) : member :=
  mkMember MWay role (Some (mkElement id (inr (a, b)) (inr f))).

(** What every [Map] guarantees, and what the builder adds: keys are
    pairwise distinct at both levels and no neighbour map is empty. *)
Definition mapInvariant (g : RouteGraph) : Prop :=
  NoDup (JsMap.keys g) /\
  forall n adj, In (n, adj) g -> adj <> [] /\ NoDup (JsMap.keys adj).

Definition symmetricGraph (g : RouteGraph) : Prop :=
  forall a b, In b (neighbours g a) -> In a (neighbours g b).

(** The graph the loop of [_buildRouteGraph] has built from [members],
    starting from [g]. *)
Definition builtFrom (g : RouteGraph) (members : list member) : RouteGraph :=
  fst (fold_left buildStep members (g, [])).

(** ** Routes used as examples *)

Definition noFeature : feature := mkFeature [] [].

(** No member at all. *)
Definition emptyRoute : route := mkRoute "r" [] [].

(** One closed way: both ends are the node A. *)
Definition selfLoopRoute : route :=
  mkRoute "r" [] [wayMember "" "1" "A" "A" noFeature].

(** Node B has edges to A, C and D. *)
Definition junctionRoute : route :=
  mkRoute "r" []
    [wayMember "" "1" "A" "B" noFeature;
     wayMember "" "2" "B" "C" noFeature;
     wayMember "" "3" "B" "D" noFeature].

(** A single way whose role is neither [main] nor [alternative]. *)
Definition forwardRoleRoute : route :=
  mkRoute "r" [] [wayMember "forward" "1" "A" "B" noFeature].

(** A way kept as an alternative beside a main way. *)
Definition alternativeRoute : route :=
  mkRoute "r" []
    [wayMember "" "1" "A" "B" noFeature;
     wayMember "alternative" "2" "B" "C" noFeature].

(** A member whose end nodes cannot be read. *)
Definition brokenRoute : route :=
  mkRoute "r" []
    [mkMember MWay "" (Some (mkElement "1" (inl TypeError) (inr noFeature)))].

(** The path A - B - C made of the ways 1 and 2. *)
Definition pathRoute : route :=
  mkRoute "r" []
    [wayMember "" "1" "A" "B" noFeature;
     wayMember "" "2" "B" "C" noFeature].

(** Two ways between the same two nodes. *)
Definition parallelRoute : route :=
  mkRoute "r" []
    [wayMember "" "1" "A" "B" noFeature;
     wayMember "" "2" "A" "B" noFeature].

(** The example of the specification: two 2-point segments
    [[0,0],[1,1]] and [[1,1],[2,2]] joined at B. *)
Definition twoSegmentRoute : route :=
  mkRoute "r" []
    [wayMember "" "1" "A" "B" (mkFeature [] [[0; 0]; [1; 1]]%Q);
     wayMember "" "2" "B" "C" (mkFeature [] [[1; 1]; [2; 2]]%Q)].

(** The same line with the second way drawn from C to B. *)
Definition reversedSegmentRoute : route :=
  mkRoute "r" []
    [wayMember "" "1" "A" "B" (mkFeature [] [[0; 0]; [1; 1]]%Q);
     wayMember "" "2" "C" "B" (mkFeature [] [[2; 2]; [1; 1]]%Q)].

(** Two segments, one with a [surface] tag: tagged first, and untagged
    first. *)
Definition taggedFirstRoute : route :=
  mkRoute "r" []
    [wayMember "" "1" "A" "B"
       (mkFeature [("@id", "way/1"); ("surface", "gravel")] [[0; 0]; [1; 1]]%Q);
     wayMember "" "2" "B" "C"
       (mkFeature [("@id", "way/2")] [[1; 1]; [2; 2]]%Q)].

Definition untaggedFirstRoute : route :=
  mkRoute "r" []
    [wayMember "" "1" "A" "B"
       (mkFeature [("@id", "way/1")] [[0; 0]; [1; 1]]%Q);
     wayMember "" "2" "B" "C"
       (mkFeature [("@id", "way/2"); ("surface", "gravel")] [[1; 1]; [2; 2]]%Q)].

(** A path with elevations 10, 15, 15, 12. *)
Definition hillRoute : route :=
  mkRoute "r" []
    [wayMember "" "1" "A" "B" (mkFeature [] [[0; 0; 10]; [1; 1; 15]]%Q);
     wayMember "" "2" "B" "C" (mkFeature [] [[1; 1; 15]; [2; 2; 15]; [3; 3; 12]]%Q)].

(** An external length function for the examples: every segment is 1 km. *)
Definition unitLength (f : feature) : Q := 1.

(** ** Walks *)

(** The consecutive pairs of a sequence of nodes: the steps of the walk
    that visits them in this order. *)
Fixpoint steps (p : list string) : list (string * string) :=
  match p with
  | a :: ((b :: _) as p') => (a, b) :: steps p'
  | _ => []
  end.

(** The same steps for a sequence kept latest node first. *)
Fixpoint rsteps (r : list string) : list (string * string) :=
  match r with
  | c :: ((l :: _) as r') => (l, c) :: rsteps r'
  | _ => []
  end.

(** Each step starts where the previous one ended. *)
Inductive chained : list (string * string) -> Prop :=
| chained_nil : chained []
| chained_one : forall a b, chained [(a, b)]
| chained_cons : forall a b c t,
    chained ((b, c) :: t) -> chained ((a, b) :: (b, c) :: t).

Definition swap (s : string * string) : string * string := (snd s, fst s).

(** The entries [a -> b] of the graph, and the number of its edges: every
    edge between two distinct nodes is stored as two entries. *)
Definition entries (g : RouteGraph) : list (string * string) :=
  flat_map (fun e => map (fun k => (fst e, k)) (JsMap.keys (snd e))) g.

Definition numEdges (g : RouteGraph) : nat := Nat.div2 (length (entries g)).

Inductive reachable (g : RouteGraph) : string -> string -> Prop :=
| reachable_refl : forall a, reachable g a a
| reachable_step : forall a b c,
    In b (neighbours g a) -> reachable g b c -> reachable g a c.

(** One connected component: any two nodes are linked by a chain of
    neighbours. *)
Definition connected (g : RouteGraph) : Prop :=
  forall a b, In a (JsMap.keys g) -> In b (JsMap.keys g) -> reachable g a b.

Definition loopFree (g : RouteGraph) : Prop :=
  forall a, ~ In a (neighbours g a).

(** The neighbour [_getNextNode] picks: the first one that is not [lastId]. *)
Definition nextOf (g : RouteGraph) (currId lastId : string) : option string :=
  hd_error (filter (fun k => negb (String.eqb k lastId)) (neighbours g currId)).

(** The references read along a sequence of nodes. *)
Definition refsAlong (g : RouteGraph) (p : list string) : list (option string) :=
  map (fun s => edgeRef g (fst s) (snd s)) (steps p).

(** A path A - B beside a triangle C - D - E: two components. *)
Definition pathAndTriangleRoute : route :=
  mkRoute "r" []
    [wayMember "" "1" "A" "B" noFeature;
     wayMember "" "2" "C" "D" noFeature;
     wayMember "" "3" "D" "E" noFeature;
     wayMember "" "4" "E" "C" noFeature].

(** A round trip A - B - C - A whose second way is drawn from C to B. *)
Definition triangleRoute : route :=
  mkRoute "r" []
    [wayMember "" "1" "A" "B" noFeature;
     wayMember "" "2" "C" "B" noFeature;
     wayMember "" "3" "C" "A" noFeature].

(** The steps [t] only follow entries of the graph. *)
Definition adjacentSteps (g : RouteGraph) (t : list (string * string)) : Prop :=
  forall a b, In (a, b) t -> In b (neighbours g a).

(** Every entry of the graph at node [a] is walked by [t], one way or the
    other. *)
Definition closedAt (g : RouteGraph) (t : list (string * string)) (a : string) : Prop :=
  forall b, In b (neighbours g a) -> In (a, b) t \/ In (b, a) t.

(** [t] follows entries of the graph, never twice the same edge, and
    leaves no entry unwalked at a node it touches. *)
Definition exhaustive (g : RouteGraph) (t : list (string * string)) : Prop :=
  adjacentSteps g t /\
  NoDup t /\
  (forall a b, In (a, b) t -> ~ In (b, a) t) /\
  (forall a b, In (a, b) t -> closedAt g t a /\ closedAt g t b).

(** ** alternatives, multiLineStringFeature, simplestFeature *)

(** A GeoJSON MultiLineString feature. *)
Record multiLineFeature : Type := mkMultiLine {
  ml_properties : list (string * string);
  ml_coordinates : list (list (list Q))
}.

Definition is_alternative (m : member) : bool :=
  String.eqb (m_role m) "alternative".

(** [alternatives]: the features of the collection, a single
    MultiLineString with one line per alternative child. *)
Definition alternatives (this : route) : outcome (list multiLineFeature) :=
  feats <- mapM (fun child => el <- elementOf child ;; lineStringFeatureOf el)
                (filter is_alternative (children this)) ;;
  Ok [mkMultiLine [] (map coordinates feats)].

Definition deepOrderedFeatureCollection := orderedFeatureCollection.

Definition multiLineStringFeature (this : route) : outcome multiLineFeature :=
  features <- featureCollection this ;;
  Ok (mkMultiLine (r_properties this) (map coordinates features)).

Definition deepMultiLineStringFeature := multiLineStringFeature.

(** What [simplestFeature] returns: a LineString or a MultiLineString. *)
Inductive simpleFeature : Type :=
| LineString (f : feature)
| MultiLineString (f : multiLineFeature).

Definition simplestFeature (fuel : nat) (this : route) : outcome simpleFeature :=
  routable <- isRoutable this ;;
  if routable
  then f <- lineStringFeature fuel this ;; Ok (LineString f)
  else f <- deepMultiLineStringFeature this ;; Ok (MultiLineString f).

(** ** More vocabulary *)

(** What the loop of [_buildRouteGraph] pushes on [errors] for one member. *)
Definition memberFailure (m : member) : list error :=
  if is_node (m_type m) then []
  else match m_element m with
       | None => [TypeError]
       | Some el =>
           match el_endNodes el with
           | inl e => [e]
           | inr _ => []
           end
       end.

(** The line string feature of a child whose getter returns one. *)
Definition featureOf (child : member) : feature :=
  match m_element child with
  | Some el =>
      match el_lineStringFeature el with
      | inr f => f
      | inl _ => noFeature
      end
  | None => noFeature
  end.

(** The main children of a route: the ways its graph and its statistics are
    made of. *)
Definition mainChildren (this : route) : list member :=
  filter not_alternative (children this).

Definition hasSurface (f : feature) : bool := JsMap.has (properties f) "surface".

Definition hasSacScale (f : feature) : bool := JsMap.has (properties f) "sac_scale".

Definition atId (f : feature) : option string := JsMap.get (properties f) "@id".

(** The elevation never goes down along the coordinates, or never up. *)
Fixpoint neverDescends (lastCoord : list Q) (rest : list (list Q)) : bool :=
  match rest with
  | [] => true
  | coord :: rest' =>
      match nth_error coord 2, nth_error lastCoord 2 with
      | Some c, Some l => negb (Qlt_bool c l)
      | _, _ => true
      end && neverDescends coord rest'
  end.

Fixpoint neverClimbs (lastCoord : list Q) (rest : list (list Q)) : bool :=
  match rest with
  | [] => true
  | coord :: rest' =>
      match nth_error coord 2, nth_error lastCoord 2 with
      | Some c, Some l => negb (Qlt_bool l c)
      | _, _ => true
      end && neverClimbs coord rest'
  end.

(** A route whose only way is an alternative, beside a node member. *)
Definition alternativeOnlyRoute : route :=
  mkRoute "r" [("name", "loop")]
    [mkMember MNode "" None;
     wayMember "alternative" "7" "A" "B" (mkFeature [] [[0; 0]; [1; 1]]%Q)].

(** A path that only climbs: elevations 10, 15, 15, 20. *)
Definition climbRoute : route :=
  mkRoute "r" []
    [wayMember "" "1" "A" "B" (mkFeature [] [[0; 0; 10]; [1; 1; 15]]%Q);
     wayMember "" "2" "B" "C" (mkFeature [] [[1; 1; 15]; [2; 2; 15]; [3; 3; 20]]%Q)].

(** Three footways, two of them with a [sac_scale], and a road. *)
Definition sacScaleRoute : route :=
  mkRoute "r" []
    [wayMember "" "1" "A" "B"
       (mkFeature [("@id", "way/1"); ("highway", "path"); ("sac_scale", "T1")]
          [[0; 0]; [1; 1]]%Q);
     wayMember "" "2" "B" "C"
       (mkFeature [("@id", "way/2"); ("highway", "residential")]
          [[1; 1]; [2; 2]]%Q);
     wayMember "" "3" "C" "D"
       (mkFeature [("@id", "way/3"); ("highway", "track"); ("sac_scale", "T2")]
          [[2; 2]; [3; 3]]%Q)].

Definition isRelevant (f : feature) : bool := sacScaleRelevant (properties f).

(** A reference that is stored in the graph. *)
Definition storedRef (g : RouteGraph) (r : option string) : Prop :=
  exists a b id, r = Some id /\ edgeRef g a b = Some id.

(** A way that ends at a node whose id is ["-1"], the value
    [orderedChildIds] starts its variables with. *)
Definition sentinelRoute : route :=
  mkRoute "r" [] [wayMember "" "1" "A" "-1" noFeature].

(** ** The memoised getters

    [routeGraph], [isRoutable] and [orderedChildIds] keep their result in a
    field of the object ([_routeGraph], [_isRoutable], [_orderedChildIds])
    and return the field on later reads.  Here the three fields are the
    state: a getter takes the fields and returns its outcome with the new
    fields.  An exception leaves the fields as they are where it is raised.
    The members of the route are not assigned by any getter and stay
    outside the state; so does [_statistics], which no getter modelled
    here reads. *)

Record cache : Type := mkCache {
  _routeGraph : option RouteGraph;
  _isRoutable : option bool;
  _orderedChildIds : option (list (option string)) }.

(** The fields of an object just constructed: all [undefined]. *)
Definition freshCache : cache := mkCache None None None.

Definition getter (A : Type) : Type := cache -> outcome A * cache.

Definition ret {A : Type} (a : A) : getter A := fun c => (Ok a, c).

Definition raise {A : Type} (e : error) : getter A := fun c => (Throw e, c).

(** A computation that reads no field. *)
Definition lift {A : Type} (o : outcome A) : getter A := fun c => (o, c).

Definition seq {A B : Type} (m : getter A) (k : A -> getter B) : getter B :=
  fun c =>
    match m c with
    | (Ok a, c') => k a c'
    | (Throw e, c') => (Throw e, c')
    | (OutOfFuel, c') => (OutOfFuel, c')
    end.

Notation "x <~ c ;; k" := (seq c (fun x => k))
  (at level 61, c at next level, right associativity).

Module Cached.

(** [get routeGraph()]: the field is assigned only when
    [_buildRouteGraph] returns. *)
Definition routeGraph (this : route) : getter RouteGraph :=
  fun c =>
    match _routeGraph c with
    | Some g => (Ok g, c)
    | None =>
        match _buildRouteGraph this (filter not_alternative (children this)) with
        | Ok g => (Ok g, mkCache (Some g) (_isRoutable c) (_orderedChildIds c))
        | Throw e => (Throw e, c)
        | OutOfFuel => (OutOfFuel, c)
        end
    end.

Definition nodeDegrees (this : route) : getter (list (list string)) :=
  g <~ routeGraph this ;; ret (nodeDegreesOf g).

(** [get isRoutable()]: the [catch] stores [false]. *)
Definition isRoutable (this : route) : getter bool :=
  fun c =>
    match _isRoutable c with
    | Some b => (Ok b, c)
    | None =>
        match nodeDegrees this c with
        | (Ok nd, c') =>
            (Ok (routableBins nd),
             mkCache (_routeGraph c') (Some (routableBins nd)) (_orderedChildIds c'))
        | (Throw _, c') =>
            (Ok false, mkCache (_routeGraph c') (Some false) (_orderedChildIds c'))
        | (OutOfFuel, c') => (OutOfFuel, c')
        end
    end.

Definition newRouteTopologyError (this : route) : getter error :=
  nd <~ nodeDegrees this ;;
  let errNodes3 := if 0 <? length (bin 3 nd) then bin 3 nd else [] in
  let err3 := if 0 <? length (bin 3 nd)
              then [(length (bin 3 nd), "node > 2deg")] else [] in
  let errNodes1 := if 2 <? length (bin 1 nd) then bin 1 nd else [] in
  let err1 := if 2 <? length (bin 1 nd)
              then [(length (bin 1 nd), "dead end")] else [] in
  ret (RouteTopologyError (r_id this) (errNodes3 ++ errNodes1) (err3 ++ err1)).

Definition throwRouteTopologyError {A : Type} (this : route) : getter A :=
  e <~ newRouteTopologyError this ;; raise e.

Definition endNodes (this : route) : getter (option string * option string) :=
  routable <~ isRoutable this ;;
  if routable then
    nd <~ nodeDegrees this ;;
    ret (if length (bin 1 nd) =? 0
         then (nth_error (bin 2 nd) 0, nth_error (bin 2 nd) 0)
         else (nth_error (bin 1 nd) 0, nth_error (bin 1 nd) 1))
  else throwRouteTopologyError this.

(** The arrow function [_getNextNode] reads [this.routeGraph] at each
    call; on the graph read it is the function [_getNextNode] of the
    walk without fields. *)
Definition _getNextNode (this : route) (currId lastId : string)
  : getter (option string) :=
  g <~ routeGraph this ;; lift (_getNextNode g currId lastId).

(** The [while] loop: [this.routeGraph] is read once for the reference and
    once in [_getNextNode], at every turn. *)
Fixpoint walk (fuel : nat) (this : route) (lastId currId : string)
    (nextId : option string) (endId : string)
    (orderedChildren : list (option string)) {struct fuel}
  : getter (list (option string)) :=
  match nextId with
  | None => ret orderedChildren
  | Some nx =>
      match fuel with
      | 0 => lift OutOfFuel
      | S fuel' =>
          g <~ routeGraph this ;;
          match JsMap.get g currId with
          | None => raise TypeError
          | Some adj =>
              let orderedChildren' := orderedChildren ++ [JsMap.get adj nx] in
              let lastId' := currId in
              let currId' := nx in
              nextId' <~ _getNextNode this currId' lastId' ;;
              if String.eqb currId' endId && negb (String.eqb lastId' "-1")
              then ret orderedChildren'
              else walk fuel' this lastId' currId' nextId' endId orderedChildren'
          end
      end
  end.

(** The part of [orderedChildIds] that works on the graph, with the
    assignment to [_orderedChildIds] at its end; the result of the
    single-entry case is returned without being stored. *)
Definition orderGraph (fuel : nat) (this : route)
  : getter (list (option string)) :=
  g <~ routeGraph this ;;
  if JsMap.size g =? 1 then
    g1 <~ routeGraph this ;;
    match JsMap.first g1 with
    | None => raise TypeError
    | Some (_, adj) =>
        match JsMap.first adj with
        | None => raise TypeError
        | Some (_, ref) => ret [Some ref]
        end
    end
  else
    let lastId := "-1" in
    g2 <~ routeGraph this ;;
    st <~ match find (fun e => JsMap.size (snd e) =? 1) g2 with
          | Some (nodeId, _) =>
              nextId <~ _getNextNode this nodeId lastId ;;
              ret (nodeId, nextId)
          | None => ret ("-1", Some "-1")
          end ;;
    st' <~ (if String.eqb (fst st) "-1" then
              g3 <~ routeGraph this ;;
              match JsMap.first g3 with
              | None => raise TypeError
              | Some firstNodeMap =>
                  match JsMap.first (snd firstNodeMap) with
                  | None => raise TypeError
                  | Some adjacentMap =>
                      ret (fst firstNodeMap, Some (fst adjacentMap),
                           fst firstNodeMap)
                  end
              end
            else ret (fst st, snd st, "-1")) ;;
    let '(currId, nextId, endId) := st' in
    ids <~ walk fuel this lastId currId nextId endId [] ;;
    fun c => (Ok ids, mkCache (_routeGraph c) (_isRoutable c) (Some ids)).

(** [get orderedChildIds()]: the test of [isRoutable] comes before the
    read of the field. *)
Definition orderedChildIds (fuel : nat) (this : route)
  : getter (list (option string)) :=
  routable <~ isRoutable this ;;
  if negb routable then throwRouteTopologyError this
  else fun c =>
    match _orderedChildIds c with
    | Some ids => (Ok ids, c)
    | None => orderGraph fuel this c
    end.

End Cached.

(** The fields hold nothing but what the getters compute from the
    members. *)
Definition coherent (this : route) (c : cache) : Prop :=
  (forall g, _routeGraph c = Some g -> routeGraph this = Ok g) /\
  (forall b, _isRoutable c = Some b -> isRoutable this = Ok b) /\
  (forall ids, _orderedChildIds c = Some ids ->
               exists fuel, orderedChildIds fuel this = Ok ids).

(** A getter [m] read with the fields [c] gives what the getter [o]
    without fields gives, and leaves coherent fields. *)
Definition transparent {A : Type} (this : route) (m : getter A) (o : outcome A)
    (c : cache) : Prop :=
  fst (m c) = o /\ coherent this (snd (m c)).

(** ** The ways of a line *)







(** * Properties *)

(** ** Insertion-ordered maps *)

Section JsMapFacts.
Context {V : Type}.
Implicit Types (m : list (string * V)) (k : string) (v : V).

Lemma get_set_same m k v : JsMap.get (JsMap.set m k v) k = Some v.
Proof.
  induction m as [|[k' v'] m IH]; simpl.
  - now rewrite String.eqb_refl.
  - destruct (String.eqb k' k) eqn:E; simpl; rewrite E; auto.
Qed.

Lemma get_set_other m k k' v :
  k <> k' -> JsMap.get (JsMap.set m k v) k' = JsMap.get m k'.
Proof.
  intros Hne. induction m as [|[k0 v0] m IH]; simpl.
  - destruct (String.eqb k k') eqn:E; auto.
    apply String.eqb_eq in E. contradiction.
  - destruct (String.eqb k0 k) eqn:E; simpl.
    + apply String.eqb_eq in E. subst k0.
      destruct (String.eqb k k') eqn:E'; auto.
      apply String.eqb_eq in E'. contradiction.
    + destruct (String.eqb k0 k'); auto.
Qed.

Lemma get_Some_In m k v : JsMap.get m k = Some v -> In (k, v) m.
Proof.
  induction m as [|[k' v'] m IH]; simpl; [discriminate|].
  destruct (String.eqb k' k) eqn:E.
  - intros [= ->]. apply String.eqb_eq in E. subst. now left.
  - intros H. right. auto.
Qed.

Lemma get_None_keys m k : JsMap.get m k = None <-> ~ In k (JsMap.keys m).
Proof.
  induction m as [|[k' v'] m IH]; simpl.
  - tauto.
  - destruct (String.eqb k' k) eqn:E.
    + apply String.eqb_eq in E. subst. split; [discriminate|]. intros H. elim H. now left.
    + apply String.eqb_neq in E. rewrite IH. tauto.
Qed.

Lemma get_Some_keys m k : (exists v, JsMap.get m k = Some v) <-> In k (JsMap.keys m).
Proof.
  destruct (JsMap.get m k) eqn:E.
  - split; [intros _|eauto].
    apply get_Some_In in E. apply (in_map fst) in E. exact E.
  - split; [intros [? ?]; discriminate|].
    intros H. apply get_None_keys in E. contradiction.
Qed.

Lemma In_get_NoDup m k v :
  NoDup (JsMap.keys m) -> In (k, v) m -> JsMap.get m k = Some v.
Proof.
  induction m as [|[k' v'] m IH]; simpl; [tauto|].
  intros Hnd [H|H].
  - inversion H; subst. now rewrite String.eqb_refl.
  - inversion Hnd; subst.
    destruct (String.eqb k' k) eqn:E.
    + apply String.eqb_eq in E. subst. elim H2.
      apply (in_map fst) in H. exact H.
    + auto.
Qed.

Lemma keys_set_present m k v :
  In k (JsMap.keys m) -> JsMap.keys (JsMap.set m k v) = JsMap.keys m.
Proof.
  induction m as [|[k' v'] m IH]; simpl; [tauto|].
  intros H. destruct (String.eqb k' k) eqn:E; simpl; auto.
  f_equal. apply IH. destruct H as [H|H]; auto.
  subst. rewrite String.eqb_refl in E. discriminate.
Qed.

Lemma keys_set_absent m k v :
  ~ In k (JsMap.keys m) -> JsMap.keys (JsMap.set m k v) = JsMap.keys m ++ [k].
Proof.
  induction m as [|[k' v'] m IH]; simpl; auto.
  intros H. destruct (String.eqb k' k) eqn:E; simpl.
  - apply String.eqb_eq in E. subst. elim H. now left.
  - f_equal. apply IH. tauto.
Qed.

Lemma NoDup_keys_set m k v :
  NoDup (JsMap.keys m) -> NoDup (JsMap.keys (JsMap.set m k v)).
Proof.
  intros Hnd. destruct (in_dec string_dec k (JsMap.keys m)) as [H|H].
  - now rewrite keys_set_present.
  - rewrite keys_set_absent by assumption.
    apply NoDup_app; auto.
    + repeat constructor. simpl. tauto.
    + intros x Hx [<-|[]]. contradiction.
Qed.

Lemma set_not_nil m k v : JsMap.set m k v <> [].
Proof. destruct m as [|[k' v'] m]; simpl; [|destruct (String.eqb k' k)]; discriminate. Qed.

End JsMapFacts.

(** ** Degree bins *)

Lemma nodeDegrees_fold (g : RouteGraph) (b0 b1 b2 b3 : list string) :
  fold_left
    (fun bins entry => pushBin (Nat.min (JsMap.size (snd entry)) 3) (fst entry) bins)
    g [b0; b1; b2; b3]
  = [b0 ++ nodesWithDegree 0 g; b1 ++ nodesWithDegree 1 g;
     b2 ++ nodesWithDegree 2 g; b3 ++ nodesWithDegree3Plus g].
Proof.
  revert b0 b1 b2 b3.
  induction g as [|[n adj] g IH]; intros b0 b1 b2 b3.
  - unfold nodesWithDegree, nodesWithDegree3Plus. simpl.
    now rewrite !app_nil_r.
  - cbn [fold_left fst snd].
    unfold nodesWithDegree, nodesWithDegree3Plus, JsMap.size in *.
    cbn [filter snd].
    destruct (length adj) as [|[|[|d]]] eqn:E;
      cbn [Nat.min pushBin Nat.eqb Nat.leb]; rewrite ?Nat.min_0_r; cbn [pushBin];
      rewrite IH; cbn [JsMap.keys map fst]; now rewrite <- ?app_assoc.
Qed.

Lemma nodeDegreesOf_bins (g : RouteGraph) :
  nodeDegreesOf g
  = [nodesWithDegree 0 g; nodesWithDegree 1 g;
     nodesWithDegree 2 g; nodesWithDegree3Plus g].
Proof. unfold nodeDegreesOf. now rewrite nodeDegrees_fold. Qed.

Lemma bin1_nodeDegreesOf g : bin 1 (nodeDegreesOf g) = nodesWithDegree 1 g.
Proof. now rewrite nodeDegreesOf_bins. Qed.


Lemma bin3_nodeDegreesOf g : bin 3 (nodeDegreesOf g) = nodesWithDegree3Plus g.
Proof. now rewrite nodeDegreesOf_bins. Qed.

Lemma In_nodesWithDegree3Plus g n :
  In n (nodesWithDegree3Plus g) <-> exists adj, In (n, adj) g /\ 3 <= JsMap.size adj.
Proof.
  unfold nodesWithDegree3Plus, JsMap.keys. rewrite in_map_iff. split.
  - intros [[n' adj] [Hn Hin]]. simpl in Hn. subst n'.
    apply filter_In in Hin. destruct Hin as [Hin Hd]. cbn [snd] in Hd.
    exists adj. split; auto. now apply Nat.leb_le.
  - intros [adj [Hin Hd]]. exists (n, adj). split; auto.
    apply filter_In. split; auto. cbn [snd]. now apply Nat.leb_le.
Qed.

Lemma In_nodesWithDegree g d n :
  In n (nodesWithDegree d g) <-> exists adj, In (n, adj) g /\ JsMap.size adj = d.
Proof.
  unfold nodesWithDegree, JsMap.keys. rewrite in_map_iff. split.
  - intros [[n' adj] [Hn Hin]]. simpl in Hn. subst n'.
    apply filter_In in Hin. destruct Hin as [Hin Hd]. cbn [snd] in Hd.
    exists adj. split; auto. now apply Nat.eqb_eq.
  - intros [adj [Hin Hd]]. exists (n, adj). split; auto.
    apply filter_In. split; auto. cbn [snd]. now apply Nat.eqb_eq.
Qed.

(** The verdict on the bins, in terms of the graph. *)
Lemma routableBins_graph (g : RouteGraph) :
  routableBins (nodeDegreesOf g) = true
  <-> nodesWithDegree3Plus g = [] /\ length (nodesWithDegree 1 g) <= 2.
Proof.
  unfold routableBins.
  rewrite bin1_nodeDegreesOf, bin3_nodeDegreesOf.
  rewrite andb_true_iff, orb_true_iff, Nat.eqb_eq, Nat.ltb_lt, Nat.eqb_eq.
  rewrite length_zero_iff_nil. intuition lia.
Qed.

(** ** isRoutable *)

Lemma isRoutable_eq (this : route) :
  isRoutable this
  = Ok match routeGraph this with
       | Ok g => routableBins (nodeDegreesOf g)
       | _ => false
       end
  \/ routeGraph this = OutOfFuel.
Proof.
  unfold isRoutable, nodeDegrees.
  destruct (routeGraph this); simpl; auto.
Qed.

Lemma _buildRouteGraph_terminates (this : route) (ms : list member) :
  _buildRouteGraph this ms <> OutOfFuel.
Proof.
  unfold _buildRouteGraph.
  destruct (fold_left buildStep ms ([], [])) as [g errors].
  destruct (0 <? length errors); discriminate.
Qed.

Lemma isRoutable_value (this : route) :
  isRoutable this
  = Ok match routeGraph this with
       | Ok g => routableBins (nodeDegreesOf g)
       | _ => false
       end.
Proof.
  destruct (isRoutable_eq this) as [H|H]; auto.
  exfalso. revert H. apply _buildRouteGraph_terminates.
Qed.

Lemma isRoutable_true (this : route) :
  isRoutable this = Ok true
  <-> exists g, routeGraph this = Ok g /\ routableBins (nodeDegreesOf g) = true.
Proof.
  rewrite isRoutable_value. split.
  - destruct (routeGraph this) as [g| |]; try discriminate.
    intros [= H]. eauto.
  - intros [g [-> H]]. now rewrite H.
Qed.

(** ** The graph builder *)

Lemma In_neighbours_edgeRef g a b :
  In b (neighbours g a) <-> exists ref, edgeRef g a b = Some ref.
Proof.
  unfold neighbours, edgeRef. destruct (JsMap.get g a) as [adj|].
  - symmetry. apply get_Some_keys.
  - simpl. split; [tauto|]. intros [? ?]. discriminate.
Qed.

Lemma edgeRef_addEndPair g a b ref a' b' :
  edgeRef (addEndPair g a b ref) a' b'
  = if String.eqb a a' && String.eqb b b' then Some ref else edgeRef g a' b'.
Proof.
  unfold addEndPair, edgeRef.
  destruct (String.eqb a a') eqn:Ea.
  - apply String.eqb_eq in Ea. subst a'.
    destruct (JsMap.get g a) as [adj|] eqn:Eg; rewrite get_set_same.
    + destruct (String.eqb b b') eqn:Eb; simpl.
      * apply String.eqb_eq in Eb. subst. apply get_set_same.
      * apply String.eqb_neq in Eb. now apply get_set_other.
    + simpl. destruct (String.eqb b b'); reflexivity.
  - apply String.eqb_neq in Ea. simpl.
    destruct (JsMap.get g a) as [adj|] eqn:Eg; now rewrite get_set_other.
Qed.

Lemma In_set_inv {V : Type} (m : list (string * V)) k v k' v' :
  In (k', v') (JsMap.set m k v) -> (k' = k /\ v' = v) \/ In (k', v') m.
Proof.
  induction m as [|[k0 v0] m IH]; simpl.
  - intros [[= <- <-]|[]]. auto.
  - destruct (String.eqb k0 k) eqn:E; simpl.
    + apply String.eqb_eq in E. subst k0.
      intros [[= <- <-]|H]; auto.
    + intros [H|H]; auto. destruct (IH H); auto.
Qed.

Lemma mapInvariant_addEndPair g a b ref :
  mapInvariant g -> mapInvariant (addEndPair g a b ref).
Proof.
  intros [Hnd Hadj]. unfold addEndPair.
  destruct (JsMap.get g a) as [adj|] eqn:Eg; split.
  - now apply NoDup_keys_set.
  - intros n adj' Hin. apply In_set_inv in Hin.
    destruct Hin as [[-> ->]|Hin]; [|now apply (Hadj n)].
    split; [apply set_not_nil|].
    apply NoDup_keys_set. apply get_Some_In in Eg. now apply (Hadj a adj).
  - now apply NoDup_keys_set.
  - intros n adj' Hin. apply In_set_inv in Hin.
    destruct Hin as [[-> ->]|Hin]; [|now apply (Hadj n)].
    split; [discriminate|]. repeat constructor. simpl. tauto.
Qed.

(** The graph does not depend on the errors collected so far. *)
Lemma fst_buildStep g e e' m :
  fst (buildStep (g, e) m) = fst (buildStep (g, e') m).
Proof.
  unfold buildStep. destruct (is_node (m_type m)); auto.
  destruct (m_element m) as [el|]; auto.
  destruct (el_endNodes el) as [?|[? ?]]; auto.
Qed.

Lemma fst_fold_buildStep ms g e e' :
  fst (fold_left buildStep ms (g, e)) = fst (fold_left buildStep ms (g, e')).
Proof.
  revert g e e'. induction ms as [|m ms IH]; intros g e e'; cbn [fold_left]; auto.
  pose proof (fst_buildStep g e e' m) as H.
  destruct (buildStep (g, e) m) as [g1 e1], (buildStep (g, e') m) as [g2 e2].
  simpl in H. subst g2. apply IH.
Qed.

Lemma builtFrom_cons g m ms :
  builtFrom g (m :: ms) = builtFrom (fst (buildStep (g, []) m)) ms.
Proof.
  unfold builtFrom. cbn [fold_left].
  destruct (buildStep (g, []) m) as [g1 e1]. cbn [fst].
  apply fst_fold_buildStep.
Qed.

Lemma builtFrom_app g ms1 ms2 :
  builtFrom g (ms1 ++ ms2) = builtFrom (builtFrom g ms1) ms2.
Proof.
  revert g. induction ms1 as [|m ms1 IH]; intros g.
  - reflexivity.
  - simpl. rewrite !builtFrom_cons. apply IH.
Qed.

Lemma _buildRouteGraph_Ok this ms g :
  _buildRouteGraph this ms = Ok g -> g = builtFrom [] ms.
Proof.
  unfold _buildRouteGraph, builtFrom.
  destruct (fold_left buildStep ms ([], [])) as [g' errors] eqn:E.
  destruct (0 <? length errors); [discriminate|].
  intros [= <-]. symmetry. exact (f_equal fst E).
Qed.

Lemma buildStep_segment g e m id a b :
  isSegment m id a b ->
  buildStep (g, e) m = (addEndPair (addEndPair g a b id) b a ("-" ++ id), e).
Proof.
  intros [Hn [el [He [Hid Hen]]]]. unfold buildStep.
  now rewrite Hn, He, Hen, Hid.
Qed.

(** What one member does to the graph: nothing, or the two insertions. *)
Lemma buildStep_graph g m :
  fst (buildStep (g, []) m) = g
  \/ exists id a b, isSegment m id a b /\
       fst (buildStep (g, []) m) = addEndPair (addEndPair g a b id) b a ("-" ++ id).
Proof.
  unfold buildStep, isSegment.
  destruct (is_node (m_type m)) eqn:En; auto.
  destruct (m_element m) as [el|] eqn:Ee; simpl; auto.
  destruct (el_endNodes el) as [e|[e0 e1]] eqn:Een; simpl; auto.
  right. exists (el_id el), e0, e1. eauto 10.
Qed.

(** Induction over the members for a property every double insertion keeps. *)
Lemma builtFrom_ind (P : RouteGraph -> Prop) :
  (forall g a b id, P g -> P (addEndPair (addEndPair g a b id) b a ("-" ++ id))) ->
  forall ms g, P g -> P (builtFrom g ms).
Proof.
  intros Hstep ms. induction ms as [|m ms IH]; intros g Hg.
  - exact Hg.
  - rewrite builtFrom_cons. apply IH.
    destruct (buildStep_graph g m) as [->|[id [a [b [_ ->]]]]]; auto.
Qed.

Lemma mapInvariant_builtFrom ms g :
  mapInvariant g -> mapInvariant (builtFrom g ms).
Proof.
  apply builtFrom_ind. intros. now do 2 apply mapInvariant_addEndPair.
Qed.

Lemma mapInvariant_nil : mapInvariant [].
Proof. split; [constructor|]. intros ? ? []. Qed.

Lemma symmetricGraph_builtFrom ms g :
  symmetricGraph g -> symmetricGraph (builtFrom g ms).
Proof.
  apply builtFrom_ind. clear. intros g a b id Hs x y.
  rewrite !In_neighbours_edgeRef, !edgeRef_addEndPair.
  specialize (Hs x y). rewrite !In_neighbours_edgeRef in Hs.
  destruct (String.eqb b x) eqn:E1, (String.eqb a y) eqn:E2,
           (String.eqb a x) eqn:E3, (String.eqb b y) eqn:E4; simpl; eauto.
Qed.

Lemma symmetricGraph_nil : symmetricGraph [].
Proof. intros a b []. Qed.

Lemma built_mapInvariant this ms g :
  _buildRouteGraph this ms = Ok g -> mapInvariant g.
Proof.
  intros H. apply _buildRouteGraph_Ok in H. subst.
  apply mapInvariant_builtFrom, mapInvariant_nil.
Qed.

Lemma built_symmetric this ms g :
  _buildRouteGraph this ms = Ok g -> symmetricGraph g.
Proof.
  intros H. apply _buildRouteGraph_Ok in H. subst.
  apply symmetricGraph_builtFrom, symmetricGraph_nil.
Qed.

(** ** Fuel *)

Lemma walk_done fuel g lastId currId endId acc :
  walk fuel g lastId currId None endId acc = Ok acc.
Proof. destruct fuel; reflexivity. Qed.

Lemma walk_fuel_mono fuel fuel' g lastId currId nextId endId acc r :
  walk fuel g lastId currId nextId endId acc = Ok r ->
  fuel <= fuel' ->
  walk fuel' g lastId currId nextId endId acc = Ok r.
Proof.
  revert fuel' lastId currId nextId acc.
  induction fuel as [|fuel IH]; intros fuel' lastId currId nextId acc H Hle.
  - destruct nextId; [discriminate|]. simpl in H. now rewrite walk_done.
  - destruct nextId as [nx|]; [|simpl in H; now rewrite walk_done].
    destruct fuel' as [|fuel']; [lia|].
    simpl in *. destruct (JsMap.get g currId) as [adj|]; [|discriminate].
    destruct (_getNextNode g nx currId) as [nextId'| |]; simpl in *;
      try discriminate.
    destruct (String.eqb nx endId && negb (String.eqb currId "-1")); auto.
    apply IH; auto. lia.
Qed.

Lemma orderGraph_fuel_mono fuel fuel' g r :
  orderGraph fuel g = Ok r -> fuel <= fuel' -> orderGraph fuel' g = Ok r.
Proof.
  unfold orderGraph. intros H Hle.
  destruct (JsMap.size g =? 1); auto.
  destruct (find _ g) as [[nodeId adj]|].
  - destruct (_getNextNode g nodeId "-1") as [nextId| |]; simpl in *;
      try discriminate.
    destruct (String.eqb nodeId "-1").
    + destruct (JsMap.first g) as [fm|]; [|discriminate].
      destruct (JsMap.first (snd fm)) as [am|]; [|discriminate].
      simpl in *. eapply walk_fuel_mono; eauto.
    + simpl in *. eapply walk_fuel_mono; eauto.
  - simpl in *.
    destruct (JsMap.first g) as [fm|]; [|discriminate].
    destruct (JsMap.first (snd fm)) as [am|]; [|discriminate].
    simpl in *. eapply walk_fuel_mono; eauto.
Qed.

Lemma orderedChildIds_fuel_mono fuel fuel' this r :
  orderedChildIds fuel this = Ok r -> fuel <= fuel' ->
  orderedChildIds fuel' this = Ok r.
Proof.
  unfold orderedChildIds. intros H Hle.
  destruct (isRoutable this) as [[|]| |]; simpl in *; auto.
  destruct (routeGraph this) as [g| |]; simpl in *; auto.
  eapply orderGraph_fuel_mono; eauto.
Qed.

Lemma orderedFeatureCollection_fuel_mono fuel fuel' this r :
  orderedFeatureCollection fuel this = Ok r -> fuel <= fuel' ->
  orderedFeatureCollection fuel' this = Ok r.
Proof.
  unfold orderedFeatureCollection. intros H Hle.
  destruct (isRoutable this) as [[|]| |]; simpl in *; auto.
  destruct (childrenMap this) as [cm| |]; simpl in *; auto.
  destruct (orderedChildIds fuel this) as [ids| |] eqn:E; simpl in *;
    try discriminate.
  now rewrite (orderedChildIds_fuel_mono _ _ _ _ E Hle).
Qed.

Lemma lineStringFeature_fuel_mono fuel fuel' this r :
  lineStringFeature fuel this = Ok r -> fuel <= fuel' ->
  lineStringFeature fuel' this = Ok r.
Proof.
  unfold lineStringFeature. intros H Hle.
  destruct (orderedFeatureCollection fuel this) as [fs| |] eqn:E; simpl in *;
    try discriminate.
  now rewrite (orderedFeatureCollection_fuel_mono _ _ _ _ E Hle).
Qed.

Lemma statistics_fuel_mono turfLength fuel fuel' this r :
  statistics turfLength fuel this = Ok r -> fuel <= fuel' ->
  statistics turfLength fuel' this = Ok r.
Proof.
  unfold statistics. intros H Hle.
  destruct (deepFeatureCollection this) as [features| |]; simpl in *; auto.
  destruct (fold_left (statsStep turfLength) features (initialStatistics, 0, 0))
    as [[s relevant] sac].
  destruct (isRoutable this) as [[|]| |]; simpl in *; auto.
  destruct (lineStringFeature fuel this) as [line| |] eqn:E; simpl in *;
    try discriminate.
  now rewrite (lineStringFeature_fuel_mono _ _ _ _ E Hle).
Qed.

(** ** Sequences of nodes and their steps *)

Lemma steps_cons2 a b p : steps (a :: b :: p) = (a, b) :: steps (b :: p).
Proof. reflexivity. Qed.

Lemma rsteps_cons2 c l r : rsteps (c :: l :: r) = (l, c) :: rsteps (l :: r).
Proof. reflexivity. Qed.

Lemma rsteps_In r a b : In (a, b) (rsteps r) -> In a (tl r) /\ In b r.
Proof.
  induction r as [|x r IH]; [intros []|].
  destruct r as [|y r]; [intros []|].
  rewrite rsteps_cons2. intros [[= -> ->]|H].
  - split; now left.
  - destruct (IH H) as [H1 H2]. split; [right; exact H1|right; exact H2].
Qed.

Lemma rsteps_from_head c r b : NoDup (c :: r) -> ~ In (c, b) (rsteps (c :: r)).
Proof.
  intros Hnd H. apply rsteps_In in H. destruct H as [H _]. cbn [tl] in H.
  inversion Hnd. contradiction.
Qed.

Lemma rsteps_into_head c l r a :
  NoDup (c :: l :: r) -> In (a, c) (rsteps (c :: l :: r)) -> a = l.
Proof.
  rewrite rsteps_cons2. intros Hnd [[= ->]|H]; [reflexivity|].
  apply rsteps_In in H. destruct H as [_ H]. inversion Hnd. contradiction.
Qed.

Lemma rsteps_NoDup r : NoDup r -> NoDup (rsteps r).
Proof.
  induction r as [|x r IH]; [constructor|].
  destruct r as [|y r]; [constructor|].
  rewrite rsteps_cons2. intros Hnd. inversion Hnd as [|? ? Hx Hnd']; subst.
  constructor; [|now apply IH].
  intros H. apply rsteps_In in H. destruct H as [_ H]. contradiction.
Qed.

Lemma rsteps_asym r a b :
  NoDup r -> In (a, b) (rsteps r) -> ~ In (b, a) (rsteps r).
Proof.
  induction r as [|x r IH]; [intros _ []|].
  destruct r as [|y r]; [intros _ []|].
  rewrite rsteps_cons2. intros Hnd. inversion Hnd as [|? ? Hx Hnd']; subst.
  intros [[= -> ->]|H1] [[= E1 E2]|H2].
  - subst. apply Hx. now left.
  - apply rsteps_In in H2. destruct H2 as [H2 _]. cbn [tl] in H2.
    apply Hx. now right.
  - subst. apply rsteps_In in H1. destruct H1 as [H1 _]. cbn [tl] in H1.
    apply Hx. now right.
  - now apply (IH Hnd' H1).
Qed.

Lemma steps_snoc p a b : steps (p ++ [a; b]) = steps (p ++ [a]) ++ [(a, b)].
Proof.
  induction p as [|x p IH]; [reflexivity|].
  destruct p as [|y p]; [reflexivity|].
  cbn [app] in *. rewrite !steps_cons2, IH. reflexivity.
Qed.

Lemma steps_rev r : steps (rev r) = rev (rsteps r).
Proof.
  induction r as [|c r IH]; [reflexivity|].
  destruct r as [|l r]; [reflexivity|].
  rewrite rsteps_cons2. cbn [rev] in *. rewrite <- IH, <- app_assoc.
  apply steps_snoc.
Qed.

Lemma chained_steps p : chained (steps p).
Proof.
  induction p as [|a p IH]; [constructor|].
  destruct p as [|b p]; [constructor|].
  destruct p as [|c p]; [constructor|].
  rewrite steps_cons2. rewrite steps_cons2 in IH |- *. now constructor.
Qed.

Lemma length_steps p : length (steps p) = length p - 1.
Proof.
  induction p as [|a p IH]; [reflexivity|].
  destruct p as [|b p]; [reflexivity|].
  rewrite steps_cons2. cbn [length] in *. rewrite IH. lia.
Qed.

Lemma rsteps_out_unique r a b b' :
  NoDup r -> In (a, b) (rsteps r) -> In (a, b') (rsteps r) -> b = b'.
Proof.
  induction r as [|x r IH]; [intros _ []|].
  destruct r as [|y r]; [intros _ []|].
  rewrite rsteps_cons2. intros Hnd. inversion Hnd as [|? ? Hx Hnd']; subst.
  inversion Hnd' as [|? ? Hy _]; subst.
  intros [E|H1] [E'|H2].
  - congruence.
  - injection E as <- <-.
    apply rsteps_In in H2. destruct H2 as [H2 _]. cbn [tl] in H2. contradiction.
  - injection E' as <- <-.
    apply rsteps_In in H1. destruct H1 as [H1 _]. cbn [tl] in H1. contradiction.
  - now apply IH.
Qed.

Lemma rsteps_app_incl pre r : incl (rsteps r) (rsteps (pre ++ r)).
Proof.
  induction pre as [|a pre IH]; [apply incl_refl|].
  cbn [app]. destruct (pre ++ r) as [|y q] eqn:E.
  - destruct r; [intros s []|]. destruct pre; discriminate.
  - rewrite rsteps_cons2. now apply incl_tl.
Qed.

Lemma last_is_hd_rev (p : list string) d : last p d = hd d (rev p).
Proof.
  induction p as [|a p IH]; [reflexivity|].
  destruct p as [|b p]; [reflexivity|].
  change (last (a :: b :: p) d) with (last (b :: p) d). rewrite IH.
  cbn [rev]. destruct (rev p ++ [b]) eqn:E; [|reflexivity].
  destruct (rev p); discriminate.
Qed.

Lemma steps_of_rev (p : list string) : steps p = rev (rsteps (rev p)).
Proof. now rewrite <- steps_rev, rev_involutive. Qed.

(** ** The walk on a well-formed graph *)

(** Two lemmas on the choice [_getNextNode] makes in a list of at most two
    distinct neighbours that holds the node one comes from. *)
Lemma next_in_two_None (ns : list string) (l : string) :
  NoDup ns -> length ns <= 2 -> In l ns ->
  hd_error (filter (fun k => negb (String.eqb k l)) ns) = None ->
  ns = [l].
Proof.
  intros Hnd Hlen Hin Hnone.
  destruct ns as [|x [|y [|z ns]]]; simpl in *; try lia; try tauto.
  - destruct Hin as [->|[]]. reflexivity.
  - destruct (String.eqb x l) eqn:Ex; simpl in Hnone; [|discriminate].
    destruct (String.eqb y l) eqn:Ey; simpl in Hnone; [|discriminate].
    apply String.eqb_eq in Ex, Ey. subst. inversion Hnd. simpl in *. tauto.
Qed.

Lemma next_in_two_Some (ns : list string) (l x : string) :
  NoDup ns -> length ns <= 2 -> In l ns ->
  hd_error (filter (fun k => negb (String.eqb k l)) ns) = Some x ->
  x <> l /\ In x ns /\ forall y, In y ns -> y = l \/ y = x.
Proof.
  intros Hnd Hlen Hin Hsome.
  assert (In x (filter (fun k => negb (String.eqb k l)) ns)) as Hx
    by (destruct (filter _ ns); [discriminate|injection Hsome as ->; now left]).
  apply filter_In in Hx. destruct Hx as [Hx Hne].
  apply negb_true_iff, String.eqb_neq in Hne.
  split; [exact Hne|]. split; [exact Hx|].
  intros y Hy.
  destruct (string_dec y l) as [|Hyl]; [now left|].
  destruct (string_dec y x) as [|Hyx]; [now right|]. exfalso.
  assert (NoDup [l; x; y]) as H3.
  { repeat constructor; simpl; intuition congruence. }
  assert (incl [l; x; y] ns) as Hincl
    by (intros z [<-|[<-|[<-|[]]]]; assumption).
  pose proof (NoDup_incl_length H3 Hincl) as Hl. simpl in Hl. lia.
Qed.

Lemma find_hd_filter {A : Type} (f : A -> bool) (l : list A) :
  find f l = hd_error (filter f l).
Proof.
  induction l as [|a l IH]; [reflexivity|]. simpl. now destruct (f a).
Qed.

Lemma entries_In g a b :
  NoDup (JsMap.keys g) -> In (a, b) (entries g) <-> In b (neighbours g a).
Proof.
  intros Hnd. unfold entries, neighbours. rewrite in_flat_map. split.
  - intros [[n adj] [Hin H]]. cbn [fst snd] in H.
    apply in_map_iff in H. destruct H as [k [[= <- <-] Hk]].
    now rewrite (In_get_NoDup _ _ _ Hnd Hin).
  - destruct (JsMap.get g a) as [adj|] eqn:E; [|intros []].
    intros Hb. exists (a, adj). split; [now apply get_Some_In|].
    cbn [fst snd]. apply in_map_iff. eauto.
Qed.

Lemma NoDup_map_injective {A B : Type} (f : A -> B) (l : list A) :
  (forall x y, f x = f y -> x = y) -> NoDup l -> NoDup (map f l).
Proof.
  intros Hinj. induction 1 as [|a l Ha Hnd IH]; [constructor|].
  cbn [map]. constructor; [|exact IH].
  intros H. apply in_map_iff in H. destruct H as [x [E Hx]].
  apply Hinj in E. now subst.
Qed.

Lemma entries_NoDup g : mapInvariant g -> NoDup (entries g).
Proof.
  intros [Hnd Hadj]. induction g as [|[n adj] g IH]; [constructor|].
  unfold entries in *. cbn [flat_map fst snd].
  inversion Hnd as [|? ? Hn Hnd']; subst.
  apply NoDup_app.
  - apply NoDup_map_injective.
    + intros x y [= ->]. reflexivity.
    + apply (Hadj n adj). now left.
  - apply IH; auto. intros n' adj' Hin. apply (Hadj n' adj'). now right.
  - intros [a b] H1 H2. apply in_map_iff in H1. destruct H1 as [k [[= <- <-] _]].
    apply in_flat_map in H2. destruct H2 as [[n' adj'] [Hin H2]].
    cbn [fst snd] in H2. apply in_map_iff in H2. destruct H2 as [k' [[= <- _] _]].
    apply Hn. apply (in_map fst) in Hin. exact Hin.
Qed.

Section GraphWalk.

Variable g : RouteGraph.
Hypothesis Hmap : mapInvariant g.
Hypothesis Hsym : symmetricGraph g.
Hypothesis Hloop : loopFree g.
Hypothesis Hdeg : forall n adj, In (n, adj) g -> JsMap.size adj < 3.
Hypothesis Hsent : ~ In "-1" (JsMap.keys g).

Lemma neighbours_of_key a b : In b (neighbours g a) -> In a (JsMap.keys g).
Proof.
  unfold neighbours. destruct (JsMap.get g a) as [adj|] eqn:E; [|intros []].
  intros _. apply get_Some_keys. eauto.
Qed.

Lemma neighbour_is_key a b : In b (neighbours g a) -> In b (JsMap.keys g).
Proof. intros H. apply Hsym in H. eapply neighbours_of_key; eauto. Qed.

Lemma neighbours_NoDup a : NoDup (neighbours g a).
Proof.
  unfold neighbours. destruct (JsMap.get g a) as [adj|] eqn:E; [|constructor].
  apply get_Some_In in E. now apply (proj2 Hmap) in E.
Qed.

Lemma neighbours_length a : length (neighbours g a) <= 2.
Proof.
  unfold neighbours. destruct (JsMap.get g a) as [adj|] eqn:E; [|simpl; lia].
  apply get_Some_In in E. apply Hdeg in E.
  unfold JsMap.keys, JsMap.size in *. rewrite length_map. lia.
Qed.

Lemma neighbours_nonempty a : In a (JsMap.keys g) -> neighbours g a <> [].
Proof.
  intros H. apply get_Some_keys in H. destruct H as [adj E].
  unfold neighbours. rewrite E. apply get_Some_In in E.
  apply (proj2 Hmap) in E. destruct E as [E _].
  destruct adj; [congruence|discriminate].
Qed.

Lemma key_not_sentinel a : In a (JsMap.keys g) -> String.eqb a "-1" = false.
Proof.
  intros H. apply String.eqb_neq. intros ->. contradiction.
Qed.

Lemma getNext_nextOf c l :
  In c (JsMap.keys g) -> _getNextNode g c l = Ok (nextOf g c l).
Proof.
  intros H. apply get_Some_keys in H. destruct H as [adj E].
  unfold _getNextNode, nextOf, neighbours. now rewrite E.
Qed.

Lemma nextOf_None c l :
  In l (neighbours g c) -> nextOf g c l = None -> neighbours g c = [l].
Proof.
  intros Hin. apply next_in_two_None; auto using neighbours_NoDup, neighbours_length.
Qed.

Lemma nextOf_Some c l x :
  In l (neighbours g c) -> nextOf g c l = Some x ->
  x <> l /\ In x (neighbours g c) /\
  forall y, In y (neighbours g c) -> y = l \/ y = x.
Proof.
  intros Hin. apply next_in_two_Some; auto using neighbours_NoDup, neighbours_length.
Qed.

(** Coming from outside the graph nothing is filtered away. *)
Lemma nextOf_sentinel c : nextOf g c "-1" = hd_error (neighbours g c).
Proof.
  unfold nextOf. f_equal.
  apply forallb_filter_id. apply forallb_forall. intros k Hk.
  apply negb_true_iff, key_not_sentinel. eapply neighbour_is_key; eauto.
Qed.

(** One turn of the loop, when both nodes are nodes of the graph. *)
Lemma walk_step fuel l c x endId acc :
  In x (neighbours g c) ->
  walk (S fuel) g l c (Some x) endId acc
  = if String.eqb x endId && negb (String.eqb c "-1")
    then Ok (acc ++ [edgeRef g c x])
    else walk fuel g c x (nextOf g x c) endId (acc ++ [edgeRef g c x]).
Proof.
  intros Hx. pose proof (neighbour_is_key _ _ Hx) as Hkx.
  cbn [walk]. unfold edgeRef.
  pose proof (neighbours_of_key _ _ Hx) as Hkc.
  apply get_Some_keys in Hkc. destruct Hkc as [adj E]. rewrite E.
  now rewrite (getNext_nextOf x c Hkx).
Qed.

(** *** The invariant of the walk

    The nodes visited so far are kept latest first: [c :: l :: rest] with
    [c] the current node and [l] the one before.  Every visited node but
    the current one (and, on a round trip, the start) has all its entries
    walked. *)

Lemma came_from c l rest :
  adjacentSteps g (rsteps (c :: l :: rest)) -> In l (neighbours g c).
Proof. intros Hadj. apply Hsym, Hadj. rewrite rsteps_cons2. now left. Qed.

Lemma closedAt_mono t t' a : incl t t' -> closedAt g t a -> closedAt g t' a.
Proof. intros Hincl H b Hb. destruct (H b Hb); [left|right]; auto. Qed.

Lemma adjacent_extend c r x :
  adjacentSteps g (rsteps (c :: r)) -> In x (neighbours g c) ->
  adjacentSteps g (rsteps (x :: c :: r)).
Proof.
  intros Hadj Hx a b. rewrite rsteps_cons2. intros [[= <- <-]|H]; auto.
Qed.

Lemma closed_current c l rest x :
  adjacentSteps g (rsteps (c :: l :: rest)) ->
  nextOf g c l = Some x ->
  closedAt g (rsteps (x :: c :: l :: rest)) c.
Proof.
  intros Hadj Hx b Hb.
  destruct (nextOf_Some c l x (came_from _ _ _ Hadj) Hx) as [_ [_ Hall]].
  rewrite !rsteps_cons2. destruct (Hall b Hb) as [->| ->].
  - right. right. now left.
  - left. now left.
Qed.

(** The next node has not been visited, unless it is a node whose entries
    are not all walked yet. *)
Lemma next_is_fresh (open : string -> Prop) c l rest x :
  NoDup (c :: l :: rest) ->
  adjacentSteps g (rsteps (c :: l :: rest)) ->
  (forall a, In a (l :: rest) -> ~ open a ->
             closedAt g (rsteps (c :: l :: rest)) a) ->
  nextOf g c l = Some x -> ~ open x ->
  ~ In x (c :: l :: rest).
Proof.
  intros Hnd Hadj Hclosed Hx Hopen.
  destruct (nextOf_Some c l x (came_from _ _ _ Hadj) Hx) as [Hxl [Hin _]].
  intros [<-|H].
  - now apply (Hloop c).
  - destruct (Hclosed x H Hopen c (Hsym _ _ Hin)) as [H'|H'].
    + apply rsteps_into_head in H'; auto.
    + now apply rsteps_from_head in H'.
Qed.

Lemma visited_bound r x :
  NoDup (x :: r) -> incl (x :: r) (JsMap.keys g) ->
  S (length r) <= length (JsMap.keys g).
Proof. intros Hnd Hincl. apply (NoDup_incl_length Hnd Hincl). Qed.

(** *** One-way routes *)

Lemma one_way_stop c l rest :
  adjacentSteps g (rsteps (c :: l :: rest)) ->
  nextOf g c l = None ->
  closedAt g (rsteps (c :: l :: rest)) c /\ length (neighbours g c) = 1.
Proof.
  intros Hadj Hnone.
  pose proof (nextOf_None c l (came_from _ _ _ Hadj) Hnone) as E.
  split; [|now rewrite E].
  intros b Hb. rewrite E in Hb. destruct Hb as [<-|[]].
  right. rewrite rsteps_cons2. now left.
Qed.

Lemma one_way_walk (n : nat) :
  forall c l rest,
    length (JsMap.keys g) <= n + length (c :: l :: rest) ->
    NoDup (c :: l :: rest) ->
    incl (c :: l :: rest) (JsMap.keys g) ->
    adjacentSteps g (rsteps (c :: l :: rest)) ->
    (forall a, In a (l :: rest) -> closedAt g (rsteps (c :: l :: rest)) a) ->
    exists tail,
      NoDup (rev tail ++ c :: l :: rest) /\
      adjacentSteps g (rsteps (rev tail ++ c :: l :: rest)) /\
      (forall a, In a (rev tail ++ c :: l :: rest) ->
                 closedAt g (rsteps (rev tail ++ c :: l :: rest)) a) /\
      length (neighbours g (hd "" (rev tail ++ c :: l :: rest))) = 1 /\
      forall fuel acc,
        length tail <= fuel ->
        walk fuel g l c (nextOf g c l) "-1" acc = Ok (acc ++ refsAlong g (c :: tail)).
Proof.
  induction n as [|n IH]; intros c l rest Hn Hnd Hincl Hadj Hclosed;
    destruct (nextOf g c l) as [x|] eqn:Hx.
  - (* no node is left, so there is no next one *)
    exfalso.
    assert (~ In x (c :: l :: rest)) as Hfresh
      by (apply (next_is_fresh (fun _ => False) c l rest x); auto).
    destruct (nextOf_Some c l x (came_from _ _ _ Hadj) Hx) as [_ [Hin _]].
    assert (S (length (c :: l :: rest)) <= length (JsMap.keys g)) as Hb.
    { apply (visited_bound _ x); [now constructor|].
      intros y [<-|Hy]; [eapply neighbour_is_key; eauto|auto]. }
    simpl in *. lia.
  - destruct (one_way_stop c l rest Hadj Hx) as [Hc Hone].
    exists []. cbn [rev app hd].
    split; [exact Hnd|]. split; [exact Hadj|]. split; [|split; [exact Hone|]].
    + intros a [<-|Ha]; auto.
    + intros fuel acc _. rewrite walk_done. unfold refsAlong. cbn.
      now rewrite app_nil_r.
  - assert (~ In x (c :: l :: rest)) as Hfresh
      by (apply (next_is_fresh (fun _ => False) c l rest x); auto).
    destruct (nextOf_Some c l x (came_from _ _ _ Hadj) Hx) as [_ [Hin _]].
    assert (incl (x :: c :: l :: rest) (JsMap.keys g)) as Hincl'
      by (intros y [<-|Hy]; [eapply neighbour_is_key; eauto|auto]).
    destruct (IH x c (l :: rest)) as [tail [H1 [H2 [H3 [H4 H5]]]]].
    + simpl in *. lia.
    + now constructor.
    + exact Hincl'.
    + now apply adjacent_extend.
    + intros a [<-|Ha].
      * now apply closed_current.
      * apply (closedAt_mono (rsteps (c :: l :: rest))); auto.
        intros s Hs. rewrite rsteps_cons2. now right.
    + exists (x :: tail). cbn [rev]. rewrite <- !app_assoc. cbn [app].
      split; [exact H1|]. split; [exact H2|]. split; [exact H3|].
      split; [exact H4|].
      intros fuel acc Hfuel. destruct fuel as [|fuel]; [simpl in Hfuel; lia|].
      rewrite (walk_step fuel l c x "-1" acc Hin).
      rewrite (key_not_sentinel x) by (eapply neighbour_is_key; eauto).
      cbn [andb]. rewrite H5 by (simpl in Hfuel; lia).
      unfold refsAlong. rewrite steps_cons2. cbn [map fst snd].
      now rewrite <- app_assoc.
  - destruct (one_way_stop c l rest Hadj Hx) as [Hc Hone].
    exists []. cbn [rev app hd].
    split; [exact Hnd|]. split; [exact Hadj|]. split; [|split; [exact Hone|]].
    + intros a [<-|Ha]; auto.
    + intros fuel acc _. rewrite walk_done. unfold refsAlong. cbn.
      now rewrite app_nil_r.
Qed.

(** *** Round trips *)

Lemma two_neighbours (ns : list string) (u v : string) :
  NoDup ns -> length ns <= 2 -> In u ns -> In v ns -> u <> v ->
  forall b, In b ns -> b = u \/ b = v.
Proof.
  intros Hnd Hlen Hu Hv Huv b Hb.
  destruct (string_dec b u) as [|Hbu]; [now left|].
  destruct (string_dec b v) as [|Hbv]; [now right|]. exfalso.
  assert (NoDup [u; v; b]) as H3.
  { repeat constructor; simpl; intuition congruence. }
  assert (incl [u; v; b] ns) as Hincl
    by (intros z [<-|[<-|[<-|[]]]]; assumption).
  pose proof (NoDup_incl_length H3 Hincl) as Hl. simpl in Hl. lia.
Qed.

Lemma round_trip_walk (F n1 : string) (n : nat) :
  (forall a, In a (JsMap.keys g) -> length (neighbours g a) <> 1) ->
  forall c l rest,
    length (JsMap.keys g) <= n + length (c :: l :: rest) ->
    NoDup (c :: l :: rest) ->
    incl (c :: l :: rest) (JsMap.keys g) ->
    adjacentSteps g (rsteps (c :: l :: rest)) ->
    In (F, n1) (rsteps (c :: l :: rest)) ->
    (forall a, In a (l :: rest) -> ~ F = a ->
               closedAt g (rsteps (c :: l :: rest)) a) ->
    exists tail,
      NoDup (rev tail ++ c :: l :: rest) /\
      adjacentSteps g (rsteps (F :: rev tail ++ c :: l :: rest)) /\
      (forall a, In a (rev tail ++ c :: l :: rest) ->
                 closedAt g (rsteps (F :: rev tail ++ c :: l :: rest)) a) /\
      hd "" (rev tail ++ c :: l :: rest) <> n1 /\
      forall fuel acc,
        S (length tail) <= fuel ->
        walk fuel g l c (nextOf g c l) F acc
        = Ok (acc ++ refsAlong g (c :: tail ++ [F])).
Proof.
  intros Hno1.
  assert (forall c l rest,
             NoDup (c :: l :: rest) ->
             incl (c :: l :: rest) (JsMap.keys g) ->
             adjacentSteps g (rsteps (c :: l :: rest)) ->
             In (F, n1) (rsteps (c :: l :: rest)) ->
             (forall a, In a (l :: rest) -> ~ F = a ->
                        closedAt g (rsteps (c :: l :: rest)) a) ->
             nextOf g c l = Some F ->
             NoDup (c :: l :: rest) /\
             adjacentSteps g (rsteps (F :: c :: l :: rest)) /\
             (forall a, In a (c :: l :: rest) ->
                        closedAt g (rsteps (F :: c :: l :: rest)) a) /\
             c <> n1 /\
             forall fuel acc,
               1 <= fuel ->
               walk fuel g l c (Some F) F acc = Ok (acc ++ refsAlong g [c; F]))
    as Hclose.
  { intros c l rest Hnd Hincl Hadj Hfirst Hclosed Hx.
    destruct (nextOf_Some c l F (came_from _ _ _ Hadj) Hx) as [HFl [Hin _]].
    assert (c <> n1) as Hcn.
    { intros ->. apply rsteps_into_head in Hfirst; auto. }
    split; [exact Hnd|]. split; [now apply adjacent_extend|].
    split; [|split; [exact Hcn|]].
    - intros a Ha. destruct (string_dec F a) as [<-|HFa].
      + intros b Hb.
        assert (b = n1 \/ b = c) as [->| ->].
        { apply (two_neighbours (neighbours g F)); auto using neighbours_NoDup,
            neighbours_length. }
        * left. rewrite rsteps_cons2. now right.
        * right. rewrite rsteps_cons2. now left.
      + destruct Ha as [<-|Ha]; [now apply closed_current|].
        apply (closedAt_mono (rsteps (c :: l :: rest))); auto.
        intros s Hs. rewrite rsteps_cons2. now right.
    - intros fuel acc Hfuel. destruct fuel as [|fuel]; [lia|].
      rewrite (walk_step fuel l c F F acc Hin), String.eqb_refl.
      rewrite (key_not_sentinel c) by (apply Hincl; now left).
      reflexivity. }
  induction n as [|n IH]; intros c l rest Hn Hnd Hincl Hadj Hfirst Hclosed;
    destruct (nextOf g c l) as [x|] eqn:Hx.
  - destruct (string_dec F x) as [<-|HFx].
    + destruct (Hclose c l rest Hnd Hincl Hadj Hfirst Hclosed Hx)
        as [H1 [H2 [H3 [H4 H5]]]].
      exists []. cbn [rev app hd length]. auto 10.
    + exfalso.
      assert (~ In x (c :: l :: rest)) as Hfresh
        by (apply (next_is_fresh (eq F) c l rest x); auto).
      destruct (nextOf_Some c l x (came_from _ _ _ Hadj) Hx) as [_ [Hin _]].
      assert (S (length (c :: l :: rest)) <= length (JsMap.keys g)) as Hb.
      { apply (visited_bound _ x); [now constructor|].
        intros y [<-|Hy]; [eapply neighbour_is_key; eauto|auto]. }
      simpl in *. lia.
  - exfalso. apply (Hno1 c); [apply Hincl; now left|].
    now rewrite (nextOf_None c l (came_from _ _ _ Hadj) Hx).
  - destruct (string_dec F x) as [<-|HFx].
    + destruct (Hclose c l rest Hnd Hincl Hadj Hfirst Hclosed Hx)
        as [H1 [H2 [H3 [H4 H5]]]].
      exists []. cbn [rev app hd length]. auto 10.
    + assert (~ In x (c :: l :: rest)) as Hfresh
        by (apply (next_is_fresh (eq F) c l rest x); auto).
      destruct (nextOf_Some c l x (came_from _ _ _ Hadj) Hx) as [_ [Hin _]].
      assert (incl (x :: c :: l :: rest) (JsMap.keys g)) as Hincl'
        by (intros y [<-|Hy]; [eapply neighbour_is_key; eauto|auto]).
      destruct (IH x c (l :: rest)) as [tail [H1 [H2 [H3 [H4 H5]]]]].
      * simpl in *. lia.
      * now constructor.
      * exact Hincl'.
      * now apply adjacent_extend.
      * rewrite rsteps_cons2. now right.
      * intros a [<-|Ha] HFa.
        -- now apply closed_current.
        -- apply (closedAt_mono (rsteps (c :: l :: rest))); auto.
           intros s Hs. rewrite rsteps_cons2. now right.
      * exists (x :: tail). cbn [rev]. rewrite <- !app_assoc. cbn [app].
        split; [exact H1|]. split; [exact H2|]. split; [exact H3|].
        split; [exact H4|].
        intros fuel acc Hfuel. destruct fuel as [|fuel]; [lia|].
        rewrite (walk_step fuel l c x F acc Hin).
        replace (String.eqb x F) with false
          by (symmetry; apply String.eqb_neq; congruence).
        cbn [andb]. rewrite H5 by (simpl in Hfuel; lia).
        unfold refsAlong. rewrite steps_cons2. cbn [map fst snd].
        now rewrite <- app_assoc.
  - exfalso. apply (Hno1 c); [apply Hincl; now left|].
    now rewrite (nextOf_None c l (came_from _ _ _ Hadj) Hx).
Qed.

(** *** What the walk covers *)

Lemma exhaustive_rev t : exhaustive g t -> exhaustive g (rev t).
Proof.
  intros [H1 [H2 [H3 H4]]]. split; [|split; [|split]].
  - intros a b H. apply H1. now apply in_rev.
  - now apply NoDup_rev.
  - intros a b H H'. apply (H3 a b); now apply in_rev.
  - intros a b H. apply in_rev in H. destruct (H4 a b H) as [Ha Hb].
    split; intros x Hx; [destruct (Ha x Hx)|destruct (Hb x Hx)];
      [left|right|left|right]; now apply -> in_rev.
Qed.

(** A sequence of distinct nodes whose entries are all walked. *)
Lemma path_exhaustive r :
  NoDup r -> adjacentSteps g (rsteps r) ->
  (forall a, In a r -> closedAt g (rsteps r) a) ->
  exhaustive g (rsteps r).
Proof.
  intros Hnd Hadj Hclosed. split; [exact Hadj|].
  split; [now apply rsteps_NoDup|]. split; [intros a b; now apply rsteps_asym|].
  intros a b H. apply rsteps_In in H. destruct H as [Ha Hb].
  split; apply Hclosed; auto.
  destruct r; [destruct Ha|now right].
Qed.

(** The same sequence closed by a last step back to its first node. *)
Lemma cycle_exhaustive F n1 c r :
  NoDup (c :: r) -> In (F, n1) (rsteps (c :: r)) -> c <> n1 ->
  adjacentSteps g (rsteps (F :: c :: r)) ->
  (forall a, In a (c :: r) -> closedAt g (rsteps (F :: c :: r)) a) ->
  exhaustive g (rsteps (F :: c :: r)).
Proof.
  intros Hnd Hfirst Hcn Hadj Hclosed.
  assert (In F r) as HF by (apply rsteps_In in Hfirst; tauto).
  assert (c <> F) as HcF by (inversion Hnd; congruence).
  split; [exact Hadj|]. rewrite rsteps_cons2 in *.
  split; [|split].
  - constructor; [now apply rsteps_from_head|now apply rsteps_NoDup].
  - intros a b [[= <- <-]|H] [E|H'].
    + injection E as E1 E2. congruence.
    + apply Hcn. symmetry. eapply rsteps_out_unique; eauto.
    + injection E as -> ->.
      apply Hcn. symmetry. eapply rsteps_out_unique; eauto.
    + revert H'. now apply rsteps_asym.
  - intros a b [[= <- <-]|H].
    + split; apply Hclosed; [now left|now right].
    + apply rsteps_In in H. destruct H as [Ha Hb].
      split; apply Hclosed; auto. now right.
Qed.

Lemma touched_is_closed t a b :
  exhaustive g t -> In (a, b) t \/ In (b, a) t -> closedAt g t a.
Proof.
  intros [_ [_ [_ H]]] [Hab|Hba].
  - now destruct (H a b Hab).
  - now destruct (H b a Hba).
Qed.

Lemma reachable_closed t a x :
  exhaustive g t -> closedAt g t a -> reachable g a x -> closedAt g t x.
Proof.
  intros Hex Ha Hreach. induction Hreach as [a|a b c Hb _ IH]; [exact Ha|].
  apply IH. destruct (Ha b Hb) as [H|H]; eapply touched_is_closed; eauto.
Qed.

Lemma exhaustive_covers t :
  exhaustive g t -> t <> [] -> connected g ->
  (forall a b, In b (neighbours g a) <-> In (a, b) t \/ In (b, a) t) /\
  length t = numEdges g.
Proof.
  intros Hex Hne Hconn.
  assert (forall a b, In b (neighbours g a) <-> In (a, b) t \/ In (b, a) t)
    as Hiff.
  { intros a b. split.
    - intros Hb. destruct t as [|[a0 b0] t']; [congruence|].
      assert (closedAt g ((a0, b0) :: t') a0) as H0
        by (eapply touched_is_closed; eauto; left; now left).
      assert (In a0 (JsMap.keys g)) as Hk0.
      { destruct Hex as [Hadj _]. eapply neighbours_of_key. apply Hadj. now left. }
      pose proof (neighbours_of_key _ _ Hb) as Hka.
      exact (reachable_closed _ _ _ Hex H0 (Hconn a0 a Hk0 Hka) b Hb).
    - destruct Hex as [Hadj _]. intros [H|H]; [|apply Hsym]; now apply Hadj. }
  split; [exact Hiff|].
  assert (Permutation (entries g) (t ++ map swap t)) as Hperm.
  { destruct Hex as [_ [Hnd [Hasym _]]].
    apply NoDup_Permutation.
    - now apply entries_NoDup.
    - apply NoDup_app; auto.
      + apply NoDup_map_injective; auto.
        intros [x y] [x' y'] E. unfold swap in E. cbn [fst snd] in E.
        now injection E as -> ->.
      + intros [x y] H1 H2. apply in_map_iff in H2.
        destruct H2 as [[x' y'] [E H2]]. unfold swap in E. cbn [fst snd] in E.
        injection E as -> ->. now apply (Hasym x y).
    - intros [a b]. rewrite (entries_In g a b (proj1 Hmap)), Hiff, in_app_iff.
      split; (intros [H|H]; [now left|right]).
      + apply in_map_iff. now exists (b, a).
      + apply in_map_iff in H. destruct H as [[x y] [E H]].
        unfold swap in E. cbn [fst snd] in E. now injection E as -> ->. }
  unfold numEdges. rewrite (Permutation_length Hperm), length_app, length_map.
  replace (length t + length t) with (2 * length t) by lia.
  now rewrite Nat.div2_double.
Qed.

(** *** The order of a connected, loop-free, routable graph *)

Lemma size_not_one : (JsMap.size g =? 1) = false.
Proof.
  destruct (JsMap.size g =? 1) eqn:E; [exfalso|reflexivity].
  apply Nat.eqb_eq in E. unfold JsMap.size in E.
  assert (length (JsMap.keys g) = 1) as Hk
    by (unfold JsMap.keys; now rewrite length_map).
  destruct (JsMap.keys g) as [|a [|? ?]] eqn:K; try discriminate.
  assert (In a (JsMap.keys g)) as Ha by (rewrite K; now left).
  pose proof (neighbours_nonempty a Ha) as Hne.
  destruct (neighbours g a) as [|b ns] eqn:N; [congruence|].
  assert (In b (JsMap.keys g)) as Hb
    by (apply (neighbour_is_key a); rewrite N; now left).
  rewrite K in Hb. destruct Hb as [<-|[]].
  apply (Hloop a). rewrite N. now left.
Qed.

Lemma degree_of_entry n adj :
  In (n, adj) g -> neighbours g n = JsMap.keys adj.
Proof.
  intros H. unfold neighbours.
  now rewrite (In_get_NoDup _ _ _ (proj1 Hmap) H).
Qed.

Lemma degree_one_node a :
  length (neighbours g a) = 1 -> In a (nodesWithDegree 1 g).
Proof.
  intros H. apply In_nodesWithDegree.
  unfold neighbours in H. destruct (JsMap.get g a) as [adj|] eqn:E;
    [|discriminate].
  exists adj. split; [now apply get_Some_In|].
  unfold JsMap.size, JsMap.keys in *. now rewrite length_map in H.
Qed.

Lemma one_way_order s adj rest1 :
  connected g ->
  length (nodesWithDegree 1 g) <= 2 ->
  filter (fun e => JsMap.size (snd e) =? 1) g = (s, adj) :: rest1 ->
  exists p t,
    nodesWithDegree 1 g = [s; t] /\ hd_error p = Some s /\ last p "" = t /\
    exhaustive g (steps p) /\ steps p <> [] /\
    forall fuel, length (steps p) <= fuel ->
                 walk fuel g "-1" s (nextOf g s "-1") "-1" [] = Ok (refsAlong g p).
Proof.
  intros Hconn Hle Hfilter.
  assert (In (s, adj) g /\ JsMap.size adj = 1) as [Hin Hsize].
  { assert (In (s, adj) (filter (fun e => JsMap.size (snd e) =? 1) g)) as H
      by (rewrite Hfilter; now left).
    apply filter_In in H. destruct H as [H1 H2]. split; auto.
    now apply Nat.eqb_eq in H2. }
  pose proof (degree_of_entry s adj Hin) as Hns.
  assert (exists n1, neighbours g s = [n1]) as [n1 Hn1].
  { rewrite Hns. unfold JsMap.size, JsMap.keys in *.
    destruct adj as [|[k v] [|? ?]]; try discriminate. now exists k. }
  assert (In n1 (neighbours g s)) as Hs1 by (rewrite Hn1; now left).
  assert (n1 <> s) as Hne by (intros ->; now apply (Hloop s)).
  destruct (one_way_walk (length (JsMap.keys g)) n1 s [])
    as [tail [H1 [H2 [H3 [H4 H5]]]]].
  - lia.
  - repeat constructor; simpl; intuition.
  - intros y [<-|[<-|[]]];
      [eapply neighbour_is_key|eapply neighbours_of_key]; eauto.
  - intros a b [[= <- <-]|[]]. exact Hs1.
  - intros a [<-|[]] b Hb. rewrite Hn1 in Hb. destruct Hb as [<-|[]].
    left. now left.
  - set (r := rev tail ++ [n1; s]) in *.
    assert (rev (s :: n1 :: tail) = r) as Hrev
      by (unfold r; cbn [rev]; now rewrite <- app_assoc).
    assert (steps (s :: n1 :: tail) = rev (rsteps r)) as Hsteps
      by (now rewrite steps_of_rev, Hrev).
    exists (s :: n1 :: tail), (hd "" r).
    assert (hd "" r <> s) as Hts.
    { assert (In s (tl r)) as Htl.
      { assert (In (s, n1) (rsteps r)) as Hstep
          by (apply rsteps_app_incl; now left).
        now apply rsteps_In in Hstep. }
      destruct r as [|t r']; [destruct Htl|]. cbn [hd tl] in *.
      inversion H1. congruence. }
    split; [|split; [reflexivity|split]].
    + pose proof (degree_one_node _ H4) as Ht.
      unfold nodesWithDegree in *. rewrite Hfilter in *.
      cbn [JsMap.keys map fst length] in *.
      destruct Ht as [Ht|Ht]; [congruence|].
      destruct (map fst rest1) as [|t' [|? ?]]; cbn [length] in Hle;
        try lia; [destruct Ht|].
      destruct Ht as [<-|[]]. reflexivity.
    + now rewrite last_is_hd_rev, Hrev.
    + split; [|split].
      * rewrite Hsteps. apply exhaustive_rev. now apply path_exhaustive.
      * rewrite steps_cons2. discriminate.
      * intros fuel Hfuel. rewrite length_steps in Hfuel. cbn [length] in Hfuel.
        destruct fuel as [|fuel]; [lia|].
        rewrite nextOf_sentinel, Hn1. cbn [hd_error].
        rewrite (walk_step fuel "-1" s n1 "-1" [] Hs1).
        rewrite (key_not_sentinel n1) by (eapply neighbour_is_key; eauto).
        cbn [andb]. rewrite H5 by lia.
        unfold refsAlong. rewrite (steps_cons2 s n1). reflexivity.
Qed.

Lemma round_trip_order F adjF :
  filter (fun e => JsMap.size (snd e) =? 1) g = [] ->
  JsMap.first g = Some (F, adjF) ->
  exists p n1 ref1,
    JsMap.first adjF = Some (n1, ref1) /\
    hd_error p = Some F /\ last p "" = F /\
    exhaustive g (steps p) /\ steps p <> [] /\
    forall fuel, length (steps p) <= fuel ->
                 walk fuel g "-1" F (Some n1) F [] = Ok (refsAlong g p).
Proof.
  intros Hfilter Hfirst.
  assert (In (F, adjF) g) as Hin
    by (unfold JsMap.first in Hfirst; destruct g as [|e g'];
        [discriminate|injection Hfirst as ->; now left]).
  pose proof (degree_of_entry F adjF Hin) as HnF.
  destruct (proj2 Hmap F adjF Hin) as [Hne _].
  destruct adjF as [|[n1 ref1] adjF']; [congruence|].
  assert (In n1 (neighbours g F)) as HF1 by (rewrite HnF; now left).
  assert (n1 <> F) as Hn1F by (intros ->; now apply (Hloop F)).
  assert (forall a, In a (JsMap.keys g) -> length (neighbours g a) <> 1) as Hno1.
  { intros a _ Hl. apply degree_one_node in Hl.
    unfold nodesWithDegree in Hl. rewrite Hfilter in Hl. destruct Hl. }
  destruct (round_trip_walk F n1 (length (JsMap.keys g)) Hno1 n1 F [])
    as [tail [H1 [H2 [H3 [H4 H5]]]]].
  - lia.
  - repeat constructor; simpl; intuition.
  - intros y [<-|[<-|[]]];
      [eapply neighbour_is_key|eapply neighbours_of_key]; eauto.
  - intros a b [[= <- <-]|[]]. exact HF1.
  - now left.
  - intros a [<-|[]] Ha. congruence.
  - set (r := rev tail ++ [n1; F]) in *.
    assert (rev (F :: n1 :: tail ++ [F]) = F :: r) as Hrev.
    { unfold r. cbn [rev]. rewrite rev_app_distr. cbn [rev app].
      now rewrite <- app_assoc. }
    assert (steps (F :: n1 :: tail ++ [F]) = rev (rsteps (F :: r))) as Hsteps
      by (now rewrite steps_of_rev, Hrev).
    exists (F :: n1 :: tail ++ [F]), n1, ref1.
    split; [reflexivity|]. split; [reflexivity|]. split; [|split; [|split]].
    + rewrite last_is_hd_rev, Hrev. reflexivity.
    + rewrite Hsteps. apply exhaustive_rev.
      assert (In (F, n1) (rsteps r)) as Hstep
        by (apply rsteps_app_incl; now left).
      destruct r as [|c r']; [destruct Hstep|]. cbn [hd] in H4.
      now apply (cycle_exhaustive F n1).
    + rewrite steps_cons2. discriminate.
    + intros fuel Hfuel. rewrite length_steps in Hfuel.
      cbn [length] in Hfuel. rewrite length_app in Hfuel. cbn [length] in Hfuel.
      destruct fuel as [|fuel]; [lia|].
      rewrite (walk_step fuel "-1" F n1 F [] HF1).
      replace (String.eqb n1 F) with false
        by (symmetry; now apply String.eqb_neq).
      cbn [andb]. rewrite H5 by lia.
      unfold refsAlong. rewrite (steps_cons2 F n1). reflexivity.
Qed.

(** On a connected graph without closed way, with at most two nodes of
    degree 1 and none of degree 3 or more, [orderGraph] returns the
    references along a walk that takes every edge once. *)
Lemma orderGraph_walks :
  g <> [] -> connected g -> length (nodesWithDegree 1 g) <= 2 ->
  exists p,
    (forall fuel, numEdges g <= fuel -> orderGraph fuel g = Ok (refsAlong g p)) /\
    exhaustive g (steps p) /\ steps p <> [] /\
    ((nodesWithDegree 1 g = [] /\ hd_error p = Some (last p "")) \/
     (exists s t, nodesWithDegree 1 g = [s; t] /\
                  hd_error p = Some s /\ last p "" = t)).
Proof.
  intros Hne Hconn Hle. unfold orderGraph. rewrite size_not_one.
  rewrite find_hd_filter.
  destruct (filter (fun e => JsMap.size (snd e) =? 1) g) as [|[s adj] rest1]
    eqn:Hfilter; cbn [hd_error].
  - destruct (JsMap.first g) as [[F adjF]|] eqn:Hfirst;
      [|destruct g; [congruence|discriminate]].
    destruct (round_trip_order F adjF Hfilter Hfirst)
      as [p [n1 [ref1 [Hadj [Hhd [Hlast [Hex [Hsteps Hwalk]]]]]]]].
    exists p. split; [|split; [exact Hex|split; [exact Hsteps|]]].
    + intros fuel Hfuel. cbn [bind fst snd]. rewrite String.eqb_refl.
      cbn [fst snd]. rewrite Hadj. cbn [bind fst snd]. apply Hwalk.
      destruct (exhaustive_covers _ Hex Hsteps Hconn) as [_ ->]. exact Hfuel.
    + left. split; [|now rewrite Hlast].
      unfold nodesWithDegree. now rewrite Hfilter.
  - destruct (one_way_order s adj rest1 Hconn Hle Hfilter)
      as [p [t [Hbin [Hhd [Hlast [Hex [Hsteps Hwalk]]]]]]].
    exists p. split; [|split; [exact Hex|split; [exact Hsteps|]]].
    + intros fuel Hfuel.
      assert (In s (JsMap.keys g)) as Hks.
      { assert (In (s, adj) (filter (fun e => JsMap.size (snd e) =? 1) g)) as H
          by (rewrite Hfilter; now left).
        apply filter_In in H. destruct H as [H _].
        apply (in_map fst) in H. exact H. }
      rewrite (getNext_nextOf s "-1" Hks). cbn [bind fst snd].
      rewrite (key_not_sentinel s Hks). cbn [bind fst snd]. apply Hwalk.
      destruct (exhaustive_covers _ Hex Hsteps Hconn) as [_ ->]. exact Hfuel.
    + right. exists s, t. auto.
Qed.

End GraphWalk.

(** ** Segments and the entries they leave *)

Lemma edgeRef_builtFrom_keeps ms g a b :
  (exists ref, edgeRef g a b = Some ref) ->
  exists ref, edgeRef (builtFrom g ms) a b = Some ref.
Proof.
  revert g.
  apply (builtFrom_ind (fun g => exists ref, edgeRef g a b = Some ref)).
  intros g x y id [ref H].
  rewrite !edgeRef_addEndPair.
  destruct (String.eqb y a && String.eqb x b); eauto.
  destruct (String.eqb x a && String.eqb y b); eauto.
Qed.

Lemma segment_present ms g m id a b :
  In m ms -> isSegment m id a b ->
  (exists ref, edgeRef (builtFrom g ms) a b = Some ref) /\
  (exists ref, edgeRef (builtFrom g ms) b a = Some ref).
Proof.
  intros Hin Hseg. apply in_split in Hin. destruct Hin as [ms1 [ms2 ->]].
  rewrite builtFrom_app, builtFrom_cons.
  rewrite (buildStep_segment _ _ _ _ _ _ Hseg). cbn [fst].
  split; apply edgeRef_builtFrom_keeps; rewrite !edgeRef_addEndPair.
  - destruct (String.eqb b a && String.eqb a b); eauto.
    rewrite !String.eqb_refl. simpl. eauto.
  - rewrite !String.eqb_refl. simpl. eauto.
Qed.

(** ** Claims *)

(** The verdict on the bins in terms of the entries of the graph. *)
Lemma routable_degree_bounds (g : RouteGraph) :
  routableBins (nodeDegreesOf g) = true
  <-> (forall n adj, In (n, adj) g -> JsMap.size adj < 3) /\
      length (nodesWithDegree 1 g) <= 2.
Proof.
  rewrite routableBins_graph. split; intros [H3 H1]; split; auto.
  - intros n adj Hin.
    destruct (le_lt_dec 3 (JsMap.size adj)) as [Hd|Hd]; auto.
    assert (In n (nodesWithDegree3Plus g)) as Hn
      by (apply In_nodesWithDegree3Plus; eauto).
    rewrite H3 in Hn. destruct Hn.
  - destruct (nodesWithDegree3Plus g) as [|n l] eqn:E; auto.
    assert (In n (nodesWithDegree3Plus g)) as Hn by (rewrite E; now left).
    apply In_nodesWithDegree3Plus in Hn. destruct Hn as [adj [Hin Hd]].
    apply H3 in Hin. lia.
Qed.

Lemma routable_bounds (this : route) (g : RouteGraph) :
  routeGraph this = Ok g -> isRoutable this = Ok true ->
  (forall n adj, In (n, adj) g -> JsMap.size adj < 3) /\
  length (nodesWithDegree 1 g) <= 2.
Proof.
  intros Hg Hr. apply isRoutable_true in Hr. destruct Hr as [g0 [Hg0 H]].
  rewrite Hg in Hg0. injection Hg0 as <-. now apply routable_degree_bounds.
Qed.

(** C1 (amended).  [isRoutable] is true exactly when the graph was built,
    no node has degree 3 or more and at most two nodes have degree 1: the
    round-trip test is [nodeDegrees[1].length < 2], so a graph with exactly
    one node of degree 1 is routable too. *)
Theorem isRoutable_iff_degrees (this : route) :
  isRoutable this = Ok true
  <-> exists g, routeGraph this = Ok g /\
        (forall n adj, In (n, adj) g -> JsMap.size adj < 3) /\
        length (nodesWithDegree 1 g) <= 2.
Proof.
  rewrite isRoutable_true.
  split; intros [g [Hg H]]; exists g; (split; [exact Hg|]);
    now apply routable_degree_bounds.
Qed.

(** C1, counterexample.  The graph of one closed way has exactly one node
    of degree 1; the specification's predicate rejects it and [isRoutable]
    accepts it. *)
Lemma isRoutable_one_dead_end :
  routeGraph selfLoopRoute = Ok [("A", [("A", "-1")])] /\
  length (nodesWithDegree 1 [("A", [("A", "-1")])]) = 1 /\
  spec_isRoutable [("A", [("A", "-1")])] = false /\
  isRoutable selfLoopRoute = Ok true.
Proof. repeat split. Qed.

(** [isRoutable] never raises and always gives a verdict: a failure raised
    while the graph is built is caught and gives [false]; when the graph is
    built the verdict is the one of the degree bins. *)
Lemma isRoutable_never_raises (this : route) :
  (exists b, isRoutable this = Ok b) /\
  (forall e, routeGraph this = Throw e -> isRoutable this = Ok false) /\
  (forall g, routeGraph this = Ok g ->
             isRoutable this = Ok (routableBins (nodeDegreesOf g))).
Proof.
  rewrite isRoutable_value. repeat split.
  - eauto.
  - now intros e ->.
  - now intros g ->.
Qed.

(** A route without members has the empty graph; nothing is raised while
    it is built and the verdict is [true]. *)
Example isRoutable_empty_graph :
  routeGraph emptyRoute = Ok [] /\ isRoutable emptyRoute = Ok true.
Proof. split; reflexivity. Qed.

(** A failure of the build is turned into [false]. *)
Example isRoutable_brokenRoute :
  routeGraph brokenRoute = Throw (SuperRouteTopologyError "r" [TypeError]) /\
  isRoutable brokenRoute = Ok false.
Proof. split; reflexivity. Qed.


Lemma endNodes_not_routable this g :
  routeGraph this = Ok g -> isRoutable this = Ok false ->
  endNodes this
  = Throw (RouteTopologyError (r_id this)
             ((if 0 <? length (nodesWithDegree3Plus g)
               then nodesWithDegree3Plus g else []) ++
              (if 2 <? length (nodesWithDegree 1 g)
               then nodesWithDegree 1 g else []))
             ((if 0 <? length (nodesWithDegree3Plus g)
               then [(length (nodesWithDegree3Plus g), "node > 2deg")] else []) ++
              (if 2 <? length (nodesWithDegree 1 g)
               then [(length (nodesWithDegree 1 g), "dead end")] else []))).
Proof.
  intros Hg Hr.
  unfold endNodes, throwRouteTopologyError, newRouteTopologyError, nodeDegrees.
  rewrite Hr, Hg. simpl.
  now rewrite bin1_nodeDegreesOf, bin3_nodeDegreesOf.
Qed.


(** The example of the specification: B has edges to A, C and D, the route
    is not routable and the error lists B. *)
Example endNodes_junctionRoute :
  isRoutable junctionRoute = Ok false /\
  endNodes junctionRoute
  = Throw (RouteTopologyError "r" ["B"; "A"; "C"; "D"]
             [(1, "node > 2deg"); (3, "dead end")]).
Proof. split; reflexivity. Qed.

Example endNodes_pathRoute : endNodes pathRoute = Ok (Some "A", Some "C").
Proof. reflexivity. Qed.

(** One closed way: a single node of degree 1, a routable route that is
    neither of the two shapes above; the second end node is [undefined]. *)
Example endNodes_selfLoopRoute : endNodes selfLoopRoute = Ok (Some "A", None).
Proof. reflexivity. Qed.

Lemma edgeRef_builtFrom_untouched ms g a b :
  (forall m, In m ms -> ~ joins m a b) ->
  edgeRef (builtFrom g ms) a b = edgeRef g a b.
Proof.
  revert g. induction ms as [|m ms IH]; intros g Hno; [reflexivity|].
  rewrite builtFrom_cons, IH by (intros m' Hm'; apply Hno; now right).
  destruct (buildStep_graph g m) as [->|[id [x [y [Hseg ->]]]]]; [reflexivity|].
  rewrite !edgeRef_addEndPair.
  destruct (String.eqb y a && String.eqb x b) eqn:E1.
  - apply andb_true_iff in E1. destruct E1 as [E1 E2].
    apply String.eqb_eq in E1, E2. subst.
    elim (Hno m (or_introl eq_refl)). exists id. now right.
  - destruct (String.eqb x a && String.eqb y b) eqn:E2; [|reflexivity].
    apply andb_true_iff in E2. destruct E2 as [E2 E3].
    apply String.eqb_eq in E2, E3. subst.
    elim (Hno m (or_introl eq_refl)). exists id. now left.
Qed.

(** C5 (amended).  In a graph that was built, neighbourhood is symmetric
    and every segment with end nodes (a, b) has left an entry a -> b and an
    entry b -> a.  The entries carry the forward reference [id] and the
    reverse-marked reference ["-" ++ id] of the last segment that joins a
    and b: a later segment on the same pair of nodes overwrites them. *)
Theorem built_graph_entries (this : route) (ms : list member) (g : RouteGraph) :
  _buildRouteGraph this ms = Ok g ->
  (forall a b, In b (neighbours g a) <-> In a (neighbours g b)) /\
  (forall m id a b,
      In m ms -> isSegment m id a b ->
      In b (neighbours g a) /\ In a (neighbours g b)) /\
  (forall ms1 m ms2 id a b,
      ms = ms1 ++ m :: ms2 -> isSegment m id a b -> a <> b ->
      (forall m', In m' ms2 -> ~ joins m' a b) ->
      edgeRef g a b = Some id /\ edgeRef g b a = Some ("-" ++ id)%string).
Proof.
  intros Hg. pose proof (built_symmetric _ _ _ Hg) as Hsym.
  apply _buildRouteGraph_Ok in Hg. subst g. split; [|split].
  - intros a b. split; apply Hsym.
  - intros m id a b Hin Hseg. rewrite !In_neighbours_edgeRef.
    eapply segment_present; eauto.
  - intros ms1 m ms2 id a b -> Hseg Hab Hlater.
    rewrite builtFrom_app, builtFrom_cons.
    rewrite (buildStep_segment _ _ _ _ _ _ Hseg). cbn [fst].
    rewrite !edgeRef_builtFrom_untouched, !edgeRef_addEndPair.
    + rewrite !String.eqb_refl.
      apply String.eqb_neq in Hab. rewrite Hab, (String.eqb_sym b a), Hab.
      simpl. auto.
    + intros m' Hm' [id' [H|H]]; apply (Hlater m' Hm'); exists id'; auto.
    + exact Hlater.
Qed.

Lemma built_graph_entries_witness :
  edgeRef [("A", [("B", "1")]); ("B", [("A", "-1"); ("C", "2")]);
           ("C", [("B", "-2")])] "B" "C" = Some "2".
Proof.
  pose proof (built_graph_entries pathRoute (r_members pathRoute) _ eq_refl)
    as [_ [_ H]].
  refine (proj1 (H [wayMember "" "1" "A" "B" noFeature]
                   (wayMember "" "2" "B" "C" noFeature) [] "2" "B" "C"
                   eq_refl _ _ _)).
  - split; [reflexivity|]. eexists. repeat split.
  - discriminate.
  - intros m' [].
Defined.

(** C5, counterexample.  Two ways join A and B: the first one is a segment
    of the build, yet the entry A -> B carries the reference of the second
    one.  And on a closed way the entry A -> A carries the reverse-marked
    reference, the forward one having been overwritten at once. *)
Lemma parallel_ways_overwrite :
  (_buildRouteGraph parallelRoute (r_members parallelRoute)
   = Ok [("A", [("B", "2")]); ("B", [("A", "-2")])] /\
   isSegment (wayMember "" "1" "A" "B" noFeature) "1" "A" "B" /\
   edgeRef [("A", [("B", "2")]); ("B", [("A", "-2")])] "A" "B" <> Some "1") /\
  (_buildRouteGraph selfLoopRoute (r_members selfLoopRoute)
   = Ok [("A", [("A", "-1")])] /\
   isSegment (wayMember "" "1" "A" "A" noFeature) "1" "A" "A" /\
   edgeRef [("A", [("A", "-1")])] "A" "A" <> Some "1").
Proof.
  split; (split; [reflexivity|]); split;
    try (split; [reflexivity|]; eexists; repeat split); discriminate.
Qed.

(** C6 (amended).  The route graph is built from the way members that
    carry an element and whose role is not [alternative]: taking away a
    member with the role [alternative], a member that is not a way or a
    member without element leaves the graph as it is, and every other way
    that is a segment has its two entries in the graph, whatever its role. *)
Theorem routeGraph_members :
  (forall id props ms1 m ms2,
      m_role m = "alternative" \/ is_way (m_type m) = false \/ m_element m = None ->
      routeGraph (mkRoute id props (ms1 ++ m :: ms2))
      = routeGraph (mkRoute id props (ms1 ++ ms2))) /\
  (forall this g m id a b,
      routeGraph this = Ok g ->
      In m (r_members this) -> is_way (m_type m) = true ->
      m_role m <> "alternative" -> isSegment m id a b ->
      In b (neighbours g a) /\ In a (neighbours g b)).
Proof.
  split.
  - intros id props ms1 m ms2 H. unfold routeGraph, children. cbn [r_members].
    rewrite !filter_app. cbn [filter].
    replace (_buildRouteGraph (mkRoute id props (ms1 ++ m :: ms2)))
      with (_buildRouteGraph (mkRoute id props (ms1 ++ ms2))) by reflexivity.
    destruct (is_way (m_type m) && is_some (m_element m)) eqn:E; [|reflexivity].
    apply andb_true_iff in E. destruct E as [E1 E2].
    destruct H as [H|[H|H]].
    + cbn [filter]. unfold not_alternative at 2. rewrite H. reflexivity.
    + congruence.
    + rewrite H in E2. discriminate.
  - intros this g m id a b Hg Hin Hway Hrole Hseg.
    unfold routeGraph in Hg. apply _buildRouteGraph_Ok in Hg. subst g.
    rewrite !In_neighbours_edgeRef.
    apply (segment_present _ _ m id); auto.
    apply filter_In. split.
    + unfold children. apply filter_In. split; auto.
      rewrite Hway. destruct Hseg as [_ [el [-> _]]]. reflexivity.
    + unfold not_alternative.
      destruct (String.eqb (m_role m) "alternative") eqn:E; auto.
      apply String.eqb_eq in E. contradiction.
Qed.

(** C6, counterexample.  A way whose role is [forward] is not a [main]
    segment, and its edge is in the route graph. *)
Lemma forward_role_contributes :
  m_role (wayMember "forward" "1" "A" "B" noFeature) <> "main" /\
  routeGraph forwardRoleRoute = Ok [("A", [("B", "1")]); ("B", [("A", "-1")])].
Proof. split; [discriminate|reflexivity]. Qed.

Example routeGraph_alternativeRoute :
  routeGraph alternativeRoute = Ok [("A", [("B", "1")]); ("B", [("A", "-1")])].
Proof. reflexivity. Qed.

(** C10.  A route whose only main child is a segment with both ends on the
    node a: the graph has the single entry a -> a, the reverse insertion
    has overwritten the forward one, the route is routable and
    [orderedChildIds] is the one reverse-marked reference. *)
Theorem self_loop_route (this : route) (m : member) (id a : string) :
  filter not_alternative (children this) = [m] ->
  isSegment m id a a ->
  routeGraph this = Ok [(a, [(a, ("-" ++ id)%string)])] /\
  isRoutable this = Ok true /\
  forall fuel, orderedChildIds fuel this = Ok [Some ("-" ++ id)%string].
Proof.
  intros Hms Hseg.
  assert (routeGraph this = Ok [(a, [(a, ("-" ++ id)%string)])]) as Hg.
  { unfold routeGraph, _buildRouteGraph. rewrite Hms. cbn [fold_left].
    rewrite (buildStep_segment _ _ _ _ _ _ Hseg).
    unfold addEndPair. cbn [JsMap.get JsMap.set].
    rewrite !String.eqb_refl. cbn [JsMap.set]. rewrite !String.eqb_refl.
    reflexivity. }
  assert (isRoutable this = Ok true) as Hr
    by (rewrite isRoutable_value, Hg; reflexivity).
  split; [exact Hg|]. split; [exact Hr|].
  intros fuel. unfold orderedChildIds. rewrite Hr, Hg. reflexivity.
Qed.

Lemma self_loop_route_witness :
  routeGraph selfLoopRoute = Ok [("A", [("A", "-1")])] /\
  isRoutable selfLoopRoute = Ok true /\
  forall fuel, orderedChildIds fuel selfLoopRoute = Ok [Some "-1"].
Proof.
  apply (self_loop_route selfLoopRoute (wayMember "" "1" "A" "A" noFeature) "1" "A").
  - reflexivity.
  - split; [reflexivity|]. eexists. repeat split.
Defined.

(** ** The assembled line string *)



(** A way drawn against the direction of travel is reversed before it is
    joined. *)
Example lineStringFeature_reversedSegmentRoute :
  orderedChildIds 2 reversedSegmentRoute = Ok [Some "1"; Some "-2"] /\
  lineStringFeature 2 reversedSegmentRoute
  = Ok {| properties := []; coordinates := [[0; 0]; [1; 1]; [2; 2]]%Q |}.
Proof. split; reflexivity. Qed.

(** ** Statistics *)

(** What [statistics] returns, when it returns, in terms of the loop over
    the segments. *)
Lemma statistics_Ok turfLength fuel this features s :
  deepFeatureCollection this = Ok features ->
  statistics turfLength fuel this = Ok s ->
  let '(acc, numSacScaleRelevant, numSacScale) :=
    fold_left (statsStep turfLength) features (initialStatistics, 0, 0) in
  RouteStatistics.numSegments s = RouteStatistics.numSegments acc /\
  RouteStatistics.surfacePct s
  = num_mul (round (RouteStatistics.surfacePct acc)) (Fin 100) /\
  RouteStatistics.surfaceWays s = RouteStatistics.surfaceWays acc /\
  (exists a d, RouteStatistics.ascent s = Some (round a) /\
               RouteStatistics.descent s = Some (round d)) /\
  (isRoutable this = Ok false ->
   RouteStatistics.ascent s = Some NaN /\ RouteStatistics.descent s = Some NaN).
Proof.
  intros Hf. unfold statistics. rewrite Hf. cbn [bind].
  destruct (fold_left (statsStep turfLength) features (initialStatistics, 0, 0))
    as [[acc relevant] sac].
  destruct (isRoutable this) as [[|]| |]; cbn [bind]; try discriminate.
  - destruct (lineStringFeature fuel this) as [line| |]; cbn [bind];
      try discriminate.
    destruct (coordinates line) as [|coord0 rest]; [discriminate|].
    destruct (length coord0 =? 3); cbn [bind]; intros [= <-];
      cbn [RouteStatistics.numSegments RouteStatistics.surfacePct
           RouteStatistics.surfaceWays RouteStatistics.ascent
           RouteStatistics.descent fst snd];
      (split; [reflexivity|]); (split; [reflexivity|]); (split; [reflexivity|]);
      (split; [eauto|discriminate]).
  - intros [= <-];
      cbn [RouteStatistics.numSegments RouteStatistics.surfacePct
           RouteStatistics.surfaceWays RouteStatistics.ascent
           RouteStatistics.descent fst snd].
    repeat (split; [reflexivity|]). split; [eauto|].
    intros _. split; reflexivity.
Qed.

(** C7 (amended).  Two segments, one with a [surface] tag and one without.
    Whatever the order, [surfaceWays] is exactly the identifier of the
    untagged segment.  With the running update [+= 1 / numSegments], taken
    when the tagged segment is processed, [surfacePct] is 50 when the
    untagged segment comes first. *)
Theorem surface_statistics (turfLength : feature -> Q) (fuel : nat)
    (this : route) (tagged untagged : feature) (s : RouteStatistics.t) :
  JsMap.has (properties tagged) "surface" = true ->
  JsMap.has (properties untagged) "surface" = false ->
  statistics turfLength fuel this = Ok s ->
  (deepFeatureCollection this = Ok [untagged; tagged] ->
   RouteStatistics.surfacePct s = Fin 50 /\
   RouteStatistics.surfaceWays s = [JsMap.get (properties untagged) "@id"]) /\
  (deepFeatureCollection this = Ok [tagged; untagged] ->
   RouteStatistics.surfaceWays s = [JsMap.get (properties untagged) "@id"]).
Proof.
  intros Ht Hu Hs. split; intros Hf;
    pose proof (statistics_Ok _ _ _ _ _ Hf Hs) as H;
    cbn [fold_left] in H; unfold statsStep at 1 2 in H;
    cbn [initialStatistics RouteStatistics.numSegments RouteStatistics.surfacePct
         RouteStatistics.surfaceWays fst snd] in H;
    rewrite Ht, Hu in H; cbn [app] in H.
  - destruct H as [_ [Hp [Hw _]]]. split; [rewrite Hp; reflexivity|exact Hw].
  - destruct H as [_ [_ [Hw _]]]. exact Hw.
Qed.

Lemma surface_statistics_witness :
  exists s, statistics unitLength 2 untaggedFirstRoute = Ok s /\
            RouteStatistics.surfacePct s = Fin 50 /\
            RouteStatistics.surfaceWays s = [Some "way/1"].
Proof.
  eexists. split; [reflexivity|].
  apply (surface_statistics unitLength 2 untaggedFirstRoute
           (mkFeature [("@id", "way/2"); ("surface", "gravel")] [[1; 1]; [2; 2]]%Q)
           (mkFeature [("@id", "way/1")] [[0; 0]; [1; 1]]%Q));
    reflexivity.
Defined.

(** C7, counterexample.  With the tagged segment first the update adds
    1/1, the second segment adds nothing, and [surfacePct] is 100. *)
Lemma surface_statistics_tagged_first :
  deepFeatureCollection taggedFirstRoute
  = Ok [mkFeature [("@id", "way/1"); ("surface", "gravel")] [[0; 0]; [1; 1]]%Q;
        mkFeature [("@id", "way/2")] [[1; 1]; [2; 2]]%Q] /\
  exists s, statistics unitLength 2 taggedFirstRoute = Ok s /\
            RouteStatistics.surfacePct s = Fin 100 /\
            RouteStatistics.surfaceWays s = [Some "way/2"].
Proof. split; [reflexivity|]. eexists. repeat split. Qed.

(** C8.  The record [statistics] returns always has the properties
    [ascent] and [descent]: the final rounding assigns them whether or not
    they were computed, and on a route that is not routable both hold
    [NaN]. *)
Theorem statistics_elevation_present (turfLength : feature -> Q) (fuel : nat)
    (this : route) (s : RouteStatistics.t) :
  statistics turfLength fuel this = Ok s ->
  (exists a d, RouteStatistics.ascent s = Some a /\
               RouteStatistics.descent s = Some d) /\
  (isRoutable this = Ok false ->
   RouteStatistics.ascent s = Some NaN /\ RouteStatistics.descent s = Some NaN).
Proof.
  intros Hs.
  destruct (deepFeatureCollection this) as [features| |] eqn:Hf;
    try (unfold statistics in Hs; rewrite Hf in Hs; discriminate).
  pose proof (statistics_Ok _ _ _ _ _ Hf Hs) as H.
  destruct (fold_left (statsStep turfLength) features (initialStatistics, 0, 0))
    as [[acc relevant] sac].
  destruct H as [_ [_ [_ [[a [d [Ha Hd]]] Hn]]]]. split; eauto.
Qed.

Lemma statistics_elevation_present_witness :
  exists s, statistics unitLength 0 junctionRoute = Ok s /\
            RouteStatistics.ascent s = Some NaN /\
            RouteStatistics.descent s = Some NaN.
Proof.
  eexists. split; [reflexivity|].
  apply (statistics_elevation_present unitLength 0 junctionRoute);
    reflexivity.
Defined.

(** A routable route with two-dimensional geometries: the properties are
    there and hold [NaN]. *)
Example statistics_twoSegmentRoute :
  isRoutable twoSegmentRoute = Ok true /\
  exists s, statistics unitLength 2 twoSegmentRoute = Ok s /\
            RouteStatistics.ascent s = Some NaN /\
            RouteStatistics.descent s = Some NaN.
Proof. split; [reflexivity|]. eexists. repeat split. Qed.

(** Elevations 10, 15, 15, 12: a gain of 5, a loss of 3. *)
Example statistics_hillRoute :
  exists s, statistics unitLength 2 hillRoute = Ok s /\
            RouteStatistics.ascent s = Some (Fin 5) /\
            RouteStatistics.descent s = Some (Fin 3).
Proof. eexists. repeat split. Qed.

(** ** The ordering walk *)

(** The walk on one component.  The route graph is built and routable; it
    is not empty, it is connected, no way is closed on itself and no node
    carries the name ["-1"] the walk starts its variables with.  Then
    [orderedChildIds] returns, within one turn of the loop per edge, the
    references read along a sequence of nodes that takes every edge of the
    graph exactly once; a one-way walk goes from the first node of degree 1
    to the second, a round trip closes on the node it started from. *)
Lemma orderedChildIds_walk (this : route) (g : RouteGraph) :
  routeGraph this = Ok g ->
  isRoutable this = Ok true ->
  g <> [] -> loopFree g -> ~ In "-1" (JsMap.keys g) -> connected g ->
  exists p : list string,
    (forall fuel, numEdges g <= fuel ->
                  orderedChildIds fuel this = Ok (refsAlong g p)) /\
    (forall a b, In (a, b) (steps p) -> exists ref, edgeRef g a b = Some ref) /\
    length (refsAlong g p) = numEdges g /\
    chained (steps p) /\
    (forall a b, In b (neighbours g a)
                 <-> In (a, b) (steps p) \/ In (b, a) (steps p)) /\
    NoDup (steps p) /\
    (forall a b, In (a, b) (steps p) -> ~ In (b, a) (steps p)) /\
    ((nodesWithDegree 1 g = [] /\ hd_error p = Some (last p "")) \/
     (exists s t, nodesWithDegree 1 g = [s; t] /\
                  hd_error p = Some s /\ last p "" = t)).
Proof.
  intros Hg Hr Hne Hloop Hsent Hconn.
  pose proof (built_mapInvariant _ _ _ Hg) as Hmap.
  pose proof (built_symmetric _ _ _ Hg) as Hsym.
  destruct (routable_bounds _ _ Hg Hr) as [Hdeg Hle].
  destruct (orderGraph_walks g Hmap Hsym Hloop Hdeg Hsent Hne Hconn Hle)
    as [p [Hwalk [Hex [Hsteps Hends]]]].
  destruct (exhaustive_covers g Hmap Hsym _ Hex Hsteps Hconn) as [Hiff Hlen].
  destruct Hex as [Hadj [Hnd [Hasym _]]].
  exists p. split; [|split; [|split; [|split; [|split; [|split; [|split]]]]]]; auto.
  - intros fuel Hfuel. unfold orderedChildIds. rewrite Hr, Hg. cbn [bind negb].
    now apply Hwalk.
  - intros a b H. apply In_neighbours_edgeRef. now apply Hadj.
  - unfold refsAlong. now rewrite length_map.
  - apply chained_steps.
Qed.

Lemma pathRoute_loopFree :
  loopFree [("A", [("B", "1")]); ("B", [("A", "-1"); ("C", "2")]);
            ("C", [("B", "-2")])].
Proof.
  intros a H. unfold neighbours in H.
  destruct (JsMap.get _ a) as [adj|] eqn:E; [|destruct H].
  apply get_Some_In in E.
  destruct E as [E|[E|[E|[]]]]; injection E as <- <-; simpl in H;
    intuition discriminate.
Qed.

Lemma pathRoute_connected :
  connected [("A", [("B", "1")]); ("B", [("A", "-1"); ("C", "2")]);
             ("C", [("B", "-2")])].
Proof.
  assert (forall x y g, In y (neighbours g x) -> reachable g x y) as Hone
    by (intros x y g H; eapply reachable_step; [exact H|apply reachable_refl]).
  intros a b Ha Hb. simpl in Ha, Hb.
  destruct Ha as [<-|[<-|[<-|[]]]]; destruct Hb as [<-|[<-|[<-|[]]]];
    try apply reachable_refl;
    try (apply Hone; simpl; tauto).
  - apply (reachable_step _ "A" "B" "C"); [simpl; tauto|].
    apply Hone. simpl. tauto.
  - apply (reachable_step _ "C" "B" "A"); [simpl; tauto|].
    apply Hone. simpl. tauto.
Qed.

Lemma orderedChildIds_walk_witness :
  exists p : list string,
    (forall fuel, 2 <= fuel ->
                  orderedChildIds fuel pathRoute
                  = Ok (refsAlong [("A", [("B", "1")]);
                                   ("B", [("A", "-1"); ("C", "2")]);
                                   ("C", [("B", "-2")])] p)) /\
    hd_error p = Some "A" /\ last p "" = "C".
Proof.
  destruct (orderedChildIds_walk pathRoute
              [("A", [("B", "1")]); ("B", [("A", "-1"); ("C", "2")]);
               ("C", [("B", "-2")])])
    as [p [Hwalk [_ [_ [_ [_ [_ [_ Hends]]]]]]]].
  - reflexivity.
  - reflexivity.
  - discriminate.
  - exact pathRoute_loopFree.
  - simpl. intuition discriminate.
  - exact pathRoute_connected.
  - exists p. split; [exact Hwalk|].
    destruct Hends as [[H _]|[s [t [H [Hs Ht]]]]]; [discriminate|].
    injection H as <- <-. auto.
Defined.

Example orderedChildIds_pathRoute :
  orderedChildIds 2 pathRoute = Ok [Some "1"; Some "2"].
Proof. reflexivity. Qed.

(** A round trip: the walk starts at the first node, leaves by its first
    neighbour and stops when it is back. *)
Example orderedChildIds_triangleRoute :
  routeGraph triangleRoute
  = Ok [("A", [("B", "1"); ("C", "-3")]); ("B", [("A", "-1"); ("C", "-2")]);
        ("C", [("B", "2"); ("A", "3")])] /\
  orderedChildIds 3 triangleRoute = Ok [Some "1"; Some "-2"; Some "3"].
Proof. split; reflexivity. Qed.

(** A path A - B beside a triangle C - D - E: no node of degree 3 or more
    and exactly two nodes of degree 1, so the route is accepted as
    routable.  The graph has four edges and the walk returns the single
    reference of the path. *)
Example orderedChildIds_two_components :
  routeGraph pathAndTriangleRoute
  = Ok [("A", [("B", "1")]); ("B", [("A", "-1")]);
        ("C", [("D", "2"); ("E", "-4")]); ("D", [("C", "-2"); ("E", "3")]);
        ("E", [("D", "-3"); ("C", "4")])] /\
  spec_isRoutable [("A", [("B", "1")]); ("B", [("A", "-1")]);
        ("C", [("D", "2"); ("E", "-4")]); ("D", [("C", "-2"); ("E", "3")]);
        ("E", [("D", "-3"); ("C", "4")])] = true /\
  isRoutable pathAndTriangleRoute = Ok true /\
  numEdges [("A", [("B", "1")]); ("B", [("A", "-1")]);
        ("C", [("D", "2"); ("E", "-4")]); ("D", [("C", "-2"); ("E", "3")]);
        ("E", [("D", "-3"); ("C", "4")])] = 4 /\
  (forall fuel, 1 <= fuel ->
                orderedChildIds fuel pathAndTriangleRoute = Ok [Some "1"]).
Proof.
  repeat split.
  intros fuel Hfuel. now apply (orderedChildIds_fuel_mono 1).
Qed.

(** An empty route is routable as well, and ordering it fails with the
    runtime's error. *)
Example orderedChildIds_emptyRoute :
  forall fuel, orderedChildIds fuel emptyRoute = Throw TypeError.
Proof. reflexivity. Qed.

(** * Further properties of the module *)

(** ** nodeDegrees *)

Lemma keys_degree_partition (g : RouteGraph) :
  Permutation
    (nodesWithDegree 0 g ++ nodesWithDegree 1 g ++ nodesWithDegree 2 g
       ++ nodesWithDegree3Plus g)
    (JsMap.keys g).
Proof.
  induction g as [|[n adj] g IH]; [constructor|].
  unfold nodesWithDegree, nodesWithDegree3Plus, JsMap.size in *.
  cbn [filter snd JsMap.keys map fst].
  destruct (length adj) as [|[|[|d]]]; cbn [Nat.eqb Nat.leb map fst app].
  - now constructor.
  - symmetry. apply Permutation_cons_app. now symmetry.
  - symmetry. rewrite app_assoc. apply Permutation_cons_app.
    rewrite <- app_assoc. now symmetry.
  - symmetry. rewrite !app_assoc. apply Permutation_cons_app.
    rewrite <- !app_assoc. now symmetry.
Qed.

(** X1.  [nodeDegrees] sorts the nodes of the graph into four bins: a node
    of degree d is in bin min(d, 3), every node of the graph is in a bin,
    and the four bins together are the nodes of the graph, none added and
    none lost.  When the keys are distinct no node is in two bins. *)
Theorem nodeDegrees_partition (g : RouteGraph) :
  length (nodeDegreesOf g) = 4 /\
  (forall i n,
      i < 4 ->
      (In n (bin i (nodeDegreesOf g))
       <-> exists adj, In (n, adj) g /\ Nat.min (JsMap.size adj) 3 = i)) /\
  Permutation (concat (nodeDegreesOf g)) (JsMap.keys g) /\
  (NoDup (JsMap.keys g) -> NoDup (concat (nodeDegreesOf g))).
Proof.
  rewrite nodeDegreesOf_bins. split; [reflexivity|].
  assert (Permutation
            (concat [nodesWithDegree 0 g; nodesWithDegree 1 g;
                     nodesWithDegree 2 g; nodesWithDegree3Plus g])
            (JsMap.keys g)) as Hperm
    by (cbn [concat]; rewrite app_nil_r; apply keys_degree_partition).
  split; [|split; [exact Hperm|]].
  - intros i n Hi.
    destruct i as [|[|[|[|i]]]]; try lia; cbn [bin nth];
      rewrite ?In_nodesWithDegree, ?In_nodesWithDegree3Plus;
      split; intros [adj [Hin Hd]]; exists adj; (split; [exact Hin|]); lia.
  - intros Hnd. eapply Permutation_NoDup; [symmetry; exact Hperm|exact Hnd].
Qed.

(** ** _buildRouteGraph *)

Lemma In_keys_addEndPair g a b ref n :
  In n (JsMap.keys (addEndPair g a b ref)) <-> n = a \/ In n (JsMap.keys g).
Proof.
  unfold addEndPair.
  destruct (JsMap.get g a) as [adj|] eqn:E.
  - rewrite keys_set_present by (apply get_Some_keys; eauto).
    split; [tauto|]. intros [->|H]; [|exact H]. apply get_Some_keys. eauto.
  - rewrite keys_set_absent by (now apply get_None_keys).
    rewrite in_app_iff. cbn [In]. intuition.
Qed.

Lemma fold_buildStep_failures ms g errors :
  fold_left buildStep ms (g, errors)
  = (builtFrom g ms, errors ++ flat_map memberFailure ms).
Proof.
  revert g errors. induction ms as [|m ms IH]; intros g errors.
  - cbn. now rewrite app_nil_r.
  - cbn [fold_left flat_map]. rewrite builtFrom_cons.
    unfold buildStep at 2 3, memberFailure.
    destruct (is_node (m_type m)); [now rewrite IH|].
    destruct (m_element m) as [el|]; [|now rewrite IH, <- app_assoc].
    destruct (el_endNodes el) as [e|[e0 e1]]; rewrite IH; cbn [fst app];
      now rewrite <- ?app_assoc.
Qed.

(** X3.  [_buildRouteGraph] collects the failures instead of stopping at
    the first one: it raises the composite error when, and only when, some
    member that is not a node has no readable end nodes, the error then
    holds one failure per such member, in the order of the members, and
    never an empty list; otherwise the graph of all the members is
    returned. *)
Theorem _buildRouteGraph_all_or_nothing (this : route) (ms : list member) :
  _buildRouteGraph this ms
  = match flat_map memberFailure ms with
    | [] => Ok (builtFrom [] ms)
    | e :: errors => Throw (SuperRouteTopologyError (r_id this) (e :: errors))
    end.
Proof.
  pose proof (fold_buildStep_failures ms [] []) as H. cbn [app] in H.
  unfold _buildRouteGraph.
  destruct (fold_left buildStep ms ([], [])) as [g errors] eqn:E.
  assert ((g, errors) = (builtFrom [] ms, flat_map memberFailure ms)) as E'
    by (rewrite <- E; exact H).
  injection E' as -> ->.
  now destruct (flat_map memberFailure ms).
Qed.

Lemma In_keys_builtFrom ms g n :
  In n (JsMap.keys (builtFrom g ms))
  <-> In n (JsMap.keys g)
      \/ exists m id a b, In m ms /\ isSegment m id a b /\ (n = a \/ n = b).
Proof.
  revert g. induction ms as [|m ms IH]; intros g.
  - cbn. split; [tauto|]. intros [H|[m [id [a [b [[] _]]]]]]. exact H.
  - rewrite builtFrom_cons, IH. split.
    + intros [H|[m' [id [a [b [Hin [Hseg Hn]]]]]]].
      * destruct (buildStep_graph g m) as [E|[id [a [b [Hseg E]]]]];
          rewrite E in H; [now left|].
        rewrite !In_keys_addEndPair in H.
        destruct H as [->|[->|H]]; [right|right|now left];
          exists m, id, a, b; (split; [now left|]); auto.
      * right. exists m', id, a, b. split; [now right|]. auto.
    + intros [H|[m' [id [a [b [[<-|Hin] [Hseg Hn]]]]]]].
      * left. destruct (buildStep_graph g m) as [E|[id [a [b [Hseg E]]]]];
          rewrite E; [exact H|].
        rewrite !In_keys_addEndPair. auto.
      * left. rewrite (buildStep_segment _ _ _ _ _ _ Hseg). cbn [fst].
        rewrite !In_keys_addEndPair. destruct Hn as [->| ->]; auto.
      * right. exists m', id, a, b. auto.
Qed.

(** X2.  The nodes of a graph that was built are exactly the end nodes of
    the segments it was built from, each once; every node has at least one
    neighbour, so the bin of degree 0 is empty, and every neighbour is a
    node of the graph itself. *)
Theorem built_graph_nodes (this : route) (ms : list member) (g : RouteGraph) :
  _buildRouteGraph this ms = Ok g ->
  NoDup (JsMap.keys g) /\
  (forall n, In n (JsMap.keys g)
             <-> exists m id a b,
                   In m ms /\ isSegment m id a b /\ (n = a \/ n = b)) /\
  (forall n adj, In (n, adj) g ->
                 adj <> [] /\ NoDup (JsMap.keys adj) /\
                 incl (JsMap.keys adj) (JsMap.keys g)) /\
  bin 0 (nodeDegreesOf g) = [].
Proof.
  intros Hg.
  pose proof (built_mapInvariant _ _ _ Hg) as [Hnd Hadj].
  pose proof (built_symmetric _ _ _ Hg) as Hsym.
  split; [exact Hnd|]. split; [|split].
  - apply _buildRouteGraph_Ok in Hg. subst g. intros n.
    rewrite In_keys_builtFrom. cbn [JsMap.keys map In]. tauto.
  - intros n adj Hin. destruct (Hadj n adj Hin) as [H1 H2].
    split; [exact H1|]. split; [exact H2|].
    intros k Hk.
    assert (In k (neighbours g n)) as Hkn
      by (unfold neighbours; now rewrite (In_get_NoDup _ _ _ Hnd Hin)).
    apply Hsym in Hkn. unfold neighbours in Hkn.
    destruct (JsMap.get g k) as [adj'|] eqn:E; [|destruct Hkn].
    apply get_Some_keys. eauto.
  - rewrite nodeDegreesOf_bins. cbn [bin nth].
    destruct (nodesWithDegree 0 g) as [|n l] eqn:E; [reflexivity|].
    assert (In n (nodesWithDegree 0 g)) as Hn by (rewrite E; now left).
    apply In_nodesWithDegree in Hn. destruct Hn as [adj [Hin Hd]].
    destruct (Hadj n adj Hin) as [H1 _].
    destruct adj; [congruence|discriminate].
Qed.

Lemma built_graph_nodes_witness :
  NoDup (JsMap.keys [("A", [("B", "1")]); ("B", [("A", "-1"); ("C", "2")]);
                     ("C", [("B", "-2")])]).
Proof.
  exact (proj1 (built_graph_nodes pathRoute (r_members pathRoute) _ eq_refl)).
Defined.

Lemma builtFrom_snoc g ms m :
  builtFrom g (ms ++ [m]) = fst (buildStep (builtFrom g ms, []) m).
Proof. now rewrite builtFrom_app, builtFrom_cons. Qed.

Lemma reference_pairs_builtFrom ms :
  forall a b ref,
    edgeRef (builtFrom [] ms) a b = Some ref ->
    exists m id,
      In m ms /\
      ((isSegment m id a b /\ a <> b /\ ref = id /\
        edgeRef (builtFrom [] ms) b a = Some ("-" ++ id)%string)
       \/ (isSegment m id b a /\ ref = ("-" ++ id)%string /\
           (a <> b -> edgeRef (builtFrom [] ms) b a = Some id))).
Proof.
  induction ms as [|m ms IH] using rev_ind; intros a b ref.
  - cbn. unfold edgeRef. cbn. discriminate.
  - rewrite builtFrom_snoc.
    destruct (buildStep_graph (builtFrom [] ms) m) as [E|[id [x [y [Hseg E]]]]];
      rewrite E.
    + intros H. destruct (IH a b ref H) as [m0 [id [Hin Hcases]]].
      exists m0, id. split; [apply in_or_app; now left|exact Hcases].
    + rewrite !edgeRef_addEndPair.
      destruct (String.eqb y a && String.eqb x b) eqn:E1.
      * apply andb_true_iff in E1. destruct E1 as [Ea Eb].
        apply String.eqb_eq in Ea, Eb. subst a b.
        intros [= <-]. exists m, id. split; [apply in_or_app; right; now left|].
        right. split; [exact Hseg|]. split; [reflexivity|].
        intros Hne. rewrite !String.eqb_refl.
        replace (String.eqb y x) with false
          by (symmetry; now apply String.eqb_neq).
        reflexivity.
      * destruct (String.eqb x a && String.eqb y b) eqn:E2.
        -- apply andb_true_iff in E2. destruct E2 as [Ea Eb].
           apply String.eqb_eq in Ea, Eb. subst a b.
           assert (x <> y) as Hne.
           { intros ->. rewrite String.eqb_refl in E1. discriminate. }
           intros [= <-]. exists m, id.
           split; [apply in_or_app; right; now left|].
           left. split; [exact Hseg|]. split; [exact Hne|].
           split; [reflexivity|]. now rewrite !String.eqb_refl.
        -- intros H. destruct (IH a b ref H) as [m0 [id0 [Hin Hcases]]].
           exists m0, id0. split; [apply in_or_app; now left|].
           rewrite (andb_comm (String.eqb y b)), (andb_comm (String.eqb x b)).
           rewrite E2, E1. exact Hcases.
Qed.

(** X4.  Every reference stored in a graph that was built belongs to a
    segment that joins the two nodes of its entry: the entry in the
    direction of the segment carries its identifier, the entry against it
    the reverse-marked identifier, and between two distinct nodes the two
    opposite entries always carry the two marks of one and the same
    segment. *)
Theorem built_graph_reference_pairs (this : route) (ms : list member)
    (g : RouteGraph) :
  _buildRouteGraph this ms = Ok g ->
  forall a b ref,
    edgeRef g a b = Some ref ->
    exists m id,
      In m ms /\
      ((isSegment m id a b /\ a <> b /\ ref = id /\
        edgeRef g b a = Some ("-" ++ id)%string)
       \/ (isSegment m id b a /\ ref = ("-" ++ id)%string /\
           (a <> b -> edgeRef g b a = Some id))).
Proof.
  intros Hg. apply _buildRouteGraph_Ok in Hg. subst g.
  apply reference_pairs_builtFrom.
Qed.

Lemma built_graph_reference_pairs_witness :
  exists m id,
    In m (r_members pathRoute) /\
    ((isSegment m id "C" "B" /\ "C" <> "B" /\ "-2" = id /\
      edgeRef [("A", [("B", "1")]); ("B", [("A", "-1"); ("C", "2")]);
               ("C", [("B", "-2")])] "B" "C" = Some ("-" ++ id)%string)
     \/ (isSegment m id "B" "C" /\ "-2" = ("-" ++ id)%string /\
         ("C" <> "B" ->
          edgeRef [("A", [("B", "1")]); ("B", [("A", "-1"); ("C", "2")]);
                   ("C", [("B", "-2")])] "B" "C" = Some id))).
Proof.
  exact (built_graph_reference_pairs pathRoute (r_members pathRoute) _ eq_refl
           "C" "B" "-2" eq_refl).
Defined.

(** ** Raising and not raising *)

Lemma routeGraph_terminates this : routeGraph this <> OutOfFuel.
Proof. apply _buildRouteGraph_terminates. Qed.

(** [throw new RouteTopologyError(this)] always raises, and raises the
    same error wherever it stands. *)
Lemma throwRouteTopologyError_raises (this : route) :
  exists e, forall A : Type, @throwRouteTopologyError A this = Throw e.
Proof.
  unfold throwRouteTopologyError, newRouteTopologyError, nodeDegrees.
  destruct (routeGraph this) as [g|e|] eqn:E.
  - eexists. intros A. reflexivity.
  - exists e. intros A. reflexivity.
  - now apply routeGraph_terminates in E.
Qed.

(** X6.  On a route that is not routable [endNodes], [orderedChildIds],
    [orderedFeatureCollection] and [lineStringFeature] all raise, whatever
    the fuel, and all raise the same error. *)
Theorem not_routable_same_error (this : route) :
  isRoutable this = Ok false ->
  exists e,
    endNodes this = Throw e /\
    forall fuel,
      orderedChildIds fuel this = Throw e /\
      orderedFeatureCollection fuel this = Throw e /\
      deepOrderedFeatureCollection fuel this = Throw e /\
      lineStringFeature fuel this = Throw e.
Proof.
  intros Hr. destruct (throwRouteTopologyError_raises this) as [e He].
  exists e.
  assert (forall fuel, orderedFeatureCollection fuel this = Throw e) as Hofc
    by (intros fuel; unfold orderedFeatureCollection; rewrite Hr; apply He).
  split; [unfold endNodes; rewrite Hr; apply He|].
  intros fuel. split; [unfold orderedChildIds; rewrite Hr; apply He|].
  split; [apply Hofc|]. split; [apply Hofc|].
  unfold lineStringFeature. now rewrite Hofc.
Qed.

Lemma not_routable_same_error_witness :
  exists e,
    endNodes junctionRoute = Throw e /\
    forall fuel,
      orderedChildIds fuel junctionRoute = Throw e /\
      orderedFeatureCollection fuel junctionRoute = Throw e /\
      deepOrderedFeatureCollection fuel junctionRoute = Throw e /\
      lineStringFeature fuel junctionRoute = Throw e.
Proof. exact (not_routable_same_error junctionRoute eq_refl). Defined.

(** X5.  The [RouteTopologyError] raised for a graph that was built and is
    not routable always names at least one node and one broken rule.  Its
    nodes are nodes of the graph: those of degree 3 or more, and those of
    degree 1 only when there are more than two of them. *)
Theorem topology_error_content (this : route) (g : RouteGraph) :
  routeGraph this = Ok g ->
  isRoutable this = Ok false ->
  exists errNodes err,
    endNodes this = Throw (RouteTopologyError (r_id this) errNodes err) /\
    errNodes <> [] /\ err <> [] /\
    incl errNodes (JsMap.keys g) /\
    (forall n, In n errNodes
               <-> In n (nodesWithDegree3Plus g)
                   \/ (2 < length (nodesWithDegree 1 g)
                       /\ In n (nodesWithDegree 1 g))).
Proof.
  intros Hg Hr. rewrite (endNodes_not_routable _ _ Hg Hr).
  assert (nodesWithDegree3Plus g <> [] \/ 2 < length (nodesWithDegree 1 g))
    as Hwhy.
  { rewrite isRoutable_value, Hg in Hr. injection Hr as Hr.
    destruct (nodesWithDegree3Plus g) as [|n l] eqn:E3; [right|left; discriminate].
    destruct (le_lt_dec (length (nodesWithDegree 1 g)) 2) as [Hle|Hlt]; auto.
    assert (routableBins (nodeDegreesOf g) = true) as Ht
      by (apply routableBins_graph; rewrite E3; auto).
    congruence. }
  eexists. eexists. split; [reflexivity|].
  split; [|split; [|split]].
  - destruct Hwhy as [H|H].
    + destruct (nodesWithDegree3Plus g); [congruence|]. discriminate.
    + apply Nat.ltb_lt in H. rewrite H.
      destruct (nodesWithDegree 1 g) as [|? ?]; [discriminate|].
      destruct (if 0 <? length (nodesWithDegree3Plus g)
                then nodesWithDegree3Plus g else []); discriminate.
  - destruct Hwhy as [H|H].
    + destruct (nodesWithDegree3Plus g); [congruence|]. discriminate.
    + apply Nat.ltb_lt in H. rewrite H.
      destruct (0 <? length (nodesWithDegree3Plus g)); discriminate.
  - intros n Hn. apply in_app_or in Hn.
    assert (forall d, incl (nodesWithDegree d g) (JsMap.keys g)) as Hd.
    { intros d x Hx. apply In_nodesWithDegree in Hx.
      destruct Hx as [adj [Hin _]]. apply (in_map fst) in Hin. exact Hin. }
    assert (incl (nodesWithDegree3Plus g) (JsMap.keys g)) as H3.
    { intros x Hx. apply In_nodesWithDegree3Plus in Hx.
      destruct Hx as [adj [Hin _]]. apply (in_map fst) in Hin. exact Hin. }
    destruct Hn as [Hn|Hn].
    + destruct (0 <? length (nodesWithDegree3Plus g)); [auto|destruct Hn].
    + destruct (2 <? length (nodesWithDegree 1 g)); [apply (Hd 1); auto|destruct Hn].
  - intros n. rewrite in_app_iff. split.
    + intros [Hn|Hn].
      * destruct (0 <? length (nodesWithDegree3Plus g)); [auto|destruct Hn].
      * destruct (2 <? length (nodesWithDegree 1 g)) eqn:E; [|destruct Hn].
        apply Nat.ltb_lt in E. auto.
    + intros [Hn|[Hlt Hn]].
      * left. destruct (nodesWithDegree3Plus g); [destruct Hn|exact Hn].
      * right. apply Nat.ltb_lt in Hlt. now rewrite Hlt.
Qed.

Lemma topology_error_content_witness :
  exists errNodes err,
    endNodes junctionRoute = Throw (RouteTopologyError "r" errNodes err) /\
    errNodes <> [] /\ err <> [] /\
    incl errNodes ["A"; "B"; "C"; "D"] /\
    (forall n, In n errNodes
               <-> In n ["B"] \/ (2 < 3 /\ In n ["A"; "C"; "D"])).
Proof.
  exact (topology_error_content junctionRoute
           [("A", [("B", "1")]); ("B", [("A", "-1"); ("C", "2"); ("D", "3")]);
            ("C", [("B", "-2")]); ("D", [("B", "-3")])]
           eq_refl eq_refl).
Defined.

(** ** Children and the features made of them *)

Lemma children_have_element this m :
  In m (children this) -> exists el, m_element m = Some el.
Proof.
  unfold children. intros H. apply filter_In in H. destruct H as [_ H].
  apply andb_true_iff in H. destruct H as [_ H].
  destruct (m_element m) as [el|]; [eauto|discriminate].
Qed.

Lemma mapM_elementOf {B : Type} (f : member -> element -> B) (h : member -> B)
    (l : list member) :
  (forall m, In m l -> exists el, m_element m = Some el /\ h m = f m el) ->
  mapM (fun child => el <- elementOf child ;; Ok (f child el)) l = Ok (map h l).
Proof.
  induction l as [|m l IH]; intros H; [reflexivity|].
  cbn [mapM map]. destruct (H m (or_introl eq_refl)) as [el [E ->]].
  unfold elementOf at 1. rewrite E. cbn [bind].
  rewrite IH by (intros m' Hm'; apply H; now right). reflexivity.
Qed.

Lemma features_of_children (l : list member) (fs : list feature) :
  mapM (fun child => el <- elementOf child ;; lineStringFeatureOf el) l = Ok fs ->
  fs = map featureOf l.
Proof.
  revert fs. induction l as [|m l IH]; intros fs H.
  - now injection H as <-.
  - cbn [mapM] in H. cbn [map]. unfold elementOf at 1 in H.
    unfold featureOf at 1.
    destruct (m_element m) as [el|]; [|discriminate H].
    cbn [bind] in H. unfold lineStringFeatureOf at 1 in H.
    destruct (el_lineStringFeature el) as [e|f]; [discriminate H|].
    cbn [bind] in H.
    destruct (mapM (fun child => el <- elementOf child ;; lineStringFeatureOf el) l)
      as [fs'| |]; try discriminate H.
    cbn [bind] in H. injection H as <-. now rewrite (IH fs' eq_refl).
Qed.

(** The collection, when every getter read returns, holds the features of
    the main children in the order of the members. *)
Lemma featureCollection_Ok this fs :
  featureCollection this = Ok fs -> fs = map featureOf (mainChildren this).
Proof. apply features_of_children. Qed.

Lemma childrenMap_returns this : exists cm, childrenMap this = Ok cm.
Proof.
  unfold childrenMap.
  rewrite (mapM_elementOf (fun child el => (el_id el, child))
             (fun m => (match m_element m with
                        | Some el => el_id el
                        | None => ""
                        end, m))).
  - cbn [bind]. eauto.
  - intros m Hm. destruct (children_have_element this m Hm) as [el E].
    exists el. now rewrite E.
Qed.

(** X7.  A route without main children (no member, or only nodes and
    alternatives) has the empty graph and counts as routable; its end
    nodes are both [undefined], and [orderedChildIds],
    [orderedFeatureCollection], [lineStringFeature], [simplestFeature] and
    [statistics] all raise a [TypeError], while [multiLineStringFeature]
    returns a feature without lines. *)
Theorem no_main_children (this : route) :
  mainChildren this = [] ->
  routeGraph this = Ok [] /\
  isRoutable this = Ok true /\
  endNodes this = Ok (None, None) /\
  multiLineStringFeature this = Ok (mkMultiLine (r_properties this) []) /\
  forall fuel,
    orderedChildIds fuel this = Throw TypeError /\
    orderedFeatureCollection fuel this = Throw TypeError /\
    lineStringFeature fuel this = Throw TypeError /\
    simplestFeature fuel this = Throw TypeError /\
    forall turfLength, statistics turfLength fuel this = Throw TypeError.
Proof.
  intros Hm.
  assert (routeGraph this = Ok []) as Hg
    by (unfold routeGraph; fold (mainChildren this); now rewrite Hm).
  assert (isRoutable this = Ok true) as Hr
    by (rewrite isRoutable_value, Hg; reflexivity).
  assert (forall fuel, orderedChildIds fuel this = Throw TypeError) as Hids
    by (intros fuel; unfold orderedChildIds; rewrite Hr, Hg; reflexivity).
  assert (forall fuel, orderedFeatureCollection fuel this = Throw TypeError)
    as Hofc.
  { intros fuel. unfold orderedFeatureCollection. rewrite Hr. cbn [bind negb].
    destruct (childrenMap_returns this) as [cm ->]. cbn [bind].
    now rewrite Hids. }
  assert (forall fuel, lineStringFeature fuel this = Throw TypeError) as Hls
    by (intros fuel; unfold lineStringFeature; now rewrite Hofc).
  split; [exact Hg|]. split; [exact Hr|]. split; [|split].
  - unfold endNodes, nodeDegrees. rewrite Hr, Hg. reflexivity.
  - unfold multiLineStringFeature, featureCollection.
    fold (mainChildren this). now rewrite Hm.
  - intros fuel. split; [apply Hids|]. split; [apply Hofc|].
    split; [apply Hls|]. split.
    + unfold simplestFeature. rewrite Hr. cbn [bind]. now rewrite Hls.
    + intros turfLength. unfold statistics, deepFeatureCollection,
        featureCollection.
      fold (mainChildren this). rewrite Hm. cbn [mapM bind fold_left].
      rewrite Hr. cbn [bind]. now rewrite Hls.
Qed.

Lemma no_main_children_witness :
  routeGraph alternativeOnlyRoute = Ok [] /\
  isRoutable alternativeOnlyRoute = Ok true /\
  endNodes alternativeOnlyRoute = Ok (None, None) /\
  multiLineStringFeature alternativeOnlyRoute
  = Ok (mkMultiLine [("name", "loop")] []) /\
  forall fuel,
    orderedChildIds fuel alternativeOnlyRoute = Throw TypeError /\
    orderedFeatureCollection fuel alternativeOnlyRoute = Throw TypeError /\
    lineStringFeature fuel alternativeOnlyRoute = Throw TypeError /\
    simplestFeature fuel alternativeOnlyRoute = Throw TypeError /\
    forall turfLength,
      statistics turfLength fuel alternativeOnlyRoute = Throw TypeError.
Proof. exact (no_main_children alternativeOnlyRoute eq_refl). Defined.

Example alternatives_alternativeOnlyRoute :
  alternatives alternativeOnlyRoute
  = Ok [mkMultiLine [] [[[0; 0]; [1; 1]]%Q]].
Proof. reflexivity. Qed.

(** ** The loop of [statistics] *)

Lemma statsStep_fields (turfLength : feature -> Q) s relevant sac f :
  let '(s1, relevant1, sac1) := statsStep turfLength (s, relevant, sac) f in
  RouteStatistics.numSegments s1 = RouteStatistics.numSegments s + 1 /\
  RouteStatistics.numNodes s1
  = RouteStatistics.numNodes s + length (coordinates f) /\
  RouteStatistics.surfaceWays s1
  = RouteStatistics.surfaceWays s ++ (if hasSurface f then [] else [atId f]) /\
  RouteStatistics.sacScaleWays s1
  = RouteStatistics.sacScaleWays s
    ++ (if isRelevant f && negb (hasSacScale f) then [atId f] else []) /\
  relevant1 = relevant + (if isRelevant f then 1 else 0) /\
  sac1 = sac + (if isRelevant f && hasSacScale f then 1 else 0) /\
  (hasSurface f = false ->
   RouteStatistics.surfacePct s1 = RouteStatistics.surfacePct s).
Proof.
  unfold statsStep, hasSurface, hasSacScale, isRelevant, atId.
  cbn [RouteStatistics.numSegments RouteStatistics.numNodes
       RouteStatistics.surfaceWays RouteStatistics.sacScaleWays
       RouteStatistics.surfacePct].
  split; [reflexivity|]. split; [reflexivity|].
  split; [destruct (JsMap.has (properties f) "surface");
          now rewrite ?app_nil_r|].
  split; [destruct (sacScaleRelevant (properties f)
                    && negb (JsMap.has (properties f) "sac_scale"));
          now rewrite ?app_nil_r|].
  split; [destruct (sacScaleRelevant (properties f)); lia|].
  split; [destruct (sacScaleRelevant (properties f)
                    && JsMap.has (properties f) "sac_scale"); lia|].
  now intros ->.
Qed.

Lemma statsStep_fold (turfLength : feature -> Q) (features : list feature) :
  forall s relevant sac,
    let '(s', relevant', sac') :=
      fold_left (statsStep turfLength) features (s, relevant, sac) in
    RouteStatistics.numSegments s'
    = RouteStatistics.numSegments s + length features /\
    RouteStatistics.numNodes s'
    = RouteStatistics.numNodes s
      + list_sum (map (fun f => length (coordinates f)) features) /\
    RouteStatistics.surfaceWays s'
    = RouteStatistics.surfaceWays s
      ++ map atId (filter (fun f => negb (hasSurface f)) features) /\
    RouteStatistics.sacScaleWays s'
    = RouteStatistics.sacScaleWays s
      ++ map atId (filter (fun f => isRelevant f && negb (hasSacScale f)) features) /\
    relevant' = relevant + length (filter isRelevant features) /\
    sac' = sac + length (filter (fun f => isRelevant f && hasSacScale f) features) /\
    (forallb (fun f => negb (hasSurface f)) features = true ->
     RouteStatistics.surfacePct s' = RouteStatistics.surfacePct s).
Proof.
  induction features as [|f features IH]; intros s relevant sac.
  - cbn [fold_left length map list_sum fold_right filter]. rewrite !app_nil_r.
    repeat split; solve [lia | reflexivity].
  - cbn [fold_left].
    pose proof (statsStep_fields turfLength s relevant sac f) as Hstep.
    destruct (statsStep turfLength (s, relevant, sac) f) as [[s1 relevant1] sac1].
    specialize (IH s1 relevant1 sac1).
    destruct (fold_left (statsStep turfLength) features (s1, relevant1, sac1))
      as [[s' relevant'] sac'].
    destruct Hstep as [S1 [S2 [S3 [S4 [S5 [S6 S7]]]]]].
    destruct IH as [H1 [H2 [H3 [H4 [H5 [H6 H7]]]]]].
    cbn [length map list_sum fold_right filter forallb].
    fold (list_sum (map (fun f => length (coordinates f)) features)).
    split; [lia|]. split; [lia|].
    split; [rewrite H3, S3; destruct (hasSurface f); cbn [negb map];
            now rewrite <- app_assoc|].
    split; [rewrite H4, S4;
            destruct (isRelevant f && negb (hasSacScale f)); cbn [map];
            now rewrite <- app_assoc|].
    split; [rewrite H5, S5; destruct (isRelevant f); cbn [length]; lia|].
    split; [rewrite H6, S6; destruct (isRelevant f && hasSacScale f);
            cbn [length]; lia|].
    intros Hall. apply andb_true_iff in Hall. destruct Hall as [Hf Hall].
    apply negb_true_iff in Hf. now rewrite (H7 Hall), (S7 Hf).
Qed.

(** The fields of the record [statistics] returns that come from the loop. *)
Lemma statistics_loop_fields turfLength fuel this s :
  statistics turfLength fuel this = Ok s ->
  let '(acc, relevant, sac) :=
    fold_left (statsStep turfLength) (map featureOf (mainChildren this))
      (initialStatistics, 0, 0) in
  RouteStatistics.numSegments s = RouteStatistics.numSegments acc /\
  RouteStatistics.numNodes s = RouteStatistics.numNodes acc /\
  RouteStatistics.surfaceWays s = RouteStatistics.surfaceWays acc /\
  RouteStatistics.sacScaleWays s = RouteStatistics.sacScaleWays acc /\
  RouteStatistics.surfacePct s
  = num_mul (round (RouteStatistics.surfacePct acc)) (Fin 100) /\
  RouteStatistics.sacScalePct s
  = num_mul (round (num_div (of_nat sac) (of_nat relevant))) (Fin 100).
Proof.
  unfold statistics, deepFeatureCollection.
  destruct (featureCollection this) as [features| |] eqn:Hf; try discriminate.
  rewrite (featureCollection_Ok this features Hf). cbn [bind].
  destruct (fold_left (statsStep turfLength) (map featureOf (mainChildren this))
              (initialStatistics, 0, 0)) as [[acc relevant] sac].
  destruct (isRoutable this) as [[|]| |]; cbn [bind]; try discriminate.
  - destruct (lineStringFeature fuel this) as [line| |]; cbn [bind];
      try discriminate.
    destruct (coordinates line) as [|coord0 rest]; [discriminate|].
    destruct (length coord0 =? 3); cbn [bind]; intros [= <-];
      repeat split; reflexivity.
  - intros [= <-]. repeat split; reflexivity.
Qed.

(** X10.  When [statistics] returns, [numSegments] is the number of main
    children, [numNodes] the sum of their coordinate counts, [surfaceWays]
    the identifiers of the segments without a [surface] tag and
    [sacScaleWays] those of the path, track and footway segments without a
    [sac_scale] tag, both in the order of the members. *)
Theorem statistics_counts (turfLength : feature -> Q) (fuel : nat)
    (this : route) (s : RouteStatistics.t) :
  statistics turfLength fuel this = Ok s ->
  RouteStatistics.numSegments s = length (mainChildren this) /\
  RouteStatistics.numNodes s
  = list_sum (map (fun m => length (coordinates (featureOf m)))
                  (mainChildren this)) /\
  RouteStatistics.surfaceWays s
  = map atId (filter (fun f => negb (hasSurface f))
                     (map featureOf (mainChildren this))) /\
  RouteStatistics.sacScaleWays s
  = map atId (filter (fun f => isRelevant f && negb (hasSacScale f))
                     (map featureOf (mainChildren this))).
Proof.
  intros Hs. pose proof (statistics_loop_fields _ _ _ _ Hs) as H.
  pose proof (statsStep_fold turfLength (map featureOf (mainChildren this))
                initialStatistics 0 0) as Hfold.
  destruct (fold_left (statsStep turfLength) (map featureOf (mainChildren this))
              (initialStatistics, 0, 0)) as [[acc relevant] sac].
  destruct H as [H1 [H2 [H3 [H4 _]]]].
  destruct Hfold as [F1 [F2 [F3 [F4 _]]]].
  cbn [initialStatistics RouteStatistics.numSegments RouteStatistics.numNodes
       RouteStatistics.surfaceWays RouteStatistics.sacScaleWays app] in *.
  rewrite H1, H2, H3, H4, F1, F2, F3, F4.
  rewrite length_map, map_map. repeat split.
Qed.

Lemma statistics_counts_witness :
  exists s,
    statistics unitLength 3 sacScaleRoute = Ok s /\
    RouteStatistics.numSegments s = 3 /\
    RouteStatistics.numNodes s = 6 /\
    RouteStatistics.surfaceWays s
    = [Some "way/1"; Some "way/2"; Some "way/3"] /\
    RouteStatistics.sacScaleWays s = [].
Proof.
  eexists. split; [reflexivity|].
  exact (statistics_counts unitLength 3 sacScaleRoute _ eq_refl).
Defined.

Lemma of_nat_div_same n :
  0 < n -> num_div (of_nat n) (of_nat n) = Fin 1.
Proof.
  intros Hn. unfold num_div, of_nat.
  assert (~ (inject_Z (Z.of_nat n) == 0)%Q) as Hne
    by (unfold Qeq; simpl; lia).
  destruct (Qeq_bool (inject_Z (Z.of_nat n)) 0) eqn:E;
    [apply Qeq_bool_eq in E; contradiction|].
  f_equal. change 1%Q with (Qred 1). apply Qred_complete.
  unfold Qdiv. now apply Qmult_inv_r.
Qed.

Lemma of_nat_div_zero n :
  0 < n -> num_div (of_nat 0) (of_nat n) = Fin 0.
Proof.
  intros Hn. unfold num_div, of_nat.
  assert (~ (inject_Z (Z.of_nat n) == 0)%Q) as Hne
    by (unfold Qeq; simpl; lia).
  destruct (Qeq_bool (inject_Z (Z.of_nat n)) 0) eqn:E;
    [apply Qeq_bool_eq in E; contradiction|].
  reflexivity.
Qed.

Lemma filter_all_covered (fs : list feature) :
  forallb (fun f => negb (isRelevant f) || hasSacScale f) fs = true ->
  length (filter (fun f => isRelevant f && hasSacScale f) fs)
  = length (filter isRelevant fs).
Proof.
  induction fs as [|f fs IH]; [reflexivity|].
  cbn [forallb filter]. intros H. apply andb_true_iff in H.
  destruct H as [Hf H]. specialize (IH H).
  destruct (isRelevant f), (hasSacScale f); cbn [andb length] in *;
    try discriminate; lia.
Qed.

Lemma filter_none_covered (fs : list feature) :
  forallb (fun f => negb (isRelevant f && hasSacScale f)) fs = true ->
  length (filter (fun f => isRelevant f && hasSacScale f) fs) = 0.
Proof.
  induction fs as [|f fs IH]; [reflexivity|].
  cbn [forallb filter]. intros H. apply andb_true_iff in H.
  destruct H as [Hf H]. apply negb_true_iff in Hf. rewrite Hf. auto.
Qed.

(** X12.  The sac-scale coverage only counts path, track and footway
    segments.  Without any such segment [sacScalePct] is the [NaN] of 0/0,
    kept through the rounding; when every such segment carries a
    [sac_scale] tag it is 100, and when none does it is 0. *)
Theorem sacScale_coverage (turfLength : feature -> Q) (fuel : nat)
    (this : route) (s : RouteStatistics.t) :
  statistics turfLength fuel this = Ok s ->
  (filter isRelevant (map featureOf (mainChildren this)) = [] ->
   RouteStatistics.sacScalePct s = NaN) /\
  (filter isRelevant (map featureOf (mainChildren this)) <> [] ->
   forallb (fun f => negb (isRelevant f) || hasSacScale f)
           (map featureOf (mainChildren this)) = true ->
   RouteStatistics.sacScalePct s = Fin 100) /\
  (filter isRelevant (map featureOf (mainChildren this)) <> [] ->
   forallb (fun f => negb (isRelevant f && hasSacScale f))
           (map featureOf (mainChildren this)) = true ->
   RouteStatistics.sacScalePct s = Fin 0).
Proof.
  intros Hs. pose proof (statistics_loop_fields _ _ _ _ Hs) as H.
  pose proof (statsStep_fold turfLength (map featureOf (mainChildren this))
                initialStatistics 0 0) as Hfold.
  destruct (fold_left (statsStep turfLength) (map featureOf (mainChildren this))
              (initialStatistics, 0, 0)) as [[acc relevant] sac].
  destruct H as [_ [_ [_ [_ [_ Hpct]]]]].
  destruct Hfold as [_ [_ [_ [_ [Hrel [Hsac _]]]]]].
  cbn [Nat.add] in Hrel, Hsac. rewrite Hpct, Hrel, Hsac.
  split; [|split].
  - intros Hnone. rewrite Hnone.
    assert (filter (fun f => isRelevant f && hasSacScale f)
                   (map featureOf (mainChildren this)) = []) as ->.
    { destruct (filter (fun f => isRelevant f && hasSacScale f)
                       (map featureOf (mainChildren this))) as [|f l] eqn:E;
        [reflexivity|].
      assert (In f (filter isRelevant (map featureOf (mainChildren this)))) as Hf.
      { assert (In f (filter (fun f => isRelevant f && hasSacScale f)
                             (map featureOf (mainChildren this)))) as Hin
          by (rewrite E; now left).
        apply filter_In in Hin. destruct Hin as [Hin Hb].
        apply andb_true_iff in Hb. apply filter_In. tauto. }
      rewrite Hnone in Hf. destruct Hf. }
    reflexivity.
  - intros Hsome Hall. rewrite (filter_all_covered _ Hall).
    rewrite of_nat_div_same; [reflexivity|].
    destruct (filter isRelevant (map featureOf (mainChildren this)));
      [congruence|cbn [length]; lia].
  - intros Hsome Hall. rewrite (filter_none_covered _ Hall).
    rewrite of_nat_div_zero; [reflexivity|].
    destruct (filter isRelevant (map featureOf (mainChildren this)));
      [congruence|cbn [length]; lia].
Qed.

Lemma sacScale_coverage_witness :
  exists s,
    statistics unitLength 3 sacScaleRoute = Ok s /\
    RouteStatistics.sacScalePct s = Fin 100.
Proof.
  eexists. split; [reflexivity|].
  refine (proj1 (proj2 (sacScale_coverage unitLength 3 sacScaleRoute _ eq_refl))
            _ eq_refl).
  discriminate.
Defined.

(** X13.  The surface coverage of a route without any [surface] tag is 0
    and every segment is listed as missing it; when the first segment
    alone carries the tag the running update has added 1/1 and the
    coverage is 100, however many untagged segments follow. *)
Theorem surface_coverage_edges (turfLength : feature -> Q) (fuel : nat)
    (this : route) (s : RouteStatistics.t) :
  statistics turfLength fuel this = Ok s ->
  (forallb (fun f => negb (hasSurface f)) (map featureOf (mainChildren this))
   = true ->
   RouteStatistics.surfacePct s = Fin 0 /\
   RouteStatistics.surfaceWays s = map atId (map featureOf (mainChildren this))) /\
  (forall f rest,
      map featureOf (mainChildren this) = f :: rest ->
      hasSurface f = true ->
      forallb (fun f => negb (hasSurface f)) rest = true ->
      RouteStatistics.surfacePct s = Fin 100 /\
      RouteStatistics.surfaceWays s = map atId rest).
Proof.
  intros Hs. pose proof (statistics_loop_fields _ _ _ _ Hs) as H.
  assert (forall l : list feature,
             forallb (fun f => negb (hasSurface f)) l = true ->
             filter (fun f => negb (hasSurface f)) l = l) as Hfilter
    by (intros l Hl; now apply forallb_filter_id).
  split.
  - intros Hall.
    pose proof (statsStep_fold turfLength (map featureOf (mainChildren this))
                  initialStatistics 0 0) as Hfold.
    destruct (fold_left (statsStep turfLength)
                (map featureOf (mainChildren this))
                (initialStatistics, 0, 0)) as [[acc relevant] sac].
    destruct H as [_ [_ [Hw [_ [Hp _]]]]].
    destruct Hfold as [_ [_ [Fw [_ [_ [_ Fp]]]]]].
    rewrite Hp, Hw, Fw, (Fp Hall), (Hfilter _ Hall). split; reflexivity.
  - intros f rest Hfs Hf Hrest. rewrite Hfs in H. cbn [fold_left] in H.
    pose proof (statsStep_fields turfLength initialStatistics 0 0 f) as Hstep.
    unfold statsStep at 1 in Hstep.
    destruct (statsStep turfLength (initialStatistics, 0, 0) f)
      as [[s1 relevant1] sac1] eqn:E1.
    assert (RouteStatistics.surfacePct s1 = Fin 1 /\
            RouteStatistics.surfaceWays s1 = []) as [P1 W1].
    { unfold statsStep in E1. fold (hasSurface f) in E1. rewrite Hf in E1.
      injection E1 as <- _ _. split; reflexivity. }
    pose proof (statsStep_fold turfLength rest s1 relevant1 sac1) as Hfold.
    destruct (fold_left (statsStep turfLength) rest (s1, relevant1, sac1))
      as [[acc relevant] sac].
    destruct H as [_ [_ [Hw [_ [Hp _]]]]].
    destruct Hfold as [_ [_ [Fw [_ [_ [_ Fp]]]]]].
    rewrite Hp, Hw, Fw, (Fp Hrest), (Hfilter _ Hrest), P1, W1.
    split; reflexivity.
Qed.

Lemma surface_coverage_edges_witness :
  exists s,
    statistics unitLength 2 taggedFirstRoute = Ok s /\
    RouteStatistics.surfacePct s = Fin 100 /\
    RouteStatistics.surfaceWays s = [Some "way/2"].
Proof.
  eexists. split; [reflexivity|].
  exact (proj2 (surface_coverage_edges unitLength 2 taggedFirstRoute _ eq_refl)
           _ _ eq_refl eq_refl eq_refl).
Defined.

Lemma elevationLoop_never_descends (rest : list (list Q)) :
  forall lastCoord acc,
    neverDescends lastCoord rest = true ->
    snd (elevationLoop lastCoord rest acc) = snd acc.
Proof.
  induction rest as [|coord rest IH]; intros lastCoord acc H; [reflexivity|].
  cbn [neverDescends elevationLoop] in *. apply andb_true_iff in H.
  destruct H as [Hstep Hrest]. rewrite (IH _ _ Hrest).
  unfold elevationStep.
  destruct (nth_error coord 2) as [c|], (nth_error lastCoord 2) as [l|];
    try reflexivity.
  apply negb_true_iff in Hstep. rewrite Hstep.
  now destruct (Qlt_bool l c).
Qed.

Lemma elevationLoop_never_climbs (rest : list (list Q)) :
  forall lastCoord acc,
    neverClimbs lastCoord rest = true ->
    fst (elevationLoop lastCoord rest acc) = fst acc.
Proof.
  induction rest as [|coord rest IH]; intros lastCoord acc H; [reflexivity|].
  cbn [neverClimbs elevationLoop] in *. apply andb_true_iff in H.
  destruct H as [Hstep Hrest]. rewrite (IH _ _ Hrest).
  unfold elevationStep.
  destruct (nth_error coord 2) as [c|], (nth_error lastCoord 2) as [l|];
    try reflexivity.
  apply negb_true_iff in Hstep. rewrite Hstep.
  now destruct (Qlt_bool c l).
Qed.

(** X14.  On a routable route with a three-dimensional line string, a
    line whose elevation never goes down has a descent of exactly 0, and a
    line whose elevation never goes up an ascent of exactly 0: equal
    elevations add to neither. *)
Theorem elevation_one_way (turfLength : feature -> Q) (fuel : nat)
    (this : route) (s : RouteStatistics.t) (line : feature)
    (coord0 : list Q) (rest : list (list Q)) :
  statistics turfLength fuel this = Ok s ->
  isRoutable this = Ok true ->
  lineStringFeature fuel this = Ok line ->
  coordinates line = coord0 :: rest ->
  length coord0 = 3 ->
  (neverDescends coord0 rest = true ->
   RouteStatistics.descent s = Some (Fin 0)) /\
  (neverClimbs coord0 rest = true ->
   RouteStatistics.ascent s = Some (Fin 0)).
Proof.
  unfold statistics, deepFeatureCollection. intros Hs Hr Hl Hc H3.
  destruct (featureCollection this) as [features| |]; try discriminate Hs.
  cbn [bind] in Hs.
  destruct (fold_left (statsStep turfLength) features (initialStatistics, 0, 0))
    as [[acc relevant] sac].
  rewrite Hr, Hl in Hs. cbn [bind] in Hs. rewrite Hc, H3 in Hs.
  cbn [Nat.eqb bind] in Hs. injection Hs as <-.
  cbn [RouteStatistics.ascent RouteStatistics.descent fst snd to_number].
  split; intros H.
  - now rewrite (elevationLoop_never_descends rest coord0 _ H).
  - now rewrite (elevationLoop_never_climbs rest coord0 _ H).
Qed.

Lemma elevation_one_way_witness :
  exists s,
    statistics unitLength 2 climbRoute = Ok s /\
    RouteStatistics.descent s = Some (Fin 0).
Proof.
  eexists. split; [reflexivity|].
  exact (proj1 (elevation_one_way unitLength 2 climbRoute _ _
                  [0; 0; 10]%Q [[1; 1; 15]; [2; 2; 15]; [3; 3; 20]]%Q
                  eq_refl eq_refl eq_refl eq_refl eq_refl) eq_refl).
Defined.

(** ** What the ordering walk never does *)

Lemma hd_error_filter_In {A : Type} (f : A -> bool) (l : list A) x :
  hd_error (filter f l) = Some x -> In x l.
Proof.
  intros H. assert (In x (filter f l)) as Hin
    by (destruct (filter f l); [discriminate|injection H as ->; now left]).
  apply filter_In in Hin. tauto.
Qed.

Lemma getNext_In g c l x :
  _getNextNode g c l = Ok (Some x) -> In x (neighbours g c).
Proof.
  unfold _getNextNode, neighbours.
  destruct (JsMap.get g c) as [adj|]; [|discriminate].
  intros [= H]. now apply hd_error_filter_In in H.
Qed.

Lemma edgeRef_neighbour g c x :
  In x (neighbours g c) -> storedRef g (edgeRef g c x).
Proof.
  intros H. apply In_neighbours_edgeRef in H. destruct H as [ref H].
  exists c, x, ref. now rewrite H.
Qed.

(** The loop only reads entries that exist. *)
Lemma walk_refs_stored (fuel : nat) (g : RouteGraph) :
  forall lastId currId nextId endId acc refs,
    (forall nx, nextId = Some nx -> In nx (neighbours g currId)) ->
    Forall (storedRef g) acc ->
    walk fuel g lastId currId nextId endId acc = Ok refs ->
    Forall (storedRef g) refs.
Proof.
  induction fuel as [|fuel IH]; intros lastId currId nextId endId acc refs Hn Hacc.
  - destruct nextId; [discriminate|]. now intros [= <-].
  - destruct nextId as [nx|]; [|now intros [= <-]].
    cbn [walk]. pose proof (Hn nx eq_refl) as Hnx.
    pose proof (edgeRef_neighbour _ _ _ Hnx) as Hstored.
    unfold edgeRef in Hstored.
    destruct (JsMap.get g currId) as [adj|]; [|discriminate].
    assert (Forall (storedRef g) (acc ++ [JsMap.get adj nx])) as Hacc'
      by (apply Forall_app; split; [exact Hacc|now constructor]).
    destruct (_getNextNode g nx currId) as [nextId'| |] eqn:En; cbn [bind];
      try discriminate.
    destruct (String.eqb nx endId && negb (String.eqb currId "-1")).
    + now intros [= <-].
    + apply IH; [|exact Hacc'].
      intros y ->. now apply getNext_In in En.
Qed.

(** On a symmetric graph the loop never reads a node that is not there. *)
Lemma walk_never_throws (fuel : nat) (g : RouteGraph) :
  symmetricGraph g ->
  forall lastId currId nextId endId acc e,
    (forall nx, nextId = Some nx -> In nx (neighbours g currId)) ->
    walk fuel g lastId currId nextId endId acc <> Throw e.
Proof.
  intros Hsym.
  induction fuel as [|fuel IH]; intros lastId currId nextId endId acc e Hn.
  - destruct nextId; discriminate.
  - destruct nextId as [nx|]; [|discriminate].
    cbn [walk]. pose proof (Hn nx eq_refl) as Hnx.
    pose proof (neighbours_of_key _ _ _ Hnx) as Hkc.
    pose proof (neighbour_is_key _ Hsym _ _ Hnx) as Hkx.
    apply get_Some_keys in Hkc. destruct Hkc as [adj ->].
    rewrite (getNext_nextOf g nx currId Hkx). cbn [bind].
    destruct (String.eqb nx endId && negb (String.eqb currId "-1"));
      [discriminate|].
    apply IH. intros y Hy.
    apply (getNext_In g nx currId). now rewrite (getNext_nextOf g nx currId Hkx), Hy.
Qed.

Lemma first_entry_neighbour (g : RouteGraph) F adjF n1 ref1 :
  JsMap.first g = Some (F, adjF) -> JsMap.first adjF = Some (n1, ref1) ->
  In n1 (neighbours g F) /\ edgeRef g F n1 = Some ref1.
Proof.
  unfold JsMap.first, neighbours, edgeRef. intros Hg Hadj.
  destruct g as [|e g']; [discriminate|]. injection Hg as ->.
  destruct adjF as [|e adj']; [discriminate|]. injection Hadj as ->.
  cbn [JsMap.get]. rewrite String.eqb_refl.
  cbn [JsMap.get JsMap.keys map fst]. rewrite String.eqb_refl.
  split; [now left|reflexivity].
Qed.

Lemma orderGraph_refs_stored fuel g refs :
  orderGraph fuel g = Ok refs -> Forall (storedRef g) refs.
Proof.
  unfold orderGraph. destruct (JsMap.size g =? 1).
  - destruct (JsMap.first g) as [[F adjF]|] eqn:Hg; [|discriminate].
    destruct (JsMap.first adjF) as [[n1 ref1]|] eqn:Hadj; [|discriminate].
    intros [= <-]. constructor; [|constructor].
    destruct (first_entry_neighbour _ _ _ _ _ Hg Hadj) as [_ H].
    now exists F, n1, ref1.
  - assert (forall F adjF am,
               JsMap.first g = Some (F, adjF) -> JsMap.first adjF = Some am ->
               walk fuel g "-1" F (Some (fst am)) F [] = Ok refs ->
               Forall (storedRef g) refs) as Hround.
    { intros F adjF [n1 ref1] Hg Hadj. apply walk_refs_stored; [|constructor].
      intros nx [= <-].
      now destruct (first_entry_neighbour _ _ _ _ _ Hg Hadj). }
    destruct (find _ g) as [[nodeId adj]|].
    + destruct (_getNextNode g nodeId "-1") as [nextId| |] eqn:En; cbn [bind];
        try discriminate.
      cbn [fst snd]. destruct (String.eqb nodeId "-1").
      * destruct (JsMap.first g) as [[F adjF]|] eqn:Hg; [|discriminate].
        cbn [fst snd].
        destruct (JsMap.first adjF) as [am|] eqn:Hadj; [|discriminate].
        cbn [bind fst snd]. now apply (Hround F adjF am).
      * cbn [bind]. apply walk_refs_stored; [|constructor].
        intros nx ->. now apply getNext_In in En.
    + cbn [bind fst snd]. rewrite String.eqb_refl.
      destruct (JsMap.first g) as [[F adjF]|] eqn:Hg; [|discriminate].
      cbn [fst snd].
      destruct (JsMap.first adjF) as [am|] eqn:Hadj; [|discriminate].
      cbn [bind fst snd]. now apply (Hround F adjF am).
Qed.

Lemma orderGraph_never_throws fuel g e :
  mapInvariant g -> symmetricGraph g -> g <> [] ->
  orderGraph fuel g <> Throw e.
Proof.
  intros Hmap Hsym Hne. unfold orderGraph.
  destruct (JsMap.first g) as [[F adjF]|] eqn:Hg;
    [|destruct g; [congruence|discriminate]].
  assert (In (F, adjF) g) as HinF
    by (destruct g as [|x g']; [discriminate|injection Hg as ->; now left]).
  destruct (proj2 Hmap F adjF HinF) as [HadjF _].
  destruct (JsMap.first adjF) as [[n1 ref1]|] eqn:Hadj;
    [|destruct adjF; [congruence|discriminate]].
  destruct (first_entry_neighbour _ _ _ _ _ Hg Hadj) as [Hn1 _].
  destruct (JsMap.size g =? 1); [discriminate|].
  assert (walk fuel g "-1" F (Some n1) F [] <> Throw e) as Hround
    by (apply walk_never_throws; [exact Hsym|]; now intros nx [= <-]).
  destruct (find _ g) as [[nodeId adj]|] eqn:Hfind.
  - apply find_some in Hfind. destruct Hfind as [Hin _].
    apply (in_map fst) in Hin. cbn [fst] in Hin.
    rewrite (getNext_nextOf g nodeId "-1" Hin). cbn [bind fst snd].
    destruct (String.eqb nodeId "-1"); cbn [bind fst snd];
      [rewrite Hadj; cbn [bind fst snd]; exact Hround|].
    apply walk_never_throws; [exact Hsym|].
    intros nx Hnx. apply (getNext_In g nodeId "-1").
    now rewrite (getNext_nextOf g nodeId "-1" Hin), Hnx.
  - cbn [bind fst snd]. rewrite String.eqb_refl. cbn [bind fst snd].
    rewrite Hadj. cbn [bind fst snd]. exact Hround.
Qed.

(** ** The walk on a graph that need not be connected *)

Lemma half_bound a b : 2 * a <= b -> a <= Nat.div2 b.
Proof.
  intros H. rewrite Nat.div2_div. apply Nat.div_le_lower_bound; lia.
Qed.

Lemma exhaustive_length_bound g t :
  mapInvariant g -> symmetricGraph g -> exhaustive g t ->
  length t <= numEdges g.
Proof.
  intros Hmap Hsym [Hadj [Hnd [Hasym _]]]. unfold numEdges. apply half_bound.
  assert (NoDup (t ++ map swap t)) as Hnd2.
  { apply NoDup_app; auto.
    - apply NoDup_map_injective; auto.
      intros [x y] [x' y'] E. unfold swap in E. cbn [fst snd] in E.
      now injection E as -> ->.
    - intros [x y] H1 H2. apply in_map_iff in H2.
      destruct H2 as [[x' y'] [E H2]]. unfold swap in E. cbn [fst snd] in E.
      injection E as -> ->. now apply (Hasym x y). }
  assert (incl (t ++ map swap t) (entries g)) as Hincl.
  { intros [x y] H. apply (entries_In g x y (proj1 Hmap)).
    apply in_app_or in H. destruct H as [H|H]; [now apply Hadj|].
    apply in_map_iff in H. destruct H as [[x' y'] [E H]].
    unfold swap in E. cbn [fst snd] in E. injection E as -> ->.
    apply Hsym. now apply Hadj. }
  pose proof (NoDup_incl_length Hnd2 Hincl) as Hlen.
  rewrite length_app, length_map in Hlen. lia.
Qed.

Section GraphWalkAny.

Variable g : RouteGraph.
Hypothesis Hmap : mapInvariant g.
Hypothesis Hsym : symmetricGraph g.
Hypothesis Hloop : loopFree g.
Hypothesis Hdeg : forall n adj, In (n, adj) g -> JsMap.size adj < 3.
Hypothesis Hsent : ~ In "-1" (JsMap.keys g).

Lemma one_way_order_any s adj rest1 :
  filter (fun e => JsMap.size (snd e) =? 1) g = (s, adj) :: rest1 ->
  exists p,
    hd_error p = Some s /\
    length (neighbours g (last p "")) = 1 /\
    exhaustive g (steps p) /\ steps p <> [] /\
    forall fuel, length (steps p) <= fuel ->
                 walk fuel g "-1" s (nextOf g s "-1") "-1" [] = Ok (refsAlong g p).
Proof.
  intros Hfilter.
  assert (In (s, adj) g /\ JsMap.size adj = 1) as [Hin Hsize].
  { assert (In (s, adj) (filter (fun e => JsMap.size (snd e) =? 1) g)) as H
      by (rewrite Hfilter; now left).
    apply filter_In in H. destruct H as [H1 H2]. split; auto.
    now apply Nat.eqb_eq in H2. }
  pose proof (degree_of_entry g Hmap s adj Hin) as Hns.
  assert (exists n1, neighbours g s = [n1]) as [n1 Hn1].
  { rewrite Hns. unfold JsMap.size, JsMap.keys in *.
    destruct adj as [|[k v] [|? ?]]; try discriminate. now exists k. }
  assert (In n1 (neighbours g s)) as Hs1 by (rewrite Hn1; now left).
  assert (n1 <> s) as Hne by (intros ->; now apply (Hloop s)).
  destruct (one_way_walk g Hmap Hsym Hloop Hdeg Hsent
              (length (JsMap.keys g)) n1 s [])
    as [tail [H1 [H2 [H3 [H4 H5]]]]].
  - lia.
  - repeat constructor; simpl; intuition.
  - intros y [<-|[<-|[]]];
      [eapply neighbour_is_key|eapply neighbours_of_key]; eauto.
  - intros a b [[= <- <-]|[]]. exact Hs1.
  - intros a [<-|[]] b Hb. rewrite Hn1 in Hb. destruct Hb as [<-|[]].
    left. now left.
  - set (r := rev tail ++ [n1; s]) in *.
    assert (rev (s :: n1 :: tail) = r) as Hrev
      by (unfold r; cbn [rev]; now rewrite <- app_assoc).
    assert (steps (s :: n1 :: tail) = rev (rsteps r)) as Hsteps
      by (now rewrite steps_of_rev, Hrev).
    exists (s :: n1 :: tail).
    split; [reflexivity|]. split; [now rewrite last_is_hd_rev, Hrev|].
    split; [|split].
    + rewrite Hsteps. apply exhaustive_rev. now apply path_exhaustive.
    + rewrite steps_cons2. discriminate.
    + intros fuel Hfuel. rewrite length_steps in Hfuel. cbn [length] in Hfuel.
      destruct fuel as [|fuel]; [lia|].
      rewrite (nextOf_sentinel g Hsym Hsent), Hn1. cbn [hd_error].
      rewrite (walk_step g Hsym fuel "-1" s n1 "-1" [] Hs1).
      rewrite (key_not_sentinel g Hsent n1)
        by (eapply neighbour_is_key; eauto).
      cbn [andb]. rewrite H5 by lia.
      unfold refsAlong. rewrite (steps_cons2 s n1). reflexivity.
Qed.

Lemma orderGraph_walks_any :
  g <> [] ->
  exists p,
    (forall fuel, numEdges g <= fuel -> orderGraph fuel g = Ok (refsAlong g p)) /\
    exhaustive g (steps p) /\ steps p <> [] /\
    (hd_error p = hd_error (nodesWithDegree 1 g)
     \/ (nodesWithDegree 1 g = [] /\ hd_error p = hd_error (JsMap.keys g)
         /\ hd_error p = Some (last p ""))).
Proof.
  intros Hne. unfold orderGraph.
  rewrite (size_not_one g Hmap Hsym Hloop Hsent), find_hd_filter.
  destruct (filter (fun e => JsMap.size (snd e) =? 1) g) as [|[s adj] rest1]
    eqn:Hfilter; cbn [hd_error].
  - destruct (JsMap.first g) as [[F adjF]|] eqn:Hfirst;
      [|destruct g; [congruence|discriminate]].
    destruct (round_trip_order g Hmap Hsym Hloop Hdeg Hsent F adjF Hfilter Hfirst)
      as [p [n1 [ref1 [Hadj [Hhd [Hlast [Hex [Hsteps Hwalk]]]]]]]].
    exists p. split; [|split; [exact Hex|split; [exact Hsteps|]]].
    + intros fuel Hfuel. cbn [bind fst snd]. rewrite String.eqb_refl.
      cbn [fst snd]. rewrite Hadj. cbn [bind fst snd]. apply Hwalk.
      pose proof (exhaustive_length_bound g _ Hmap Hsym Hex). lia.
    + right. split; [unfold nodesWithDegree; now rewrite Hfilter|].
      split; [|now rewrite Hlast].
      rewrite Hhd. unfold JsMap.first in Hfirst.
      destruct g as [|e g']; [discriminate|]. injection Hfirst as ->.
      reflexivity.
  - destruct (one_way_order_any s adj rest1 Hfilter)
      as [p [Hhd [_ [Hex [Hsteps Hwalk]]]]].
    exists p. split; [|split; [exact Hex|split; [exact Hsteps|]]].
    + intros fuel Hfuel.
      assert (In s (JsMap.keys g)) as Hks.
      { assert (In (s, adj) (filter (fun e => JsMap.size (snd e) =? 1) g)) as H
          by (rewrite Hfilter; now left).
        apply filter_In in H. destruct H as [H _].
        apply (in_map fst) in H. exact H. }
      rewrite (getNext_nextOf g s "-1" Hks). cbn [bind fst snd].
      rewrite (key_not_sentinel g Hsent s Hks). cbn [bind fst snd]. apply Hwalk.
      pose proof (exhaustive_length_bound g _ Hmap Hsym Hex). lia.
    + left. unfold nodesWithDegree. rewrite Hfilter. exact Hhd.
Qed.

End GraphWalkAny.

(** X16.  Connected or not: on a routable route whose graph is not empty,
    has no way closed on itself and no node named ["-1"],
    [orderedChildIds] ends within one turn of the loop per edge and raises
    nothing.  The walk starts at the first node of degree 1, or at the
    first node of the graph when there is none; its steps follow entries
    of the graph, each one starts where the previous one ended, no edge is
    taken twice, and at every node it passes all the edges are taken: the
    walk covers the whole component of its start, and nothing else. *)
Theorem orderedChildIds_component (this : route) (g : RouteGraph) :
  routeGraph this = Ok g ->
  isRoutable this = Ok true ->
  g <> [] -> loopFree g -> ~ In "-1" (JsMap.keys g) ->
  exists p : list string,
    (forall fuel, numEdges g <= fuel ->
                  orderedChildIds fuel this = Ok (refsAlong g p)) /\
    (hd_error p = hd_error (nodesWithDegree 1 g)
     \/ (nodesWithDegree 1 g = [] /\ hd_error p = hd_error (JsMap.keys g)
         /\ hd_error p = Some (last p ""))) /\
    steps p <> [] /\ chained (steps p) /\
    (forall a b, In (a, b) (steps p) -> In b (neighbours g a)) /\
    NoDup (steps p) /\
    (forall a b, In (a, b) (steps p) -> ~ In (b, a) (steps p)) /\
    (forall a b c, In (a, b) (steps p) \/ In (b, a) (steps p) ->
                   In c (neighbours g a) ->
                   In (a, c) (steps p) \/ In (c, a) (steps p)).
Proof.
  intros Hg Hr Hne Hloop Hsent.
  pose proof (built_mapInvariant _ _ _ Hg) as Hmap.
  pose proof (built_symmetric _ _ _ Hg) as Hsym.
  destruct (routable_bounds _ _ Hg Hr) as [Hdeg _].
  destruct (orderGraph_walks_any g Hmap Hsym Hloop Hdeg Hsent Hne)
    as [p [Hwalk [Hex [Hsteps Hstart]]]].
  exists p. split; [|split; [exact Hstart|split; [exact Hsteps|]]].
  - intros fuel Hfuel. unfold orderedChildIds. rewrite Hr, Hg. cbn [bind negb].
    now apply Hwalk.
  - split; [apply chained_steps|].
    destruct Hex as [Hadj [Hnd [Hasym Hclosed]]].
    split; [exact Hadj|]. split; [exact Hnd|]. split; [exact Hasym|].
    intros a b c [H|H] Hc.
    + now apply (proj1 (Hclosed a b H)).
    + now apply (proj2 (Hclosed b a H)).
Qed.

Lemma pathAndTriangle_loopFree :
  loopFree [("A", [("B", "1")]); ("B", [("A", "-1")]);
            ("C", [("D", "2"); ("E", "-4")]); ("D", [("C", "-2"); ("E", "3")]);
            ("E", [("D", "-3"); ("C", "4")])].
Proof.
  intros a H. unfold neighbours in H.
  destruct (JsMap.get _ a) as [adj|] eqn:E; [|destruct H].
  apply get_Some_In in E.
  destruct E as [E|[E|[E|[E|[E|[]]]]]]; injection E as <- <-; simpl in H;
    intuition discriminate.
Qed.

Lemma orderedChildIds_component_witness :
  exists p : list string,
    (forall fuel, 4 <= fuel ->
                  orderedChildIds fuel pathAndTriangleRoute
                  = Ok (refsAlong
                          [("A", [("B", "1")]); ("B", [("A", "-1")]);
                           ("C", [("D", "2"); ("E", "-4")]);
                           ("D", [("C", "-2"); ("E", "3")]);
                           ("E", [("D", "-3"); ("C", "4")])] p)) /\
    NoDup (steps p).
Proof.
  destruct (orderedChildIds_component pathAndTriangleRoute
              [("A", [("B", "1")]); ("B", [("A", "-1")]);
               ("C", [("D", "2"); ("E", "-4")]);
               ("D", [("C", "-2"); ("E", "3")]);
               ("E", [("D", "-3"); ("C", "4")])])
    as [p [Hwalk [_ [_ [_ [_ [Hnd _]]]]]]].
  - reflexivity.
  - reflexivity.
  - discriminate.
  - exact pathAndTriangle_loopFree.
  - simpl. intuition discriminate.
  - exists p. split; [exact Hwalk|exact Hnd].
Defined.

(** ** A node named like the initial value of the walk *)

(** X17.  [orderedChildIds] starts with [lastId = "-1"] and looks for the
    neighbour of the start node that differs from [lastId].  When the first
    node of degree 1 has the node ["-1"] as its only neighbour, no such
    neighbour is found, the loop is not entered and the result is the empty
    list, whatever the number of ways of the route. *)
Theorem orderedChildIds_sentinel_neighbour (this : route) (g : RouteGraph)
    (s : string) :
  routeGraph this = Ok g ->
  isRoutable this = Ok true ->
  hd_error (nodesWithDegree 1 g) = Some s ->
  s <> "-1" ->
  neighbours g s = ["-1"] ->
  forall fuel, orderedChildIds fuel this = Ok [].
Proof.
  intros Hg Hr Hs Hne Hn fuel.
  pose proof (built_mapInvariant _ _ _ Hg) as Hmap.
  pose proof (built_symmetric _ _ _ Hg) as Hsym.
  unfold orderedChildIds. rewrite Hr, Hg. cbn [bind negb].
  assert (In "-1" (neighbours g s)) as Hin by (rewrite Hn; now left).
  assert (In s (JsMap.keys g)) as Hks by (eapply neighbours_of_key; eauto).
  assert (In "-1" (JsMap.keys g)) as Hk1
    by (eapply (neighbours_of_key g "-1" s); apply Hsym; exact Hin).
  unfold orderGraph.
  assert ((JsMap.size g =? 1) = false) as ->.
  { apply Nat.eqb_neq. unfold JsMap.size, JsMap.keys in *.
    destruct g as [|[k adj] [|? ?]]; cbn in *; try lia.
    destruct Hks as [<-|[]], Hk1 as [E|[]]. congruence. }
  rewrite find_hd_filter. unfold nodesWithDegree, JsMap.keys in Hs.
  destruct (filter (fun e => JsMap.size (snd e) =? 1) g) as [|[s' adj] rest];
    [discriminate|].
  cbn in Hs. injection Hs as ->. cbn [hd_error].
  unfold _getNextNode. unfold neighbours in Hn.
  destruct (JsMap.get g s) as [adj'|]; [|discriminate].
  rewrite Hn. cbn [filter String.eqb Ascii.eqb Bool.eqb negb hd_error bind fst snd].
  apply String.eqb_neq in Hne. rewrite Hne. cbn [bind fst snd].
  apply walk_done.
Qed.

Lemma orderedChildIds_sentinel_neighbour_witness :
  routeGraph sentinelRoute = Ok [("A", [("-1", "1")]); ("-1", [("A", "-1")])] /\
  forall fuel, orderedChildIds fuel sentinelRoute = Ok [].
Proof.
  split; [reflexivity|].
  apply (orderedChildIds_sentinel_neighbour sentinelRoute
           [("A", [("-1", "1")]); ("-1", [("A", "-1")])] "A").
  - reflexivity.
  - reflexivity.
  - reflexivity.
  - discriminate.
  - reflexivity.
Defined.

(** ** The memoised getters *)

Lemma coherent_fresh this : coherent this freshCache.
Proof. split; [|split]; intros ? H; discriminate H. Qed.

Lemma routeGraph_hit this c g :
  _routeGraph c = Some g -> Cached.routeGraph this c = (Ok g, c).
Proof. intros H. unfold Cached.routeGraph. now rewrite H. Qed.

Lemma routeGraph_read this c :
  coherent this c ->
  transparent this (Cached.routeGraph this) (routeGraph this) c /\
  (forall g, routeGraph this = Ok g ->
             _routeGraph (snd (Cached.routeGraph this c)) = Some g) /\
  (forall e, routeGraph this = Throw e -> snd (Cached.routeGraph this c) = c).
Proof.
  intros Hc. pose proof Hc as [H1 [H2 H3]].
  unfold transparent, Cached.routeGraph.
  destruct (_routeGraph c) as [g|] eqn:E.
  - rewrite (H1 g eq_refl). cbn [fst snd]. split; [split; auto|]. split.
    + intros g' [= <-]. exact E.
    + intros e He. discriminate He.
  - unfold routeGraph.
    destruct (_buildRouteGraph this (filter not_alternative (children this)))
      as [g|e|] eqn:B; cbn [fst snd].
    + split; [split; [reflexivity|]|split].
      * split; [|split]; cbn [_routeGraph _isRoutable _orderedChildIds]; auto.
        intros g' [= <-]. exact B.
      * intros g' [= <-]. reflexivity.
      * intros e He. discriminate He.
    + split; [split; auto|split]; [intros g' Hg'; discriminate Hg'|reflexivity].
    + split; [split; auto|split]; [intros g' Hg'; discriminate Hg'|].
      intros e He. discriminate He.
Qed.

Lemma transparent_seq {A B : Type} this (m : getter A) (o : outcome A)
    (k : A -> getter B) (k' : A -> outcome B) c :
  transparent this m o c ->
  (forall a c', o = Ok a -> coherent this c' -> transparent this (k a) (k' a) c') ->
  transparent this (seq m k) (bind o k') c.
Proof.
  unfold transparent, seq.
  destruct (m c) as [[a|e|] c']; cbn [fst snd]; intros [<- Hc] Hk; cbn [bind].
  - exact (Hk a c' eq_refl Hc).
  - split; auto.
  - split; auto.
Qed.

Lemma transparent_ret {A : Type} this (a : A) c :
  coherent this c -> transparent this (ret a) (Ok a) c.
Proof. intros H. split; auto. Qed.

Lemma nodeDegrees_read this c :
  coherent this c ->
  transparent this (Cached.nodeDegrees this) (nodeDegrees this) c.
Proof.
  intros Hc. unfold Cached.nodeDegrees, nodeDegrees.
  apply transparent_seq; [now apply routeGraph_read|].
  intros g c' _ Hc'. now apply transparent_ret.
Qed.

Lemma isRoutable_read this c :
  coherent this c ->
  transparent this (Cached.isRoutable this) (isRoutable this) c /\
  exists b, _isRoutable (snd (Cached.isRoutable this c)) = Some b.
Proof.
  intros Hc. pose proof Hc as [H1 [H2 H3]].
  unfold transparent, Cached.isRoutable.
  destruct (_isRoutable c) as [b|] eqn:E.
  - rewrite (H2 b eq_refl). cbn [fst snd]. split; [split; auto|eauto].
  - destruct (nodeDegrees_read this c Hc) as [Hf Hs]. unfold nodeDegrees in Hf.
    destruct (Cached.nodeDegrees this c) as [[nd|e|] c'] eqn:N;
      cbn [fst snd] in *.
    + split; [split|cbn; eauto].
      * rewrite isRoutable_value.
        destruct (routeGraph this) as [g| |]; try discriminate Hf.
        cbn [bind] in Hf. now injection Hf as <-.
      * destruct Hs as [S1 [S2 S3]].
        split; [|split]; cbn [_routeGraph _isRoutable _orderedChildIds]; auto.
        intros b [= <-]. rewrite isRoutable_value.
        destruct (routeGraph this) as [g| |]; try discriminate Hf.
        cbn [bind] in Hf. now injection Hf as <-.
    + assert (isRoutable this = Ok false) as Hfalse.
      { rewrite isRoutable_value.
        destruct (routeGraph this) as [g| |]; try discriminate Hf. reflexivity. }
      split; [split|cbn; eauto]; [now rewrite Hfalse|].
      destruct Hs as [S1 [S2 S3]].
      split; [|split]; cbn [_routeGraph _isRoutable _orderedChildIds]; auto.
      now intros b [= <-].
    + exfalso. destruct (routeGraph this) as [g| |] eqn:G; try discriminate Hf.
      now apply (routeGraph_terminates this).
Qed.

Lemma throwRouteTopologyError_read {A : Type} this c :
  coherent this c ->
  transparent this (@Cached.throwRouteTopologyError A this)
    (throwRouteTopologyError this) c.
Proof.
  intros Hc. unfold Cached.throwRouteTopologyError, throwRouteTopologyError.
  apply transparent_seq.
  - unfold Cached.newRouteTopologyError, newRouteTopologyError.
    apply transparent_seq; [now apply nodeDegrees_read|].
    intros nd c' _ Hc'. now apply transparent_ret.
  - intros e c' _ Hc'. split; auto.
Qed.

Lemma endNodes_read this c :
  coherent this c ->
  transparent this (Cached.endNodes this) (endNodes this) c.
Proof.
  intros Hc. unfold Cached.endNodes, endNodes.
  apply transparent_seq; [now apply isRoutable_read|].
  intros [|] c' _ Hc'; [|now apply throwRouteTopologyError_read].
  apply transparent_seq; [now apply nodeDegrees_read|].
  intros nd c'' _ Hc''. now apply transparent_ret.
Qed.

(** X18.  The fields [_routeGraph] and [_isRoutable] do not show: read
    with fields that hold values computed from the members, [routeGraph],
    [nodeDegrees], [isRoutable] and [endNodes] give what they give without
    any field, and leave such fields.  A graph that was built is stored, a
    build that raised stores nothing and is run again at the next read,
    and [isRoutable] stores its answer in both cases. *)
Theorem memoised_getters_transparent (this : route) (c : cache) :
  coherent this c ->
  transparent this (Cached.routeGraph this) (routeGraph this) c /\
  transparent this (Cached.nodeDegrees this) (nodeDegrees this) c /\
  transparent this (Cached.isRoutable this) (isRoutable this) c /\
  transparent this (Cached.endNodes this) (endNodes this) c /\
  (forall g, routeGraph this = Ok g ->
             _routeGraph (snd (Cached.routeGraph this c)) = Some g) /\
  (forall e, routeGraph this = Throw e -> snd (Cached.routeGraph this c) = c) /\
  (exists b, _isRoutable (snd (Cached.isRoutable this c)) = Some b).
Proof.
  intros Hc.
  destruct (routeGraph_read this c Hc) as [Hg [Hstored Hfailed]].
  destruct (isRoutable_read this c Hc) as [Hr Hb].
  split; [exact Hg|]. split; [now apply nodeDegrees_read|].
  split; [exact Hr|]. split; [now apply endNodes_read|].
  split; [exact Hstored|]. split; [exact Hfailed|exact Hb].
Qed.

Lemma memoised_getters_transparent_witness :
  coherent junctionRoute freshCache /\
  transparent junctionRoute (Cached.endNodes junctionRoute)
    (endNodes junctionRoute) freshCache.
Proof.
  split; [apply coherent_fresh|].
  apply (memoised_getters_transparent junctionRoute freshCache).
  apply coherent_fresh.
Defined.

(** *** orderedChildIds with its field *)

Lemma walk_fuel_settled fuel fuel' g lastId currId nextId endId acc :
  walk fuel g lastId currId nextId endId acc <> OutOfFuel ->
  fuel <= fuel' ->
  walk fuel' g lastId currId nextId endId acc
  = walk fuel g lastId currId nextId endId acc.
Proof.
  revert fuel' lastId currId nextId acc.
  induction fuel as [|fuel IH]; intros fuel' lastId currId nextId acc H Hle.
  - destruct nextId; [now contradiction H|]. now rewrite !walk_done.
  - destruct nextId as [nx|]; [|now rewrite !walk_done].
    destruct fuel' as [|fuel']; [lia|].
    simpl in *. destruct (JsMap.get g currId) as [adj|]; [|reflexivity].
    destruct (_getNextNode g nx currId) as [nextId'| |]; simpl in *;
      try reflexivity.
    destruct (String.eqb nx endId && negb (String.eqb currId "-1")); auto.
    apply IH; auto. lia.
Qed.

Lemma orderGraph_fuel_settled fuel fuel' g :
  orderGraph fuel g <> OutOfFuel -> fuel <= fuel' ->
  orderGraph fuel' g = orderGraph fuel g.
Proof.
  unfold orderGraph. intros H Hle.
  destruct (JsMap.size g =? 1); auto.
  destruct (find _ g) as [[nodeId adj]|].
  - destruct (_getNextNode g nodeId "-1") as [nextId| |]; simpl in *;
      try reflexivity.
    destruct (String.eqb nodeId "-1").
    + destruct (JsMap.first g) as [fm|]; [|reflexivity].
      destruct (JsMap.first (snd fm)) as [am|]; [|reflexivity].
      simpl in *. now apply walk_fuel_settled.
    + simpl in *. now apply walk_fuel_settled.
  - simpl in *.
    destruct (JsMap.first g) as [fm|]; [|reflexivity].
    destruct (JsMap.first (snd fm)) as [am|]; [|reflexivity].
    simpl in *. now apply walk_fuel_settled.
Qed.

Lemma orderedChildIds_fuel_settled fuel fuel' this :
  orderedChildIds fuel this <> OutOfFuel -> fuel <= fuel' ->
  orderedChildIds fuel' this = orderedChildIds fuel this.
Proof.
  unfold orderedChildIds. intros H Hle.
  destruct (isRoutable this) as [[|]| |]; simpl in *; auto.
  destruct (routeGraph this) as [g| |]; simpl in *; auto.
  now apply orderGraph_fuel_settled.
Qed.

(** Two runs that end give the same result, whatever their fuel. *)
Lemma orderedChildIds_fuel_agree fuel fuel0 this ids :
  orderedChildIds fuel this <> OutOfFuel ->
  orderedChildIds fuel0 this = Ok ids ->
  orderedChildIds fuel this = Ok ids.
Proof.
  intros H H0.
  rewrite <- (orderedChildIds_fuel_settled fuel (Nat.max fuel fuel0) this H)
    by lia.
  apply (orderedChildIds_fuel_mono fuel0); [exact H0|lia].
Qed.

Lemma seq_hit {B : Type} this c g (k : RouteGraph -> getter B) :
  _routeGraph c = Some g -> seq (Cached.routeGraph this) k c = k g c.
Proof. intros H. unfold seq. now rewrite (routeGraph_hit this c g H). Qed.

Lemma getNextNode_hit this c g a b :
  _routeGraph c = Some g ->
  Cached._getNextNode this a b c = (_getNextNode g a b, c).
Proof.
  intros H. unfold Cached._getNextNode. now rewrite (seq_hit this c g _ H).
Qed.

Lemma walk_hit this c g :
  _routeGraph c = Some g ->
  forall fuel lastId currId nextId endId acc,
    Cached.walk fuel this lastId currId nextId endId acc c
    = (walk fuel g lastId currId nextId endId acc, c).
Proof.
  intros H. induction fuel as [|fuel IH]; intros;
    destruct nextId as [nx|]; try reflexivity.
  cbn [Cached.walk walk]. rewrite (seq_hit this c g _ H).
  destruct (JsMap.get g currId) as [adj|]; [|reflexivity].
  unfold seq. rewrite (getNextNode_hit this c g _ _ H).
  destruct (_getNextNode g nx currId) as [n| |]; cbn [bind]; try reflexivity.
  destruct (String.eqb nx endId && negb (String.eqb currId "-1"));
    [reflexivity|apply IH].
Qed.

Lemma orderGraph_hit fuel this c g :
  _routeGraph c = Some g ->
  Cached.orderGraph fuel this c
  = (orderGraph fuel g,
     if JsMap.size g =? 1 then c
     else match orderGraph fuel g with
          | Ok ids => mkCache (_routeGraph c) (_isRoutable c) (Some ids)
          | _ => c
          end).
Proof.
  intros H. unfold Cached.orderGraph, orderGraph.
  rewrite (seq_hit this c g _ H).
  destruct (JsMap.size g =? 1).
  - rewrite (seq_hit this c g _ H).
    destruct (JsMap.first g) as [[k adj]|]; [|reflexivity].
    destruct (JsMap.first adj) as [[k' ref]|]; reflexivity.
  - rewrite (seq_hit this c g _ H).
    destruct (find (fun e => JsMap.size (snd e) =? 1) g) as [[nodeId adj]|].
    + unfold seq. rewrite (getNextNode_hit this c g _ _ H).
      destruct (_getNextNode g nodeId "-1") as [n| |];
        cbn [bind ret fst snd]; try reflexivity.
      destruct (String.eqb nodeId "-1").
      * rewrite (routeGraph_hit this c g H).
        destruct (JsMap.first g) as [fm|]; [|reflexivity].
        destruct (JsMap.first (snd fm)) as [am|]; [|reflexivity].
        cbn [bind ret fst snd]. rewrite (walk_hit this c g H).
        now destruct (walk fuel g "-1" (fst fm) (Some (fst am)) (fst fm) []).
      * cbn [bind ret fst snd]. rewrite (walk_hit this c g H).
        now destruct (walk fuel g "-1" nodeId n "-1" []).
    + unfold seq. cbn [bind ret fst snd String.eqb Ascii.eqb Bool.eqb].
      rewrite (routeGraph_hit this c g H).
      destruct (JsMap.first g) as [fm|]; [|reflexivity].
      destruct (JsMap.first (snd fm)) as [am|]; [|reflexivity].
      cbn [bind ret fst snd]. rewrite (walk_hit this c g H).
      now destruct (walk fuel g "-1" (fst fm) (Some (fst am)) (fst fm) []).
Qed.

Lemma orderGraph_miss fuel this c g :
  coherent this c -> routeGraph this = Ok g ->
  exists c2, _routeGraph c2 = Some g /\ coherent this c2 /\
             Cached.orderGraph fuel this c = Cached.orderGraph fuel this c2.
Proof.
  intros Hc Hg.
  destruct (routeGraph_read this c Hc) as [[Gf Gs] [Gst _]].
  specialize (Gst g Hg). rewrite Hg in Gf.
  exists (snd (Cached.routeGraph this c)). split; [exact Gst|].
  split; [exact Gs|].
  unfold Cached.orderGraph. rewrite (seq_hit this _ g _ Gst).
  unfold seq at 1. destruct (Cached.routeGraph this c) as [r c2].
  cbn [fst snd] in *. now subst r.
Qed.

Lemma orderedChildIds_read fuel this c :
  coherent this c ->
  orderedChildIds fuel this <> OutOfFuel ->
  transparent this (Cached.orderedChildIds fuel this)
    (orderedChildIds fuel this) c.
Proof.
  intros Hc Hfuel.
  destruct (isRoutable_read this c Hc) as [[Hf Hs] _].
  unfold transparent, Cached.orderedChildIds, seq.
  destruct (Cached.isRoutable this c) as [r c1]. cbn [fst snd] in Hf, Hs.
  subst r. pose proof (isRoutable_value this) as Hv.
  destruct (isRoutable this) as [[|]| |] eqn:Hr; try discriminate Hv.
  - apply isRoutable_true in Hr. destruct Hr as [g [Hg Hbins]].
    assert (isRoutable this = Ok true) as Hr
      by (apply isRoutable_true; eauto).
    assert (orderedChildIds fuel this = orderGraph fuel g) as Heq
      by (unfold orderedChildIds; now rewrite Hr, Hg).
    cbn [negb]. destruct (_orderedChildIds c1) as [ids|] eqn:O.
    + cbn [fst snd]. split; [|exact Hs].
      destruct Hs as [_ [_ H3]]. destruct (H3 ids O) as [fuel0 H0].
      symmetry. now apply (orderedChildIds_fuel_agree fuel fuel0).
    + destruct (orderGraph_miss fuel this c1 g Hs Hg) as [c2 [Gst [Gs ->]]].
      rewrite (orderGraph_hit fuel this c2 g Gst), Heq. cbn [fst snd].
      split; [reflexivity|].
      destruct (JsMap.size g =? 1); [exact Gs|].
      destruct (orderGraph fuel g) as [ids| |] eqn:W; try exact Gs.
      destruct Gs as [S1 [S2 S3]].
      split; [|split]; cbn [_routeGraph _isRoutable _orderedChildIds]; auto.
      intros ids' [= <-]. exists fuel. now rewrite Heq.
  - cbn [negb]. unfold orderedChildIds. rewrite Hr. cbn [bind negb].
    now apply throwRouteTopologyError_read.
Qed.

(** X19.  The field [_orderedChildIds] does not show either: read with
    coherent fields, [orderedChildIds] gives what the walk without fields
    gives, and leaves coherent fields; this holds whenever the walk
    without fields ends.  A second read gives the same outcome again.  A
    stored list is returned only after the test of [isRoutable], so a
    route that is not routable raises the same error with and without
    fields. *)
Theorem memoised_orderedChildIds_transparent (fuel : nat) (this : route)
    (c : cache) :
  coherent this c ->
  orderedChildIds fuel this <> OutOfFuel ->
  fst (Cached.orderedChildIds fuel this c) = orderedChildIds fuel this /\
  coherent this (snd (Cached.orderedChildIds fuel this c)) /\
  (forall fuel', orderedChildIds fuel' this <> OutOfFuel ->
     fst (Cached.orderedChildIds fuel' this
            (snd (Cached.orderedChildIds fuel this c)))
     = orderedChildIds fuel this).
Proof.
  intros Hc Hfuel.
  destruct (orderedChildIds_read fuel this c Hc Hfuel) as [Hf Hs].
  split; [exact Hf|]. split; [exact Hs|].
  intros fuel' Hfuel'.
  destruct (orderedChildIds_read fuel' this _ Hs Hfuel') as [Hf' _].
  rewrite Hf'.
  destruct (Nat.le_ge_cases fuel fuel') as [Hle|Hle].
  - now apply orderedChildIds_fuel_settled.
  - symmetry. now apply orderedChildIds_fuel_settled.
Qed.

Lemma memoised_orderedChildIds_transparent_witness :
  coherent pathRoute freshCache /\
  orderedChildIds 2 pathRoute = Ok [Some "1"; Some "2"] /\
  fst (Cached.orderedChildIds 2 pathRoute freshCache)
  = orderedChildIds 2 pathRoute.
Proof.
  split; [apply coherent_fresh|]. split; [reflexivity|].
  apply (memoised_orderedChildIds_transparent 2 pathRoute freshCache).
  - apply coherent_fresh.
  - discriminate.
Defined.

(** ** Routes that are accepted and cannot be one line *)

Lemma is_way_not_node t : is_way t = true -> is_node t = false.
Proof. now destruct t. Qed.

(** A main child always leaves a failure or a node. *)
Lemma empty_graph_no_main_children (this : route) :
  routeGraph this = Ok [] -> mainChildren this = [].
Proof.
  unfold routeGraph. fold (mainChildren this).
  destruct (mainChildren this) as [|m ms] eqn:E; [reflexivity|].
  intros H. exfalso.
  assert (In m (children this)) as Hm.
  { assert (In m (mainChildren this)) as Hin by (rewrite E; now left).
    unfold mainChildren in Hin. apply filter_In in Hin. tauto. }
  destruct (children_have_element this m Hm) as [el Hel].
  assert (is_node (m_type m) = false) as Hnode.
  { unfold children in Hm. apply filter_In in Hm. destruct Hm as [_ Hm].
    apply andb_true_iff in Hm. now apply is_way_not_node. }
  pose proof (_buildRouteGraph_Ok _ _ _ H) as Hbuilt.
  unfold _buildRouteGraph in H. rewrite fold_buildStep_failures in H.
  cbn [app flat_map] in H. unfold memberFailure at 1 in H.
  rewrite Hnode, Hel in H.
  destruct (el_endNodes el) as [e|[a b]] eqn:Hends; [discriminate H|].
  assert (In a (JsMap.keys (builtFrom [] (m :: ms)))) as Ha.
  { apply In_keys_builtFrom. right. exists m, (el_id el), a, b.
    split; [now left|]. split; [|now left].
    split; [exact Hnode|]. exists el. auto. }
  rewrite <- Hbuilt in Ha. destruct Ha.
Qed.

(** C3.  A route whose graph is built and empty is accepted: the four
    bins are empty, nothing is raised, and [isRoutable] is [true], not
    [false].  The route cannot be one line string: whatever the fuel,
    ordering it, joining it and its statistics end in the [TypeError] of a
    read on [undefined]. *)
Theorem isRoutable_accepts_empty_graph (this : route) :
  routeGraph this = Ok [] ->
  isRoutable this = Ok true /\
  forall fuel,
    orderedChildIds fuel this = Throw TypeError /\
    lineStringFeature fuel this = Throw TypeError /\
    simplestFeature fuel this = Throw TypeError /\
    forall turfLength, statistics turfLength fuel this = Throw TypeError.
Proof.
  intros Hg. pose proof (empty_graph_no_main_children this Hg) as Hm.
  assert (isRoutable this = Ok true) as Hr
    by (rewrite isRoutable_value, Hg; reflexivity).
  assert (forall fuel, orderedChildIds fuel this = Throw TypeError) as Hids
    by (intros fuel; unfold orderedChildIds; rewrite Hr, Hg; reflexivity).
  assert (forall fuel, lineStringFeature fuel this = Throw TypeError) as Hls.
  { intros fuel. unfold lineStringFeature, orderedFeatureCollection.
    rewrite Hr. cbn [bind negb].
    destruct (childrenMap_returns this) as [cm ->]. cbn [bind].
    now rewrite Hids. }
  split; [exact Hr|]. intros fuel.
  split; [apply Hids|]. split; [apply Hls|]. split.
  - unfold simplestFeature. rewrite Hr. cbn [bind]. now rewrite Hls.
  - intros turfLength.
    unfold statistics, deepFeatureCollection, featureCollection.
    fold (mainChildren this). rewrite Hm. cbn [mapM bind fold_left].
    rewrite Hr. cbn [bind]. now rewrite Hls.
Qed.

Lemma isRoutable_accepts_empty_graph_witness :
  routeGraph emptyRoute = Ok [] /\
  isRoutable emptyRoute = Ok true /\
  forall fuel,
    orderedChildIds fuel emptyRoute = Throw TypeError /\
    lineStringFeature fuel emptyRoute = Throw TypeError /\
    simplestFeature fuel emptyRoute = Throw TypeError /\
    forall turfLength, statistics turfLength fuel emptyRoute = Throw TypeError.
Proof.
  split; [reflexivity|].
  exact (isRoutable_accepts_empty_graph emptyRoute eq_refl).
Defined.

(** ** Components the walk does not reach *)

Lemma reachable_trans g a b c :
  reachable g a b -> reachable g b c -> reachable g a c.
Proof.
  intros Hab Hbc. induction Hab as [a|a x b Hx _ IH]; [exact Hbc|].
  eapply reachable_step; [exact Hx|]. now apply IH.
Qed.

Lemma reachable_sym g a b :
  symmetricGraph g -> reachable g a b -> reachable g b a.
Proof.
  intros Hsym Hab. induction Hab as [a|a x b Hx _ IH]; [apply reachable_refl|].
  apply (reachable_trans g b x a); [exact IH|].
  eapply reachable_step; [apply Hsym; exact Hx|apply reachable_refl].
Qed.

(** A property kept by every entry of the graph is kept by every chain. *)
Lemma reachable_invariant g (P : string -> Prop) :
  (forall x y, P x -> In y (neighbours g x) -> P y) ->
  forall a b, reachable g a b -> P a -> P b.
Proof.
  intros Hstep a b Hab. induction Hab as [a|a x b Hx _ IH]; [auto|].
  intros Ha. apply IH. now apply (Hstep a).
Qed.

Lemma steps_In_nodes p a b : In (a, b) (steps p) -> In a p /\ In b p.
Proof.
  induction p as [|x p IH]; [intros []|].
  destruct p as [|y p]; [intros []|].
  rewrite steps_cons2. intros [[= <- <-]|H].
  - split; [now left|right; now left].
  - destruct (IH H) as [Ha Hb]. split; now right.
Qed.

Lemma path_reachable g p :
  adjacentSteps g (steps p) ->
  forall s x, hd_error p = Some s -> In x p -> reachable g s x.
Proof.
  induction p as [|a p IH]; intros Hadj s x Hs Hx; [discriminate Hs|].
  destruct p as [|b p].
  - injection Hs as <-. destruct Hx as [<-|[]]. apply reachable_refl.
  - injection Hs as <-. destruct Hx as [<-|Hx]; [apply reachable_refl|].
    rewrite steps_cons2 in Hadj.
    apply (reachable_step g a b x); [apply Hadj; now left|].
    apply IH; [|reflexivity|exact Hx].
    intros u v Huv. apply Hadj. now right.
Qed.

(** A node the steps do not touch keeps one edge out of them. *)
Lemma untouched_node_edge g t x :
  mapInvariant g -> symmetricGraph g -> loopFree g ->
  exhaustive g t ->
  In x (JsMap.keys g) ->
  (forall y, ~ In (x, y) t /\ ~ In (y, x) t) ->
  length t < numEdges g.
Proof.
  intros Hmap Hsym Hloop [Hadj [Hnd [Hasym _]]] Hx Hout.
  destruct (neighbours g x) as [|y l] eqn:Hn;
    [now apply (neighbours_nonempty g Hmap x Hx) in Hn|].
  assert (In y (neighbours g x)) as Hy by (rewrite Hn; now left).
  assert (x <> y) as Hxy by (intros <-; now apply (Hloop x)).
  assert (forall u v, In (u, v) (map swap t) -> In (v, u) t) as Hswap.
  { intros u v H. apply in_map_iff in H. destruct H as [[u' v'] [E H]].
    unfold swap in E. cbn [fst snd] in E. now injection E as -> ->. }
  assert (NoDup ((x, y) :: (y, x) :: t ++ map swap t)) as Hnd2.
  { constructor; [|constructor].
    - intros [E|H]; [injection E as E _; now apply Hxy|].
      apply in_app_or in H. destruct H as [H|H].
      + now apply (proj1 (Hout y)).
      + apply Hswap in H. now apply (proj2 (Hout y)).
    - intros H. apply in_app_or in H. destruct H as [H|H].
      + now apply (proj2 (Hout y)).
      + apply Hswap in H. now apply (proj1 (Hout y)).
    - apply NoDup_app; auto.
      + apply NoDup_map_injective; auto.
        intros [u v] [u' v'] E. unfold swap in E. cbn [fst snd] in E.
        now injection E as -> ->.
      + intros [u v] H1 H2. apply Hswap in H2. now apply (Hasym u v). }
  assert (incl ((x, y) :: (y, x) :: t ++ map swap t) (entries g)) as Hincl.
  { intros [u v] H. apply (entries_In g u v (proj1 Hmap)).
    destruct H as [[= <- <-]|[[= <- <-]|H]]; [exact Hy|now apply Hsym|].
    apply in_app_or in H. destruct H as [H|H]; [now apply Hadj|].
    apply Hswap in H. apply Hsym. now apply Hadj. }
  pose proof (NoDup_incl_length Hnd2 Hincl) as Hlen.
  cbn [length] in Hlen. rewrite length_app, length_map in Hlen.
  unfold numEdges. apply (half_bound (S (length t))). lia.
Qed.

(** C2.  [isRoutable] counts degrees and never looks at connectivity: a
    route whose graph has two nodes that no chain of ways links is
    accepted all the same, and [orderedChildIds] then returns, without
    raising, fewer references than the graph has edges: the ways of the
    components the walk does not reach are left out. *)
Theorem orderedChildIds_skips_components (this : route) (g : RouteGraph)
    (a b : string) :
  routeGraph this = Ok g ->
  isRoutable this = Ok true ->
  loopFree g -> ~ In "-1" (JsMap.keys g) ->
  In a (JsMap.keys g) -> In b (JsMap.keys g) -> ~ reachable g a b ->
  exists refs,
    (forall fuel, numEdges g <= fuel -> orderedChildIds fuel this = Ok refs) /\
    length refs < numEdges g.
Proof.
  intros Hg Hr Hloop Hsent Ha Hb Hab.
  pose proof (built_mapInvariant _ _ _ Hg) as Hmap.
  pose proof (built_symmetric _ _ _ Hg) as Hsym.
  destruct (routable_bounds _ _ Hg Hr) as [Hdeg _].
  assert (g <> []) as Hne by (intros ->; destruct Ha).
  destruct (orderGraph_walks_any g Hmap Hsym Hloop Hdeg Hsent Hne)
    as [p [Hwalk [Hex [Hsteps _]]]].
  exists (refsAlong g p). split.
  - intros fuel Hfuel. unfold orderedChildIds. rewrite Hr, Hg. cbn [bind negb].
    now apply Hwalk.
  - unfold refsAlong. rewrite length_map.
    destruct p as [|s p']; [now contradiction Hsteps|].
    assert (forall x, In x (JsMap.keys g) -> ~ In x (s :: p') ->
                      length (steps (s :: p')) < numEdges g) as Hmiss.
    { intros x Hx Hout. apply (untouched_node_edge g _ x); auto.
      intros y. split; intros H; apply steps_In_nodes in H; tauto. }
    destruct (in_dec string_dec a (s :: p')) as [Hina|Hina];
      [|now apply (Hmiss a)].
    destruct (in_dec string_dec b (s :: p')) as [Hinb|Hinb];
      [|now apply (Hmiss b)].
    exfalso. apply Hab. apply (reachable_trans g a s b).
    + apply reachable_sym; [exact Hsym|].
      apply (path_reachable g (s :: p')); [apply Hex|reflexivity|exact Hina].
    + apply (path_reachable g (s :: p')); [apply Hex|reflexivity|exact Hinb].
Qed.

Lemma pathAndTriangle_apart :
  reachable [("A", [("B", "1")]); ("B", [("A", "-1")]);
             ("C", [("D", "2"); ("E", "-4")]); ("D", [("C", "-2"); ("E", "3")]);
             ("E", [("D", "-3"); ("C", "4")])] "A" "C" -> False.
Proof.
  intros H.
  apply (reachable_invariant _ (fun x => x = "A" \/ x = "B")) in H.
  - destruct H as [H|H]; discriminate H.
  - intros x y [->| ->] Hy; cbn in Hy; destruct Hy as [<-|[]]; auto.
  - now left.
Qed.

Lemma orderedChildIds_skips_components_witness :
  isRoutable pathAndTriangleRoute = Ok true /\
  (forall fuel, 1 <= fuel ->
                orderedChildIds fuel pathAndTriangleRoute = Ok [Some "1"]) /\
  exists refs,
    (forall fuel, 4 <= fuel ->
                  orderedChildIds fuel pathAndTriangleRoute = Ok refs) /\
    length refs < 4.
Proof.
  split; [reflexivity|]. split.
  - intros fuel Hfuel. now apply (orderedChildIds_fuel_mono 1).
  - apply (orderedChildIds_skips_components pathAndTriangleRoute
             [("A", [("B", "1")]); ("B", [("A", "-1")]);
              ("C", [("D", "2"); ("E", "-4")]);
              ("D", [("C", "-2"); ("E", "3")]);
              ("E", [("D", "-3"); ("C", "4")])] "A" "C").
    + reflexivity.
    + reflexivity.
    + exact pathAndTriangle_loopFree.
    + simpl. intuition discriminate.
    + simpl. tauto.
    + simpl. tauto.
    + exact pathAndTriangle_apart.
Defined.

(** ** The references of the list that is returned *)

(** X15.  On a routable route whose graph is not empty [orderedChildIds]
    never raises, and a list it returns holds no [undefined]: every
    element is a reference stored in the route graph.  When no way is
    closed on itself and no node is named ["-1"] it does return such a
    list, not empty, within one turn of the loop per edge. *)
Theorem orderedChildIds_refs_stored (this : route) (g : RouteGraph) :
  routeGraph this = Ok g ->
  isRoutable this = Ok true ->
  g <> [] ->
  (forall fuel e, orderedChildIds fuel this <> Throw e) /\
  (forall fuel refs, orderedChildIds fuel this = Ok refs ->
                     Forall (storedRef g) refs) /\
  (loopFree g -> ~ In "-1" (JsMap.keys g) ->
   exists refs,
     refs <> [] /\ Forall (storedRef g) refs /\
     forall fuel, numEdges g <= fuel -> orderedChildIds fuel this = Ok refs).
Proof.
  intros Hg Hr Hne.
  pose proof (built_mapInvariant _ _ _ Hg) as Hmap.
  pose proof (built_symmetric _ _ _ Hg) as Hsym.
  assert (forall fuel, orderedChildIds fuel this = orderGraph fuel g) as Heq
    by (intros fuel; unfold orderedChildIds; now rewrite Hr, Hg).
  split; [|split].
  - intros fuel e. rewrite Heq. now apply orderGraph_never_throws.
  - intros fuel refs. rewrite Heq. apply orderGraph_refs_stored.
  - intros Hloop Hsent.
    destruct (routable_bounds _ _ Hg Hr) as [Hdeg _].
    destruct (orderGraph_walks_any g Hmap Hsym Hloop Hdeg Hsent Hne)
      as [p [Hwalk [_ [Hsteps _]]]].
    exists (refsAlong g p). split; [|split].
    + unfold refsAlong. intros E. apply map_eq_nil in E. contradiction.
    + apply (orderGraph_refs_stored (numEdges g)). now apply Hwalk.
    + intros fuel Hfuel. rewrite Heq. now apply Hwalk.
Qed.

Lemma orderedChildIds_refs_stored_witness :
  (forall fuel, 3 <= fuel ->
                orderedChildIds fuel triangleRoute
                = Ok [Some "1"; Some "-2"; Some "3"]) /\
  exists refs,
    refs <> [] /\
    Forall (storedRef [("A", [("B", "1"); ("C", "-3")]);
                       ("B", [("A", "-1"); ("C", "-2")]);
                       ("C", [("B", "2"); ("A", "3")])]) refs /\
    forall fuel, 3 <= fuel -> orderedChildIds fuel triangleRoute = Ok refs.
Proof.
  split; [intros fuel Hfuel; now apply (orderedChildIds_fuel_mono 3)|].
  refine (proj2 (proj2 (orderedChildIds_refs_stored triangleRoute
                          [("A", [("B", "1"); ("C", "-3")]);
                           ("B", [("A", "-1"); ("C", "-2")]);
                           ("C", [("B", "2"); ("A", "3")])]
                          eq_refl eq_refl _)) _ _).
  - discriminate.
  - intros a H. unfold neighbours in H.
    destruct (JsMap.get _ a) as [adj|] eqn:E; [|destruct H].
    apply get_Some_In in E.
    destruct E as [E|[E|[E|[]]]]; injection E as <- <-; simpl in H;
      intuition discriminate.
  - simpl. intuition discriminate.
Defined.

(** ** The assembled line string, way by way *)










